(** * sound-to-piano: the pitch-detection core of [SoundPianoTuner_backup.tsx]

    A shallow embedding of the helper functions and of
    [detectPitchAutoCorrelation], together with the part of the render loop
    that turns a detected frequency into the displayed note.

    JavaScript numbers are modelled by the type [number]: the three
    non-finite values of IEEE-754 and the finite values, the latter taken as
    real numbers.  The propagation of NaN and of the infinities, comparisons
    that fail on NaN and division by zero follow the language.

    The source is embedded twice.  The first embedding computes with the
    exact real results; it carries the properties that do not depend on the
    last digits: the control flow of the detector and of the render loop,
    the note names, the reference matcher, the keyboard and the tuner
    page.  The second embedding, [Rounded], is the same code with every
    arithmetic result brought to a double and every store into a
    [Float32Array] converted to single precision; the rounding functions are
    parameters, [IEEE] gives the ones of binary64 and binary32, and with no
    rounding the second embedding is the first.  The properties of the
    window, of the energy gate, of the autocorrelation, of the peak search
    and of the note arithmetic are proved over [Rounded], under what they
    need of the rounding.  The sign of zero is not modelled. *)

From Stdlib Require Import Reals Lra Lia ZArith List String Bool DecimalString.
Import ListNotations.

Declare Scope js_scope.
Delimit Scope js_scope with js.

(** ** JavaScript numbers *)

Module JS.

Inductive number : Type :=
| NaN
| Inf (neg : bool)
| Fin (x : R).

Definition Rltb (a b : R) : bool := if Rlt_dec a b then true else false.
Definition Reqb (a b : R) : bool := if Req_dec_T a b then true else false.

(** Sign bit of a finite value ([true] = negative); zero counts as [+0]. *)
Definition sgn (x : R) : bool := Rltb x 0.

Definition of_Z (z : Z) : number := Fin (IZR z).
Definition of_nat (n : nat) : number := Fin (INR n).

Definition neg (a : number) : number :=
  match a with
  | NaN => NaN
  | Inf s => Inf (negb s)
  | Fin x => Fin (- x)
  end.

Definition add (a b : number) : number :=
  match a, b with
  | NaN, _ | _, NaN => NaN
  | Inf s, Inf t => if Bool.eqb s t then Inf s else NaN
  | Inf s, Fin _ | Fin _, Inf s => Inf s
  | Fin x, Fin y => Fin (x + y)
  end.

Definition sub (a b : number) : number := add a (neg b).

Definition mul (a b : number) : number :=
  match a, b with
  | NaN, _ | _, NaN => NaN
  | Inf s, Inf t => Inf (xorb s t)
  | Inf s, Fin y | Fin y, Inf s => if Reqb y 0 then NaN else Inf (xorb s (sgn y))
  | Fin x, Fin y => Fin (x * y)
  end.

Definition div (a b : number) : number :=
  match a, b with
  | NaN, _ | _, NaN => NaN
  | Inf _, Inf _ => NaN
  | Inf s, Fin y => Inf (xorb s (sgn y))
  | Fin _, Inf _ => Fin 0
  | Fin x, Fin y =>
      if Reqb y 0 then (if Reqb x 0 then NaN else Inf (sgn x)) else Fin (x / y)
  end.

(** [a < b]; any comparison with NaN is false. *)
Definition lt (a b : number) : bool :=
  match a, b with
  | NaN, _ | _, NaN => false
  | Inf s, Inf t => s && negb t
  | Inf s, Fin _ => s
  | Fin _, Inf t => negb t
  | Fin x, Fin y => Rltb x y
  end.

Definition gt (a b : number) : bool := lt b a.

(** Integer part towards zero. *)
Definition Ztrunc (r : R) : Z := if Rltb r 0 then Zceil r else Zfloor r.

(** The remainder operator [%]: the result has the sign of the dividend. *)
Definition rem (a b : number) : number :=
  match a, b with
  | NaN, _ | _, NaN => NaN
  | Inf _, _ => NaN
  | Fin x, Inf _ => Fin x
  | Fin x, Fin y => if Reqb y 0 then NaN else Fin (x - y * IZR (Ztrunc (x / y)))
  end.

Definition isFinite (a : number) : bool :=
  match a with Fin _ => true | _ => false end.

(** Truthiness of a number in a condition: NaN and zero are falsy. *)
Definition truthy (a : number) : bool :=
  match a with
  | NaN => false
  | Inf _ => true
  | Fin x => negb (Reqb x 0)
  end.

Definition Math_PI : number := Fin PI.

Definition Math_cos (a : number) : number :=
  match a with Fin x => Fin (cos x) | _ => NaN end.

Definition Math_sqrt (a : number) : number :=
  match a with
  | NaN => NaN
  | Inf s => if s then NaN else Inf false
  | Fin x => if Rltb x 0 then NaN else Fin (sqrt x)
  end.

Definition Math_floor (a : number) : number :=
  match a with Fin x => Fin (IZR (Zfloor x)) | _ => a end.

(** [Math.round]: nearest integer, a tie going up. *)
Definition Math_round (a : number) : number :=
  match a with Fin x => Fin (IZR (Zfloor (x + / 2))) | _ => a end.

Definition Math_abs (a : number) : number :=
  match a with
  | NaN => NaN
  | Inf _ => Inf false
  | Fin x => Fin (Rabs x)
  end.

Definition Math_min (a b : number) : number :=
  match a, b with
  | NaN, _ | _, NaN => NaN
  | _, _ => if lt b a then b else a
  end.

Definition log2 (x : R) : R := ln x / ln 2.

Definition Math_log2 (a : number) : number :=
  match a with
  | NaN => NaN
  | Inf s => if s then NaN else Inf false
  | Fin x => if Rltb x 0 then NaN else if Reqb x 0 then Inf true else Fin (log2 x)
  end.

(** [Math.pow(2, y)], the only use of [Math.pow] in the source. *)
Definition Math_pow2 (y : number) : number :=
  match y with
  | NaN => NaN
  | Inf s => if s then Fin 0 else Inf false
  | Fin y => Fin (Rpower 2 y)
  end.

(** An array read [a[i]] with a number as index: [None] is [undefined]. *)
Definition index {A : Type} (a : list A) (i : number) : option A :=
  match i with
  | Fin r =>
      let k := Zfloor r in
      if Reqb r (IZR k) && (0 <=? k)%Z then nth_error a (Z.to_nat k) else None
  | _ => None
  end.

(** An array read with an integer index. *)
Definition get {A : Type} (a : list A) (i : Z) : option A :=
  if (i <? 0)%Z then None else nth_error a (Z.to_nat i).

(** [v ?? d] *)
Definition nullish (v : option number) (d : number) : number :=
  match v with Some x => x | None => d end.

(** An [undefined] operand of an arithmetic operator or of a comparison
    converts to NaN. *)
Definition toNumber (v : option number) : number := nullish v NaN.

Definition string_of_Z (z : Z) : string := NilZero.string_of_int (Z.to_int z).

(** Conversion of a number to a string inside a template literal, for the
    integer-valued numbers that the source formats (decimal digits, which is
    what the language prints below 10^21). *)
Definition ToString (a : number) : string :=
  match a with
  | NaN => "NaN"
  | Inf s => if s then "-Infinity" else "Infinity"
  | Fin r => string_of_Z (Zfloor r)
  end.

Definition ToString_opt (v : option string) : string :=
  match v with Some s => s | None => "undefined" end.

End JS.

Import JS.

Notation "a + b" := (add a b) : js_scope.
Notation "a - b" := (sub a b) : js_scope.
Notation "a * b" := (mul a b) : js_scope.
Notation "a / b" := (div a b) : js_scope.
(** The remainder operator [%] is written [%%]. *)
Notation "a %% b" := (rem a b) (at level 40, left associativity) : js_scope.
Notation "a <? b" := (lt a b) : js_scope.
Notation "a >? b" := (gt a b) : js_scope.
Notation "v ?? d" := (nullish v d) (at level 45, left associativity) : js_scope.

(** A numeric literal of the source. *)
Notation "# r" := (Fin r%R) (at level 5, format "# r") : js_scope.

Open Scope string_scope.

(** ** Helpers of the source *)

Definition A4 : number := Fin 440.
Definition A4_MIDI : number := Fin 69.

Definition NOTE_NAMES : list string :=
  ["C"; "C♯"; "D"; "D♯"; "E"; "F"; "F♯"; "G"; "G♯"; "A"; "A♯"; "B"].

Record tuning : Type := mkTuning {
  name : string;
  midi : Z;
  freq : number
}.

Definition GUITAR_STD : list tuning :=
  [ mkTuning "E2" 40 (Fin 82.4069);
    mkTuning "A2" 45 (Fin 110.0);
    mkTuning "D3" 50 (Fin 146.832);
    mkTuning "G3" 55 (Fin 195.998);
    mkTuning "B3" 59 (Fin 246.942);
    mkTuning "E4" 64 (Fin 329.628) ].

Definition freqToMidi (freq : number) : number :=
  Math_round (#12 * Math_log2 (freq / A4) + A4_MIDI)%js.

Definition midiToFreq (midi : number) : number :=
  (A4 * Math_pow2 ((midi - A4_MIDI) / #12))%js.

Definition midiToName (midi : number) : string :=
  let name := index NOTE_NAMES ((midi + #1200) %% #12)%js in
  let octave := (Math_floor (midi / #12) - #1)%js in
  ToString_opt name ++ ToString octave.

Definition centsOff (freq midi : number) : number :=
  let ideal := midiToFreq midi in
  Math_round (#1200 * Math_log2 (freq / ideal))%js.

(** ** The autocorrelation pitch detector *)

(** Hann coefficient applied to sample [i] of a buffer of [len] samples. *)
Definition hann (len i : nat) : number :=
  (#0.5 * (#1 - Math_cos ((#2 * Math_PI * of_nat i) / (of_nat len - #1))))%js.

(** The windowing loop [buf[i] *= ...], from index [i] on. *)
Fixpoint window_from (len i : nat) (buf : list number) : list number :=
  match buf with
  | [] => []
  | x :: rest => (x * hann len i)%js :: window_from len (S i) rest
  end.

Definition hannWindow (buf : list number) : list number :=
  window_from (List.length buf) 0 buf.

(** The inner loop [for (i = 0; i + lag < size; i++) sum += buf[i] * buf[i + lag]]. *)
Definition acSum (buf : list number) (size lag : nat) : number :=
  fold_left
    (fun sum i => sum + toNumber (nth_error buf i) * toNumber (nth_error buf (i + lag)))%js
    (seq 0 (size - lag)) (#0)%js.

(** The array [ac], one entry per lag below [size]. *)
Definition autocorrelation (buf : list number) : list number :=
  let size := List.length buf in
  map (acSum buf size) (seq 0 size).

(** The lags visited by [for (lag = lo; lag < hi; lag++)].  Both bounds come
    from [Math.floor] and [Math.min] of the same sample rate; when one of
    them is not finite the first test [lag < hi] already fails. *)
Definition lags (lo hi : number) : list Z :=
  match lo, hi with
  | Fin a, Fin b =>
      let a' := Zfloor a in
      map (fun k => a' + Z.of_nat k)%Z (seq 0 (Z.to_nat (Zceil b - a')))
  | _, _ => []
  end.

(** One iteration of the peak search; the state is [(peakLag, peakVal)]. *)
Definition peakStep (ac : list number) (st : Z * number) (lag : Z) : Z * number :=
  if (toNumber (get ac lag) >? snd st)%js then (lag, toNumber (get ac lag)) else st.

Definition findPeak (ac : list number) (lo hi : number) : Z * number :=
  fold_left (peakStep ac) (lags lo hi) ((-1)%Z, Inf true).

(** [detectPitchAutoCorrelation(buf, sampleRate)].  The buffer is updated in
    place by the windowing loop, so the function returns, next to its result
    ([None] is [null]), the contents of the caller's buffer after the call. *)
Definition detectPitchAutoCorrelation (buf : list number) (sampleRate : number)
  : option number * list number :=
  let buf := hannWindow buf in
  let size := List.length buf in
  let rms := Math_sqrt (fold_left (fun s x => s + x * x) buf #0 / of_nat size)%js in
  if (rms <? #0.008)%js then (None, buf) else
  let ac := autocorrelation buf in
  let minLag := Math_floor (sampleRate / #1000)%js in
  let maxLag := Math_floor (sampleRate / #70)%js in
  let peakLag := fst (findPeak ac minLag (Math_min maxLag (of_nat size))) in
  if (peakLag <=? 0)%Z then (None, buf) else
  let y1 := (get ac (peakLag - 1) ?? #0)%js in
  let y2 := toNumber (get ac peakLag) in
  let y3 := (get ac (peakLag + 1) ?? #0)%js in
  let denom := (y1 - #2 * y2 + y3)%js in
  let shift := if truthy denom then (#0.5 * (y1 - y3) / denom)%js else (#0)%js in
  let trueLag := (of_Z peakLag + shift)%js in
  let freq := (sampleRate / trueLag)%js in
  if negb (isFinite freq) || (freq <? #50)%js || (freq >? #1500)%js
  then (None, buf)
  else (Some freq, buf).

(** ** The render loop: what is shown for one tick *)

Record display : Type := mkDisplay {
  shownFreq : option number;
  shownMidi : option number;
  shownNote : string;
  shownOffset : number;
  shownNearestString : string
}.

(** The state set by the [else] branch of [loop]. *)
Definition noDetection : display :=
  mkDisplay None None "" (Fin 0) "—".

(** One iteration of the search for the nearest string; the state is
    [(best, bestDiff)]. *)
Definition nearestStep (f : number) (st : tuning * number) (s : tuning)
  : tuning * number :=
  let d := Math_abs (f - freq s)%js in
  if (d <? snd st)%js then (s, d) else st.

(** The search for the nearest entry of a reference table.  On an empty
    table [table[0]] is [undefined] and reading its [freq] throws: [None]. *)
Definition nearest (table : list tuning) (f : number) : option tuning :=
  match table with
  | [] => None
  | first :: _ =>
      Some (fst (fold_left (nearestStep f) table
                   (first, Math_abs (f - freq first)%js)))
  end.

(** The state set by the [if (f)] branch. *)
Definition detection (f : number) : option display :=
  let m := freqToMidi f in
  match nearest GUITAR_STD f with
  | Some best =>
      Some (mkDisplay (Some f) (Some m) (midiToName m) (centsOff f m) (name best))
  | None => None
  end.

(** The body of [loop] once the analyser has filled the buffer with
    [samples]: the new display state ([None] when an exception escapes) and
    the buffer as the call leaves it. *)
Definition loop (samples : list number) (sampleRate : number)
  : option display * list number :=
  let (f, buf) := detectPitchAutoCorrelation samples sampleRate in
  match f with
  | Some v => if truthy v then (detection v, buf) else (Some noDetection, buf)
  | None => (Some noDetection, buf)
  end.

(** ** The stages of the detector, named *)

(** [Math.sqrt(buf.reduce((s, x) => s + x * x, 0) / size)] *)
Definition rmsOf (buf : list number) : number :=
  Math_sqrt (fold_left (fun s x => s + x * x)%js buf #0 / of_nat (List.length buf))%js.

Definition minLagOf (sampleRate : number) : number :=
  Math_floor (sampleRate / #1000)%js.

Definition maxLagOf (sampleRate : number) : number :=
  Math_floor (sampleRate / #70)%js.

(** The lags searched for a buffer of [size] samples. *)
Definition searchLags (size : nat) (sampleRate : number) : list Z :=
  lags (minLagOf sampleRate) (Math_min (maxLagOf sampleRate) (of_nat size)).

Definition peakLagOf (ac : list number) (sampleRate : number) : Z :=
  fst (findPeak ac (minLagOf sampleRate)
         (Math_min (maxLagOf sampleRate) (of_nat (List.length ac)))).

(** Parabolic interpolation around the peak: the three samples, the
    denominator and the shift. *)
Definition y1Of (ac : list number) (peakLag : Z) : number :=
  (get ac (peakLag - 1) ?? #0)%js.
Definition y2Of (ac : list number) (peakLag : Z) : number :=
  toNumber (get ac peakLag).
Definition y3Of (ac : list number) (peakLag : Z) : number :=
  (get ac (peakLag + 1) ?? #0)%js.

Definition denomOf (ac : list number) (peakLag : Z) : number :=
  (y1Of ac peakLag - #2 * y2Of ac peakLag + y3Of ac peakLag)%js.

Definition shiftOf (ac : list number) (peakLag : Z) : number :=
  let denom := denomOf ac peakLag in
  if truthy denom
  then ((#0.5 * (y1Of ac peakLag - y3Of ac peakLag)) / denom)%js
  else (#0)%js.

(** The final test [!isFinite(freq) || freq < 50 || freq > 1500]. *)
Definition rejected (freq : number) : bool :=
  negb (isFinite freq) || (freq <? #50)%js || (freq >? #1500)%js.

(** The frame is classified as silence: the first [return null]. *)
Definition isSilence (buf : list number) : bool :=
  (rmsOf (hannWindow buf) <? #0.008)%js.

(** The frequency estimate [sampleRate / trueLag] of a frame, before the
    final test. *)
Definition candidateOf (buf : list number) (sampleRate : number) : number :=
  let ac := autocorrelation (hannWindow buf) in
  let peakLag := peakLagOf ac sampleRate in
  (sampleRate / (of_Z peakLag + shiftOf ac peakLag))%js.

(** The frame is classified as having no pitch: it is not silent and the
    second or the third [return null] is taken. *)
Definition isNoPitch (buf : list number) (sampleRate : number) : bool :=
  let peakLag := peakLagOf (autocorrelation (hannWindow buf)) sampleRate in
  negb (isSilence buf)
  && ((peakLag <=? 0)%Z || rejected (candidateOf buf sampleRate)).

(** The value read by [ac[lag]] in a comparison. *)
Definition valAt (ac : list number) (lag : Z) : number := toNumber (get ac lag).

(** ** The invariant of the peak search *)

(** Invariant of the peak search after the lags [done]: no lag seen so far
    beats [peakVal]; and either nothing has been selected yet, or [peakLag]
    is a lag seen so far, [peakVal] is its value, and every lag seen before
    it has a smaller value or NaN. *)
Definition peakInv (ac : list number) (done : list Z) (st : Z * number) : Prop :=
  (forall lag, In lag done -> (valAt ac lag >? snd st)%js = false)
  /\ ((fst st = (-1)%Z /\ snd st = Inf true)
      \/ (snd st = valAt ac (fst st)
          /\ (snd st >? Inf true)%js = true
          /\ exists pre post,
               done = (pre ++ fst st :: post)%list
               /\ forall lag, In lag pre ->
                    (valAt ac lag <? snd st)%js = true \/ valAt ac lag = NaN)).

(** ** Definitions that follow the words of the specification *)

(** Nearest integer, a tie going up. *)
Definition round (x : R) : Z := Zfloor (x + / 2).

(** The unnormalised autocorrelation of a real signal [x] of length [N] at
    [lag]: the sum of [x[i] * x[i + lag]] for [i] from [0] to [N - 1 - lag]. *)
Definition autocorrelation_spec (x : list R) (lag : nat) : R :=
  sum_f_R0 (fun i => nth i x 0 * nth (i + lag) x 0)%R (List.length x - 1 - lag).

(** The Hann coefficient [0.5 * (1 - cos (2 pi i / (N - 1)))]. *)
Definition hann_spec (N i : nat) : R :=
  (0.5 * (1 - cos (2 * PI * INR i / (INR N - 1))))%R.

(** The note name of a MIDI integer: the cycle of twelve names indexed by
    [(m + 1200) mod 12], followed by the octave [floor (m / 12) - 1]. *)
Definition noteName_spec (m : Z) : string :=
  nth (Z.to_nat ((m + 1200) mod 12)) NOTE_NAMES "" ++ string_of_Z (m / 12 - 1).

(** A well-formed note name: one of the twelve names (a letter, with or
    without the sharp sign) followed by the decimal octave. *)
Definition wellFormedName (s : string) : Prop :=
  exists letter octave, In letter NOTE_NAMES /\ s = letter ++ string_of_Z octave.

(** The windowed signal: sample [i] of [x] times its Hann coefficient. *)
Definition windowed_spec (x : list R) : list R :=
  map (fun p => (snd p * hann_spec (List.length x) (fst p))%R)
    (combine (seq 0 (List.length x)) x).

Definition sumSquares_spec (w : list R) : R :=
  fold_right (fun v acc => v * v + acc)%R 0%R w.

(** Root mean square: the square root of the mean of the squares. *)
Definition rms_spec (w : list R) : R :=
  sqrt (sumSquares_spec w / INR (List.length w)).

(** The distance [|f - entry.frequency|] of a frequency to a table entry. *)
Definition distance (f : R) (e : tuning) : R :=
  match freq e with
  | Fin x => Rabs (f - x)
  | _ => 0%R
  end.

(** A reference table lists frequencies: finite numbers. *)
Definition finiteTable (table : list tuning) : Prop :=
  Forall (fun e => isFinite (freq e) = true) table.

(** One semitone as a frequency ratio. *)
Definition semitone : R := Rpower 2 (/ 12).

(** ** The piano keyboard *)

Definition LOW_MIDI : Z := 36.
Definition HIGH_MIDI : Z := 84.

(** The set of the values of [note % 12] that are white keys, and its
    method [has]. *)
Definition WHITE_INDEX : list Z := [0; 2; 4; 5; 7; 9; 11]%Z.

Definition has (s : list Z) (v : Z) : bool := existsb (Z.eqb v) s.

Record pianoKey : Type := mkKey {
  keyMidi : Z;
  isWhite : bool
}.

(** The list built by [for (let m = LOW_MIDI; m <= HIGH_MIDI; m++)]. *)
Definition keys : list pianoKey :=
  map (fun k => let m := (LOW_MIDI + Z.of_nat k)%Z in
                mkKey m (has WHITE_INDEX (Z.rem m 12)))
    (seq 0 (Z.to_nat (HIGH_MIDI - LOW_MIDI + 1))).

Definition whiteKeys : list pianoKey := filter isWhite keys.
Definition blackKeys : list pianoKey := filter (fun k => negb (isWhite k)) keys.

(** [activeMidi === m] for the optional property [activeMidi] and the MIDI
    number [m] of a key: [None] is [undefined], and NaN equals nothing. *)
Definition strictEqual (activeMidi : option number) (m : Z) : bool :=
  match activeMidi with
  | Some (Fin x) => Reqb x (IZR m)
  | _ => false
  end.

(** [(thisSemitone === 0 && 1) || (thisSemitone === 2 && 3) || ... || -1] *)
Definition blackCandidate (thisSemitone : Z) : Z :=
  if (thisSemitone =? 0)%Z then 1
  else if (thisSemitone =? 2)%Z then 3
  else if (thisSemitone =? 5)%Z then 6
  else if (thisSemitone =? 7)%Z then 8
  else if (thisSemitone =? 9)%Z then 10
  else (-1).

(** What [Piano] draws, as far as it depends on the data: one cell per
    white key with its background and its label, and one slot per white key
    that holds the black key drawn over it, if any, with its background. *)
Record whiteCell : Type := mkWhiteCell {
  cellMidi : Z;
  cellBackground : string;
  cellLabel : string
}.

Record blackOverlay : Type := mkOverlay {
  overlayMidi : Z;
  overlayBackground : string
}.

Record slot : Type := mkSlot {
  slotOf : Z;
  slotOverlay : option blackOverlay
}.

Definition whiteCellOf (activeMidi : option number) (k : pianoKey) : whiteCell :=
  let on := strictEqual activeMidi (keyMidi k) in
  mkWhiteCell (keyMidi k) (if on then "#a7f3d0" else "#f8fafc")
    (midiToName (of_Z (keyMidi k))).

(** The slot of the white key [wk].  [blackMidi] is [null] ([None]) when the
    candidate is -1; the overlay is drawn when [blackMidi] is truthy and is
    the MIDI number of one of [blackKeys]. *)
Definition slotFor (activeMidi : option number) (wk : pianoKey) : slot :=
  let thisSemitone := Z.rem (keyMidi wk) 12 in
  let candidate := blackCandidate thisSemitone in
  let blackMidi := if negb (candidate =? -1)%Z then Some (keyMidi wk + 1)%Z else None in
  mkSlot (keyMidi wk)
    match blackMidi with
    | Some b =>
        if negb (b =? 0)%Z && existsb (fun bk => (keyMidi bk =? b)%Z) blackKeys
        then Some (mkOverlay b (if strictEqual activeMidi b then "#34d399" else "#111827"))
        else None
    | None => None
    end.

Definition Piano (activeMidi : option number) : list whiteCell * list slot :=
  (map (whiteCellOf activeMidi) whiteKeys, map (slotFor activeMidi) whiteKeys).

(** The MIDI numbers of the keys drawn, and of those drawn highlighted. *)
Definition drawnKeys (view : list whiteCell * list slot) : list Z :=
  (map cellMidi (fst view)
   ++ flat_map (fun s => match slotOverlay s with
                         | Some o => [overlayMidi o]
                         | None => []
                         end) (snd view))%list.

Definition litKeys (view : list whiteCell * list slot) : list Z :=
  (map cellMidi (filter (fun c => String.eqb (cellBackground c) "#a7f3d0") (fst view))
   ++ flat_map (fun s => match slotOverlay s with
                         | Some o =>
                             if String.eqb (overlayBackground o) "#34d399"
                             then [overlayMidi o] else []
                         | None => []
                         end) (snd view))%list.

(** The seven names without a sharp sign. *)
Definition NATURALS : list string := ["C"; "D"; "E"; "F"; "G"; "A"; "B"].

(** ** The tuner page *)

(** [Math.max] *)
Definition Math_max (a b : number) : number :=
  match a, b with
  | NaN, _ | _, NaN => NaN
  | _, _ => if (a <? b)%js then b else a
  end.

(** [a || b] on numbers *)
Definition orElse (a b : number) : number := if truthy a then a else b.

(** What [TunerPage] draws, as far as it depends on the data.  The text of
    the frequency, formatted by [toFixed], is left out: only whether it is
    shown.  The text of the offset goes through [ToString], which is exact on
    the integer offsets that [loop] sets. *)
Record tunerView : Type := mkTunerView {
  buttonLabel : string;
  noteText : string;
  freqShown : bool;
  centsColor : string;
  centsText : string;
  needle : number;
  needleLeft : number;
  needleColor : string;
  centreLabel : string;
  centreColor : string;
  nearestText : string
}.

Definition TunerPage (running : bool) (freq : option number) (note : string)
    (offset : number) (nearestString : string) : tunerView :=
  let needle := Math_max (Fin (-50)) (Math_min (Fin 50) (orElse offset (Fin 0))) in
  mkTunerView
    (if running then "Stop" else "Start Mic")
    (if String.eqb note "" then "—" else note)
    (match freq with Some v => truthy v | None => false end)
    (if truthy offset
     then (if (Math_abs offset <? #5)%js then "#34d399" else "#fcd34d")
     else "#9ca3af")
    (if (offset >? #0)%js then "+" ++ ToString offset else ToString offset)
    needle
    (needle * #1.8)%js
    (if (Math_abs needle <? #5)%js then "#34d399" else "#f59e0b")
    (if (Math_abs offset <? #5)%js then "IN TUNE" else "0¢")
    (if (Math_abs needle <? #5)%js then "#34d399" else "#9ca3af")
    nearestString.

(** The tuner page of a display state. *)
Definition tunerOf (running : bool) (d : display) : tunerView :=
  TunerPage running (shownFreq d) (shownNote d) (shownOffset d) (shownNearestString d).

(** The piano of a display state: [PianoPage] passes [midi ?? undefined]. *)
Definition pianoOf (d : display) : list whiteCell * list slot :=
  Piano (shownMidi d).

(** ** The nearest guitar string, by frequency bands *)

(** The bands cut at the midpoints between neighbouring strings. *)
Definition guitarString_spec (f : R) : string :=
  if Rle_dec f 96.20345 then "E2"
  else if Rle_dec f 128.416 then "A2"
  else if Rle_dec f 171.415 then "D3"
  else if Rle_dec f 221.47 then "G3"
  else if Rle_dec f 288.285 then "B3"
  else "E4".

(** * Binary floating point *)

Module IEEE.

(** Nearest integer, a tie going to the even one. *)
Definition rne (t : R) : Z :=
  let n := Zfloor t in
  if Rltb (t - IZR n) (/ 2) then n
  else if Rltb (/ 2) (t - IZR n) then (n + 1)%Z
  else if Z.even n then n else (n + 1)%Z.

(** The binade of a real: for [x <> 0], the [k] with
    [2^k <= |x| < 2^(k+1)]. *)
Definition binade (x : R) : Z := Zfloor (log2 (Rabs x)).

(** The exponent of the last digit kept for [x] in the binary format with
    [prec] digits and least exponent [emin]. *)
Definition ulp_exp (prec emin : Z) (x : R) : Z :=
  Z.max (binade x - (prec - 1)) emin.

(** Rounding to nearest, ties to even, in the binary format with [prec]
    digits, least exponent [emin] (the exponent of the smallest positive
    value) and overflow to an infinity from [2^emax] on. *)
Definition round_to (prec emin emax : Z) (x : R) : number :=
  let e := ulp_exp prec emin x in
  let y := (IZR (rne (x / powerRZ 2 e)) * powerRZ 2 e)%R in
  if Rltb (Rabs y) (powerRZ 2 emax) then Fin y else Inf (sgn x).

(** The doubles of the language and the single-precision values held by a
    [Float32Array]. *)
Definition binary64 : R -> number := round_to 53 (-1074) 1024.
Definition binary32 : R -> number := round_to 24 (-149) 128.

(** The double nearest to an exact result; NaN and the infinities stay. *)
Definition fl64 (a : number) : number :=
  match a with Fin x => binary64 x | _ => a end.

(** The conversion of a store into a [Float32Array] ([Math.fround]). *)
Definition fround (a : number) : number :=
  match a with Fin x => binary32 x | _ => a end.

End IEEE.

(** * The source with its rounding *)

(** The same functions once more, with every arithmetic result brought to a
    double by [fl] and every store into a [Float32Array] converted by
    [fround].  [cosine] is [Math.cos]; [lg] and [pw] are what [Math.log2]
    and [Math.pow(2, .)] return on a positive and on a finite argument: the
    language leaves their accuracy to the implementation.  Literals that a
    double holds exactly are written as they are; 0.008 and pi are rounded.
    Comparisons, [Math.floor], [Math.round], [Math.min] and [Math.abs] are
    exact.  With no rounding at all these definitions are the ones above. *)

Declare Scope fl_scope.
Delimit Scope fl_scope with fl.

Module Rounded.

Section Arithmetic.

Variable fl : number -> number.
Variable fround : number -> number.
Variable cosine : number -> number.
Variable lg : R -> R.
Variable pw : R -> number.

Definition add (a b : number) : number := fl (JS.add a b).
Definition sub (a b : number) : number := fl (JS.sub a b).
Definition mul (a b : number) : number := fl (JS.mul a b).
Definition div (a b : number) : number := fl (JS.div a b).
Definition Math_sqrt (a : number) : number := fl (JS.Math_sqrt a).
Definition Math_PI : number := fl (Fin PI).

Definition Math_log2 (a : number) : number :=
  match a with
  | NaN => NaN
  | Inf s => if s then NaN else Inf false
  | Fin x => if Rltb x 0 then NaN else if Reqb x 0 then Inf true else Fin (lg x)
  end.

Definition Math_pow2 (y : number) : number :=
  match y with
  | NaN => NaN
  | Inf s => if s then Fin 0 else Inf false
  | Fin t => pw t
  end.

Local Notation "a + b" := (add a b) : fl_scope.
Local Notation "a - b" := (sub a b) : fl_scope.
Local Notation "a * b" := (mul a b) : fl_scope.
Local Notation "a / b" := (div a b) : fl_scope.
Local Notation "a <? b" := (lt a b) : fl_scope.
Local Notation "a >? b" := (gt a b) : fl_scope.
Local Notation "v ?? d" := (nullish v d) (at level 45, left associativity) : fl_scope.
Local Notation "# r" := (Fin r%R) (at level 5, format "# r") : fl_scope.

Definition freqToMidi (freq : number) : number :=
  Math_round (#12 * Math_log2 (freq / A4) + A4_MIDI)%fl.

Definition midiToFreq (midi : number) : number :=
  (A4 * Math_pow2 ((midi - A4_MIDI) / #12))%fl.

Definition centsOff (freq midi : number) : number :=
  let ideal := midiToFreq midi in
  Math_round (#1200 * Math_log2 (freq / ideal))%fl.

Definition hann (len i : nat) : number :=
  (#0.5 * (#1 - cosine ((#2 * Math_PI * of_nat i) / (of_nat len - #1))))%fl.

(** [buf[i] *= ...]: the product is stored into the [Float32Array]. *)
Fixpoint window_from (len i : nat) (buf : list number) : list number :=
  match buf with
  | [] => []
  | x :: rest => fround (x * hann len i)%fl :: window_from len (S i) rest
  end.

Definition hannWindow (buf : list number) : list number :=
  window_from (List.length buf) 0 buf.

Definition acSum (buf : list number) (size lag : nat) : number :=
  fold_left
    (fun sum i => sum + toNumber (nth_error buf i) * toNumber (nth_error buf (i + lag)))%fl
    (seq 0 (size - lag)) (#0)%fl.

(** [ac[lag] = sum]: the sum is stored into the [Float32Array]. *)
Definition autocorrelation (buf : list number) : list number :=
  let size := List.length buf in
  map (fun lag => fround (acSum buf size lag)) (seq 0 size).

Definition detectPitchAutoCorrelation (buf : list number) (sampleRate : number)
  : option number * list number :=
  let buf := hannWindow buf in
  let size := List.length buf in
  let rms := Math_sqrt (fold_left (fun s x => s + x * x) buf #0 / of_nat size)%fl in
  if (rms <? fl #0.008)%fl then (None, buf) else
  let ac := autocorrelation buf in
  let minLag := Math_floor (sampleRate / #1000)%fl in
  let maxLag := Math_floor (sampleRate / #70)%fl in
  let peakLag := fst (findPeak ac minLag (Math_min maxLag (of_nat size))) in
  if (peakLag <=? 0)%Z then (None, buf) else
  let y1 := (get ac (peakLag - 1) ?? #0)%fl in
  let y2 := toNumber (get ac peakLag) in
  let y3 := (get ac (peakLag + 1) ?? #0)%fl in
  let denom := (y1 - #2 * y2 + y3)%fl in
  let shift := if truthy denom then (#0.5 * (y1 - y3) / denom)%fl else (#0)%fl in
  let trueLag := (of_Z peakLag + shift)%fl in
  let freq := (sampleRate / trueLag)%fl in
  if negb (isFinite freq) || (freq <? #50)%fl || (freq >? #1500)%fl
  then (None, buf)
  else (Some freq, buf).

(** The stages, named as above. *)
Definition rmsOf (buf : list number) : number :=
  Math_sqrt (fold_left (fun s x => s + x * x)%fl buf #0 / of_nat (List.length buf))%fl.

Definition isSilence (buf : list number) : bool :=
  (rmsOf (hannWindow buf) <? fl #0.008)%fl.

Definition minLagOf (sampleRate : number) : number :=
  Math_floor (sampleRate / #1000)%fl.

Definition maxLagOf (sampleRate : number) : number :=
  Math_floor (sampleRate / #70)%fl.

Definition searchLags (size : nat) (sampleRate : number) : list Z :=
  lags (minLagOf sampleRate) (Math_min (maxLagOf sampleRate) (of_nat size)).

Definition peakLagOf (ac : list number) (sampleRate : number) : Z :=
  fst (findPeak ac (minLagOf sampleRate)
         (Math_min (maxLagOf sampleRate) (of_nat (List.length ac)))).

Definition denomOf (ac : list number) (peakLag : Z) : number :=
  (y1Of ac peakLag - #2 * y2Of ac peakLag + y3Of ac peakLag)%fl.

Definition shiftOf (ac : list number) (peakLag : Z) : number :=
  let denom := denomOf ac peakLag in
  if truthy denom
  then ((#0.5 * (y1Of ac peakLag - y3Of ac peakLag)) / denom)%fl
  else (#0)%fl.

Definition candidateOf (buf : list number) (sampleRate : number) : number :=
  let ac := autocorrelation (hannWindow buf) in
  let peakLag := peakLagOf ac sampleRate in
  (sampleRate / (of_Z peakLag + shiftOf ac peakLag))%fl.

End Arithmetic.

End Rounded.

(** ** What the theorems ask of the rounding *)

(** No rounding at all. *)
Definition exact (a : number) : number := a.

(** [fl] rounds like the binary format with [prec] digits, least exponent
    [emin] and overflow from [2^emax] on: a value of at most [2^k] is brought
    to a finite value of at most [2^k], at a distance of at most [2^-prec]
    of its magnitude or half the smallest positive value; a value that the
    format holds is kept; NaN and the infinities are kept. *)
Definition rounds_like (prec emin emax : Z) (fl : number -> number) : Prop :=
  (forall (x : R) (k : Z),
     (emin <= k < emax)%Z -> (Rabs x <= powerRZ 2 k)%R ->
     exists y, fl (Fin x) = Fin y
               /\ (Rabs y <= powerRZ 2 k)%R
               /\ (Rabs (y - x) <= powerRZ 2 (- prec) * Rabs x + powerRZ 2 (emin - 1))%R)
  /\ (forall m e : Z,
        (Z.abs m < 2 ^ prec)%Z -> (emin <= e)%Z ->
        (Rabs (IZR m * powerRZ 2 e) < powerRZ 2 emax)%R ->
        fl (Fin (IZR m * powerRZ 2 e)) = Fin (IZR m * powerRZ 2 e))
  /\ fl NaN = NaN
  /\ (forall s, fl (Inf s) = Inf s).

Definition rounds_to_double : (number -> number) -> Prop := rounds_like 53 (-1074) 1024.
Definition rounds_to_single : (number -> number) -> Prop := rounds_like 24 (-149) 128.

(** [cosine] returns a value between -1 and 1 on every finite argument. *)
Definition cosine_in_range (cosine : number -> number) : Prop :=
  forall x, exists c, cosine (Fin x) = Fin c /\ (Rabs c <= 1)%R.

(** [lg] is within two units in the last place of the binary logarithm on
    the positive doubles, and exact at 1. *)
Definition log2_accurate (lg : R -> R) : Prop :=
  (forall x, (powerRZ 2 (-1075) <= x <= powerRZ 2 1024)%R ->
     (Rabs (lg x - log2 x) <= powerRZ 2 (-52) * Rabs (log2 x) + powerRZ 2 (-1075))%R)
  /\ lg 1%R = 0%R.

(** [pw] is within two units in the last place of the power of two on the
    exponents from -1021 to 1021, and exact at 0. *)
Definition pow2_accurate (pw : R -> number) : Prop :=
  (forall t, (Rabs t <= 1021)%R ->
     exists y, pw t = Fin y
               /\ (Rabs (y - Rpower 2 t) <= powerRZ 2 (-52) * Rpower 2 t)%R)
  /\ pw 0%R = Fin 1.

(** The correctly rounded functions, one implementation that the language
    allows. *)
Definition cos64 (a : number) : number := IEEE.fl64 (JS.Math_cos a).
Definition log2_64 (x : R) : R :=
  match IEEE.binary64 (log2 x) with Fin y => y | _ => 0%R end.
Definition pow2_64 (t : R) : number := IEEE.binary64 (Rpower 2 t).

(** ** Arithmetic of [number] on finite values *)

Section FiniteArithmetic.

Local Open Scope R_scope.

Lemma Rltb_true (a b : R) : a < b -> Rltb a b = true.
Proof. intros H; unfold Rltb; destruct (Rlt_dec a b); [reflexivity | contradiction]. Qed.

Lemma Rltb_false (a b : R) : b <= a -> Rltb a b = false.
Proof. intros H; unfold Rltb; destruct (Rlt_dec a b); [lra | reflexivity]. Qed.

Lemma Reqb_true (a b : R) : a = b -> Reqb a b = true.
Proof. intros H; unfold Reqb; destruct (Req_dec_T a b); [reflexivity | contradiction]. Qed.

Lemma Reqb_false (a b : R) : a <> b -> Reqb a b = false.
Proof. intros H; unfold Reqb; destruct (Req_dec_T a b); [contradiction | reflexivity]. Qed.

Lemma add_Fin (a b : R) : (#a + #b)%js = Fin (a + b).
Proof. reflexivity. Qed.

Lemma sub_Fin (a b : R) : (#a - #b)%js = Fin (a - b).
Proof. reflexivity. Qed.

Lemma mul_Fin (a b : R) : (#a * #b)%js = Fin (a * b).
Proof. reflexivity. Qed.

Lemma div_Fin (a b : R) : b <> 0 -> (#a / #b)%js = Fin (a / b).
Proof. intros H; unfold div; now rewrite (Reqb_false _ _ H). Qed.

Lemma lt_Fin (a b : R) : (#a <? #b)%js = Rltb a b.
Proof. reflexivity. Qed.

Lemma log2_pos_Fin (x : R) : 0 < x -> Math_log2 (Fin x) = Fin (log2 x).
Proof.
  intros H; unfold Math_log2.
  rewrite Rltb_false by lra. rewrite Reqb_false by lra. reflexivity.
Qed.

Lemma ln_2_pos : 0 < ln 2.
Proof. rewrite <- ln_1. apply ln_increasing; lra. Qed.

Lemma Rpower_log2 (x : R) : 0 < x -> Rpower 2 (log2 x) = x.
Proof.
  intros H. unfold Rpower, log2.
  replace (ln x / ln 2 * ln 2) with (ln x) by (field; pose proof ln_2_pos; lra).
  now apply exp_ln.
Qed.

Lemma log2_le (x y : R) : 0 < x -> x <= y -> log2 x <= log2 y.
Proof.
  intros Hx Hxy. unfold log2.
  apply Rmult_le_compat_r.
  - left. apply Rinv_0_lt_compat, ln_2_pos.
  - destruct Hxy as [Hlt | ->]; [left; apply ln_increasing; assumption | right; reflexivity].
Qed.

Lemma Rpower_2_pos (y : R) : 0 < Rpower 2 y.
Proof. unfold Rpower. apply exp_pos. Qed.

(** Floor and truncation of a quotient of integers. *)
Lemma Zfloor_div (m d : Z) : (0 < d)%Z -> Zfloor (IZR m / IZR d) = (m / d)%Z.
Proof.
  intros Hd. apply Zfloor_eq.
  pose proof (Z.div_mod m d ltac:(lia)) as Hm.
  pose proof (Z.mod_pos_bound m d Hd) as [Hr0 Hr1].
  assert (HdR : 0 < IZR d) by (apply IZR_lt; assumption).
  assert (E : IZR m = IZR d * IZR (m / d) + IZR (m mod d)).
  { rewrite <- mult_IZR, <- plus_IZR. now f_equal. }
  apply IZR_le in Hr0. apply IZR_lt in Hr1.
  rewrite E. split.
  - apply Rmult_le_reg_r with (IZR d); [assumption|].
    unfold Rdiv. rewrite Rmult_assoc, Rinv_l by lra. lra.
  - apply Rmult_lt_reg_r with (IZR d); [assumption|].
    unfold Rdiv. rewrite Rmult_assoc, Rinv_l by lra. lra.
Qed.

Lemma Ztrunc_div (m d : Z) : (0 < d)%Z -> Ztrunc (IZR m / IZR d) = (m ÷ d)%Z.
Proof.
  intros Hd. unfold Ztrunc.
  assert (HdR : 0 < IZR d) by (apply IZR_lt; assumption).
  destruct (Z_lt_le_dec m 0) as [Hneg | Hpos].
  - rewrite Rltb_true.
    + unfold Zceil.
      replace (- (IZR m / IZR d)) with (IZR (- m) / IZR d)
        by (rewrite opp_IZR; field; lra).
      rewrite Zfloor_div by assumption.
      rewrite <- Z.quot_div_nonneg by lia.
      rewrite Z.quot_opp_l by lia. lia.
    + apply IZR_lt in Hneg.
      apply Rmult_lt_reg_r with (IZR d); [assumption|].
      unfold Rdiv. rewrite Rmult_assoc, Rinv_l by lra. lra.
  - rewrite Rltb_false.
    + rewrite Zfloor_div by assumption. symmetry. apply Z.quot_div_nonneg; lia.
    + apply IZR_le in Hpos.
      apply Rmult_le_reg_r with (IZR d); [assumption|].
      unfold Rdiv. rewrite Rmult_assoc, Rinv_l by lra. lra.
Qed.

Lemma rem_of_Z (a d : Z) : (0 < d)%Z -> (of_Z a %% of_Z d)%js = of_Z (Z.rem a d).
Proof.
  intros Hd. unfold rem, of_Z.
  rewrite Reqb_false by (apply not_0_IZR; lia).
  rewrite Ztrunc_div by assumption.
  f_equal. rewrite <- mult_IZR, <- minus_IZR. f_equal.
  pose proof (Z.quot_rem' a d). lia.
Qed.

Lemma index_of_Z {A : Type} (l : list A) (k : Z) : index l (of_Z k) = get l k.
Proof.
  unfold index, get, of_Z. rewrite ZfloorZ, Reqb_true by reflexivity. simpl.
  destruct (Z.leb_spec 0 k), (Z.ltb_spec k 0); try lia; reflexivity.
Qed.

End FiniteArithmetic.

(** ** The frequency-to-note mapper *)

Section NoteMapper.

Local Open Scope R_scope.

Lemma freqToMidi_pos (f : R) :
  0 < f -> freqToMidi (Fin f) = of_Z (round (12 * log2 (f / 440) + 69)).
Proof.
  intros Hf. unfold freqToMidi, A4, A4_MIDI.
  rewrite div_Fin by lra.
  rewrite log2_pos_Fin by lra.
  reflexivity.
Qed.

Lemma midiToFreq_of_Z (m : Z) :
  midiToFreq (of_Z m) = Fin (440 * Rpower 2 ((IZR m - 69) / 12)).
Proof.
  unfold midiToFreq, A4, A4_MIDI, of_Z.
  rewrite sub_Fin, div_Fin by lra. reflexivity.
Qed.

Lemma centsOff_pos (f : R) (m : Z) :
  0 < f ->
  centsOff (Fin f) (of_Z m)
  = of_Z (round (1200 * log2 (f / (440 * Rpower 2 ((IZR m - 69) / 12))))).
Proof.
  intros Hf. unfold centsOff. rewrite midiToFreq_of_Z.
  pose proof (Rpower_2_pos ((IZR m - 69) / 12)) as Hp.
  assert (Hi : 0 < 440 * Rpower 2 ((IZR m - 69) / 12)) by lra.
  rewrite div_Fin by lra.
  rewrite log2_pos_Fin by (apply Rdiv_lt_0_compat; assumption).
  reflexivity.
Qed.

Lemma midiToName_of_Z (m : Z) :
  midiToName (of_Z m)
  = ToString_opt (get NOTE_NAMES (Z.rem (m + 1200) 12)) ++ string_of_Z (m / 12 - 1).
Proof.
  unfold midiToName.
  replace (of_Z m + #1200)%js with (of_Z (m + 1200))
    by (unfold of_Z; rewrite plus_IZR; reflexivity).
  change (#12)%js with (of_Z 12).
  rewrite rem_of_Z by lia. rewrite index_of_Z.
  f_equal.
  unfold of_Z. rewrite div_Fin by (apply not_0_IZR; lia).
  unfold Math_floor. rewrite Zfloor_div by lia. rewrite sub_Fin.
  unfold ToString. f_equal.
  replace (IZR (m / 12) - 1) with (IZR (m / 12 - 1)) by (rewrite minus_IZR; reflexivity).
  apply ZfloorZ.
Qed.

(** From MIDI number -1200 upwards the remainder is the non-negative
    residue and selects one of the twelve names. *)
Lemma note_index_valid (m : Z) :
  (-1200 <= m)%Z ->
  Z.rem (m + 1200) 12 = ((m + 1200) mod 12)%Z
  /\ (0 <= Z.rem (m + 1200) 12 < 12)%Z
  /\ exists letter,
       get NOTE_NAMES (Z.rem (m + 1200) 12) = Some letter
       /\ In letter NOTE_NAMES
       /\ nth (Z.to_nat ((m + 1200) mod 12)) NOTE_NAMES "" = letter.
Proof.
  intros Hm.
  assert (E : Z.rem (m + 1200) 12 = ((m + 1200) mod 12)%Z)
    by (apply Z.rem_mod_nonneg; lia).
  pose proof (Z.mod_pos_bound (m + 1200) 12 ltac:(lia)) as Hb.
  rewrite E. split; [reflexivity | split; [exact Hb |]].
  unfold get. destruct (Z.ltb_spec ((m + 1200) mod 12) 0) as [Hlt | _]; [lia |].
  assert (Hn : (Z.to_nat ((m + 1200) mod 12) < List.length NOTE_NAMES)%nat)
    by (simpl; lia).
  destruct (nth_error NOTE_NAMES (Z.to_nat ((m + 1200) mod 12))) as [letter |] eqn:El.
  - exists letter. split; [reflexivity | split].
    + eapply nth_error_In; exact El.
    + apply nth_error_nth; exact El.
  - apply nth_error_None in El. lia.
Qed.

Lemma midiToName_spec (m : Z) :
  (-1200 <= m)%Z -> midiToName (of_Z m) = noteName_spec m.
Proof.
  intros Hm. rewrite midiToName_of_Z. unfold noteName_spec.
  destruct (note_index_valid m Hm) as (_ & _ & letter & -> & _ & ->).
  reflexivity.
Qed.

Lemma round_IZR (z : Z) : round (IZR z) = z.
Proof. unfold round. apply Zfloor_eq. lra. Qed.

Lemma round_0 : round 0 = 0%Z.
Proof. unfold round. apply Zfloor_eq. simpl. lra. Qed.

Lemma log2_1 : log2 1 = 0.
Proof. unfold log2. rewrite ln_1. lra. Qed.

Lemma Rpower_2_0 : Rpower 2 0 = 1.
Proof. apply Rpower_O; lra. Qed.

End NoteMapper.

Section RoundTrip.

Local Open Scope R_scope.

Lemma log2_inv_pow (n : nat) : log2 (/ 2 ^ n) = - INR n.
Proof.
  assert (Hp : 0 < 2 ^ n) by (apply pow_lt; lra).
  unfold log2. rewrite ln_Rinv by assumption. rewrite ln_pow by lra.
  field. pose proof ln_2_pos; lra.
Qed.

Lemma round_bound (x : R) : x - / 2 < IZR (round x) <= x + / 2.
Proof. unfold round. pose proof (Zfloor_bound (x + / 2)). lra. Qed.

Lemma semitone_lt_106 : semitone < 1.06.
Proof.
  unfold semitone.
  destruct (Rlt_dec (Rpower 2 (/ 12)) 1.06) as [H | H]; [exact H | exfalso].
  apply Rnot_lt_le in H.
  assert (H12 : 1.06 ^ 12 <= Rpower 2 (/ 12) ^ 12) by (apply pow_incr; lra).
  rewrite <- (Rpower_pow 12 (Rpower 2 (/ 12))) in H12 by apply Rpower_2_pos.
  rewrite Rpower_mult in H12.
  replace (/ 12 * INR 12) with 1 in H12 by (simpl; lra).
  rewrite Rpower_1 in H12 by lra.
  assert (2 < 1.06 ^ 12) by (simpl; lra).
  lra.
Qed.

End RoundTrip.

Section NoteIndex.

Local Open Scope R_scope.

(** A frequency of at least 50 Hz, the lowest the detector returns, maps to
    a MIDI number of at least 21. *)
Lemma freqToMidi_from_50 (f : R) :
  50 <= f -> exists m, freqToMidi (Fin f) = of_Z m /\ (21 <= m)%Z.
Proof.
  intros Hf. rewrite freqToMidi_pos by lra.
  eexists. split; [reflexivity |].
  assert (H4 : - 4 <= log2 (f / 440)).
  { replace (- 4) with (log2 (/ 2 ^ 4)) by (rewrite log2_inv_pow; simpl; lra).
    apply log2_le.
    - apply Rinv_0_lt_compat, pow_lt; lra.
    - simpl. lra. }
  pose proof (round_bound (12 * log2 (f / 440) + 69)) as [Hlo _].
  assert (H20 : IZR 20 < IZR (round (12 * log2 (f / 440) + 69))) by lra.
  apply lt_IZR in H20. lia.
Qed.

(** C9, as amended: for every MIDI integer [m] from -1200 upwards (which
    covers every value [freqToMidi] produces on a frequency of at least
    50 Hz, the lowest the detector returns) the index [(m + 1200) % 12]
    lies in [0, 12), selects an entry of the table of twelve names, and
    [midiToName] returns a well-formed note name. *)
Theorem C9_note_index_valid_from_minus_1200 (m : Z) :
  (-1200 <= m)%Z ->
  (exists i letter,
      ((of_Z m + #1200) %% #12)%js = of_Z i
      /\ (0 <= i < 12)%Z
      /\ index NOTE_NAMES (of_Z i) = Some letter
      /\ In letter NOTE_NAMES)
  /\ wellFormedName (midiToName (of_Z m))
  /\ (forall f, 50 <= f -> exists m', freqToMidi (Fin f) = of_Z m' /\ (-1200 <= m')%Z).
Proof.
  intros Hm.
  destruct (note_index_valid m Hm) as (_ & Hb & letter & Hget & Hin & _).
  split; [| split].
  - exists (Z.rem (m + 1200) 12), letter.
    replace (of_Z m + #1200)%js with (of_Z (m + 1200))
      by (unfold of_Z; rewrite plus_IZR; reflexivity).
    change (#12)%js with (of_Z 12).
    rewrite rem_of_Z by lia. rewrite index_of_Z. auto.
  - exists letter, (m / 12 - 1)%Z. split; [exact Hin |].
    rewrite midiToName_of_Z, Hget. reflexivity.
  - intros f Hf. destruct (freqToMidi_from_50 f Hf) as (m' & E & Hm').
    exists m'. split; [exact E | lia].
Qed.

Lemma C9_note_index_valid_from_minus_1200_witness :
  wellFormedName (midiToName (of_Z (-1200))).
Proof.
  apply (C9_note_index_valid_from_minus_1200 (-1200)). lia.
Defined.

(** C9 as stated fails: the positive frequency [440 / 2^200] is mapped by
    [freqToMidi] to the integer -2331, for which the index is -3; the table
    read is [undefined] and the name is not a note name. *)
Lemma C9_counterexample :
  0 < 440 / 2 ^ 200
  /\ freqToMidi (Fin (440 / 2 ^ 200)) = of_Z (-2331)
  /\ ((of_Z (-2331) + #1200) %% #12)%js = of_Z (-3)
  /\ index NOTE_NAMES (of_Z (-3)) = None
  /\ midiToName (of_Z (-2331)) = "undefined-196".
Proof.
  assert (Hp : 0 < 2 ^ 200) by (apply pow_lt; lra).
  split; [| split; [| split; [| split]]].
  - apply Rdiv_lt_0_compat; lra.
  - rewrite freqToMidi_pos by (apply Rdiv_lt_0_compat; lra).
    replace (440 / 2 ^ 200 / 440) with (/ 2 ^ 200) by (field; lra).
    rewrite log2_inv_pow.
    replace (12 * - INR 200 + 69) with (IZR (-2331)).
    + now rewrite round_IZR.
    + rewrite INR_IZR_INZ. simpl. lra.
  - replace (of_Z (-2331) + #1200)%js with (of_Z (-1131))
      by (unfold of_Z; simpl; f_equal; lra).
    change (#12)%js with (of_Z 12).
    now rewrite rem_of_Z by lia.
  - now rewrite index_of_Z.
  - now rewrite midiToName_of_Z.
Qed.

End NoteIndex.

(** ** The order on [number] *)

Section NumberOrder.

Local Open Scope R_scope.

Ltac order_cases :=
  repeat match goal with
         | a : number |- _ => destruct a
         | s : bool |- _ => destruct s
         end;
  simpl in *; unfold Rltb in *;
  repeat match goal with
         | H : context [Rlt_dec ?x ?y] |- _ => destruct (Rlt_dec x y)
         | |- context [Rlt_dec ?x ?y] => destruct (Rlt_dec x y)
         end;
  try discriminate; try reflexivity; try lra; auto.

Lemma lt_irrefl (a : number) : (a <? a)%js = false.
Proof. order_cases. Qed.

(** If [a < b] and [a < c] fails, then [c] is NaN or [c <= a < b]. *)
Lemma lt_of_not_gt (a b c : number) :
  (a <? b)%js = true -> (a <? c)%js = false -> (c <? b)%js = true \/ c = NaN.
Proof. intros; order_cases. Qed.

Lemma not_gt_trans (a b c : number) :
  (a <? b)%js = true -> (a <? c)%js = false -> (b <? c)%js = false.
Proof. intros; order_cases. Qed.

Lemma lt_above_minus_infinity (a b : number) :
  (a <? b)%js = true -> (b >? Inf true)%js = true.
Proof. unfold gt. intros; order_cases. Qed.

Lemma Math_min_Fin (a b : R) : Math_min (Fin a) (Fin b) = Fin (Rmin a b).
Proof.
  unfold Math_min, lt, Rltb, Rmin.
  destruct (Rlt_dec b a), (Rle_dec a b); try reflexivity; try lra.
Qed.

End NumberOrder.

(** ** The search range *)

Section SearchRange.

Local Open Scope Z_scope.

Lemma lags_of_Z (a b : Z) :
  lags (of_Z a) (of_Z b)
  = map (fun k => a + Z.of_nat k) (seq 0 (Z.to_nat (b - a))).
Proof.
  unfold lags, of_Z. rewrite ZfloorZ.
  unfold Zceil. rewrite <- opp_IZR, ZfloorZ.
  now replace (- - b) with b by lia.
Qed.

Lemma In_lags_of_Z (a b lag : Z) :
  In lag (lags (of_Z a) (of_Z b)) <-> a <= lag < b.
Proof.
  rewrite lags_of_Z, in_map_iff. split.
  - intros (k & <- & Hk). apply in_seq in Hk. lia.
  - intros H. exists (Z.to_nat (lag - a)). split; [lia |].
    apply in_seq. lia.
Qed.

Lemma minLagOf_Fin (r : R) : minLagOf (Fin r) = of_Z (Zfloor (r / 1000)).
Proof. unfold minLagOf. rewrite div_Fin by lra. reflexivity. Qed.

Lemma maxLagOf_Fin (r : R) : maxLagOf (Fin r) = of_Z (Zfloor (r / 70)).
Proof. unfold maxLagOf. rewrite div_Fin by lra. reflexivity. Qed.

Lemma searchLags_Fin (size : nat) (r : R) :
  searchLags size (Fin r)
  = lags (of_Z (Zfloor (r / 1000))) (of_Z (Z.min (Zfloor (r / 70)) (Z.of_nat size))).
Proof.
  unfold searchLags. rewrite minLagOf_Fin, maxLagOf_Fin.
  unfold of_Z at 2, of_nat. rewrite INR_IZR_INZ, Math_min_Fin.
  f_equal. unfold of_Z. f_equal.
  destruct (Z.min_spec (Zfloor (r / 70)) (Z.of_nat size)) as [[H ->] | [H ->]].
  - apply Rmin_left. apply IZR_le. lia.
  - apply Rmin_right. apply IZR_le. lia.
Qed.

Lemma In_searchLags_Fin (size : nat) (r : R) (lag : Z) :
  In lag (searchLags size (Fin r))
  <-> Zfloor (r / 1000) <= lag < Z.min (Zfloor (r / 70)) (Z.of_nat size).
Proof. rewrite searchLags_Fin. apply In_lags_of_Z. Qed.

(** Every lag searched is a valid index of the autocorrelation array. *)
Lemma searchLags_in_bounds (size : nat) (sampleRate : number) (lag : Z) :
  In lag (searchLags size sampleRate) -> 0 <= lag < Z.of_nat size.
Proof.
  destruct sampleRate as [| s | r].
  - intros [].
  - intros [].
  - rewrite In_searchLags_Fin. intros [Hlo Hhi].
    split; [| lia].
    destruct (Rlt_dec r 0) as [Hneg | Hpos].
    + exfalso.
      assert (Zfloor (r / 70) <= Zfloor (r / 1000)) by (apply Zfloor_le; lra).
      lia.
    + assert (0 <= Zfloor (r / 1000)) by (apply Zfloor_lub; simpl; lra).
      lia.
Qed.

End SearchRange.

(** ** The detector on a finite signal *)

Section FiniteSignal.

Local Open Scope R_scope.

Lemma hann_Fin (len i : nat) : len <> 1%nat -> hann len i = Fin (hann_spec len i).
Proof.
  intros Hlen. unfold hann, hann_spec, Math_PI, of_nat.
  rewrite !mul_Fin, sub_Fin.
  rewrite div_Fin.
  - reflexivity.
  - intros E. apply Hlen. apply INR_eq. simpl. lra.
Qed.

Lemma window_from_Fin (len i : nat) (x : list R) :
  len <> 1%nat ->
  window_from len i (map Fin x)
  = map Fin (map (fun p => snd p * hann_spec len (fst p))
               (combine (seq i (List.length x)) x)).
Proof.
  intros Hlen. revert i.
  induction x as [| v x IH]; intros i;
    cbn [map window_from combine seq List.length fst snd].
  - reflexivity.
  - rewrite hann_Fin by assumption. rewrite mul_Fin. f_equal. apply IH.
Qed.

Lemma hannWindow_Fin (x : list R) :
  List.length x <> 1%nat -> hannWindow (map Fin x) = map Fin (windowed_spec x).
Proof.
  intros Hlen. unfold hannWindow, windowed_spec.
  rewrite length_map. now apply window_from_Fin.
Qed.

Lemma length_windowed_spec (x : list R) :
  List.length (windowed_spec x) = List.length x.
Proof.
  unfold windowed_spec. rewrite length_map, length_combine, length_seq.
  apply Nat.min_id.
Qed.

Lemma length_window_from (len i : nat) (buf : list number) :
  List.length (window_from len i buf) = List.length buf.
Proof. revert i. induction buf; intros i; simpl; [reflexivity | now rewrite IHbuf]. Qed.

Lemma nth_error_window_from (len i k : nat) (buf : list number) :
  nth_error (window_from len i buf) k
  = option_map (fun v => (v * hann len (i + k))%js) (nth_error buf k).
Proof.
  revert i k. induction buf as [| v buf IH]; intros i k; simpl.
  - destruct k; reflexivity.
  - destruct k; simpl.
    + now rewrite Nat.add_0_r.
    + rewrite IH. now rewrite Nat.add_succ_r.
Qed.

Lemma nth_error_combine_seq {A : Type} (x : list A) (s i : nat) (v : A) :
  nth_error x i = Some v ->
  nth_error (combine (seq s (List.length x)) x) i = Some ((s + i)%nat, v).
Proof.
  revert s i. induction x as [| w x IH]; intros s i Hv.
  - destruct i; discriminate.
  - destruct i; simpl in *.
    + inversion Hv. now rewrite Nat.add_0_r.
    + rewrite (IH _ _ Hv). now rewrite Nat.add_succ_r.
Qed.

Lemma nth_error_windowed_spec (x : list R) (i : nat) (v : R) :
  nth_error x i = Some v ->
  nth_error (windowed_spec x) i = Some (v * hann_spec (List.length x) i).
Proof.
  intros Hv. unfold windowed_spec.
  rewrite nth_error_map, (nth_error_combine_seq _ 0 _ _ Hv). reflexivity.
Qed.

Lemma sumSquares_spec_nonneg (w : list R) : 0 <= sumSquares_spec w.
Proof.
  induction w as [| v w IH]; simpl; [lra |].
  pose proof (Rle_0_sqr v) as Hv. unfold Rsqr in Hv. lra.
Qed.

Lemma fold_sumSquares_Fin (w : list R) (a : R) :
  fold_left (fun s x => s + x * x)%js (map Fin w) (Fin a)
  = Fin (a + sumSquares_spec w).
Proof.
  revert a. induction w as [| v w IH]; intros a;
    cbn [map fold_left sumSquares_spec fold_right].
  - f_equal. lra.
  - rewrite mul_Fin, add_Fin, IH. f_equal. unfold sumSquares_spec. lra.
Qed.

Lemma rmsOf_Fin (w : list R) : w <> [] -> rmsOf (map Fin w) = Fin (rms_spec w).
Proof.
  intros Hw. unfold rmsOf, rms_spec, of_nat.
  rewrite fold_sumSquares_Fin, length_map.
  assert (Hn : 0 < INR (List.length w)).
  { apply lt_0_INR. destruct w; [contradiction | simpl; lia]. }
  rewrite div_Fin by lra.
  rewrite Rplus_0_l. unfold Math_sqrt.
  rewrite Rltb_false; [reflexivity |].
  apply Rmult_le_pos; [apply sumSquares_spec_nonneg |].
  left. now apply Rinv_0_lt_compat.
Qed.

(** The sum accumulated by a loop over finite terms. *)
Lemma fold_add_Fin {A : Type} (F : A -> number) (f : A -> R) (l : list A) (a : R) :
  (forall i, In i l -> F i = Fin (f i)) ->
  fold_left (fun s i => s + F i)%js l (Fin a)
  = Fin (fold_left (fun s i => s + f i) l a).
Proof.
  revert a. induction l as [| i l IH]; intros a HF; cbn [fold_left].
  - reflexivity.
  - rewrite (HF i) by (left; reflexivity). rewrite add_Fin.
    apply IH. intros j Hj. apply HF. now right.
Qed.

Lemma fold_seq_sum_f_R0 (f : nat -> R) (n : nat) :
  fold_left (fun s i => s + f i) (seq 0 (S n)) 0 = sum_f_R0 f n.
Proof.
  induction n as [| n IH].
  - simpl. lra.
  - rewrite seq_S, fold_left_app, IH. reflexivity.
Qed.

Lemma nth_error_map_Fin (w : list R) (i : nat) :
  (i < List.length w)%nat ->
  toNumber (nth_error (map Fin w) i) = Fin (nth i w 0).
Proof.
  intros Hi. rewrite nth_error_map.
  destruct (nth_error w i) as [v |] eqn:E.
  - simpl. f_equal. symmetry. now apply nth_error_nth.
  - apply nth_error_None in E. lia.
Qed.

Lemma acSum_Fin (w : list R) (lag : nat) :
  (lag < List.length w)%nat ->
  acSum (map Fin w) (List.length w) lag = Fin (autocorrelation_spec w lag).
Proof.
  intros Hlag. unfold acSum, autocorrelation_spec.
  rewrite (fold_add_Fin _ (fun i => nth i w 0 * nth (i + lag) w 0)).
  - f_equal.
    replace (List.length w - lag)%nat with (S (List.length w - 1 - lag)) by lia.
    apply fold_seq_sum_f_R0.
  - intros i Hi. apply in_seq in Hi.
    rewrite !nth_error_map_Fin by lia. reflexivity.
Qed.

Lemma length_autocorrelation (buf : list number) :
  List.length (autocorrelation buf) = List.length buf.
Proof. unfold autocorrelation. now rewrite length_map, length_seq. Qed.

Lemma get_autocorrelation_Fin (w : list R) (lag : Z) :
  (0 <= lag < Z.of_nat (List.length w))%Z ->
  get (autocorrelation (map Fin w)) lag
  = Some (Fin (autocorrelation_spec w (Z.to_nat lag))).
Proof.
  intros Hlag. unfold get.
  destruct (Z.ltb_spec lag 0) as [Hneg | _]; [lia |].
  unfold autocorrelation. rewrite length_map.
  rewrite nth_error_map.
  assert (Hn : (Z.to_nat lag < List.length w)%nat) by lia.
  rewrite (nth_error_nth' _ 0%nat) by (rewrite length_seq; exact Hn).
  rewrite seq_nth by exact Hn. simpl.
  f_equal. now apply acSum_Fin.
Qed.

End FiniteSignal.

(** ** The peak search *)

Section PeakSearch.

Local Open Scope list_scope.
Local Open Scope Z_scope.

Variable ac : list number.

Lemma peakInv_init : peakInv ac [] (-1, Inf true).
Proof. split; [intros lag [] | left; split; reflexivity]. Qed.

Lemma peakInv_step (done : list Z) (st : Z * number) (k : Z) :
  peakInv ac done st -> peakInv ac (done ++ [k]) (peakStep ac st k).
Proof.
  intros [HA HB]. unfold peakStep. fold (valAt ac k).
  destruct (valAt ac k >? snd st)%js eqn:E; unfold gt in E.
  - split; cbn [fst snd].
    + intros lag Hin. apply in_app_or in Hin as [Hin | [<- | []]].
      * unfold gt. eapply not_gt_trans; [exact E | apply HA; exact Hin].
      * apply lt_irrefl.
    + right. split; [reflexivity | split].
      * eapply lt_above_minus_infinity; exact E.
      * exists done, []. split; [reflexivity |].
        intros lag Hin. eapply lt_of_not_gt; [exact E | apply HA; exact Hin].
  - split.
    + intros lag Hin. apply in_app_or in Hin as [Hin | [<- | []]].
      * apply HA; exact Hin.
      * exact E.
    + destruct HB as [HB | (Hv & Hg & pre & post & Hd & Hp)]; [left; exact HB | right].
      split; [exact Hv | split; [exact Hg |]].
      exists pre, (post ++ [k]). split; [| exact Hp].
      rewrite Hd, <- app_assoc. reflexivity.
Qed.

Lemma peakInv_fold (l done : list Z) (st : Z * number) :
  peakInv ac done st -> peakInv ac (done ++ l) (fold_left (peakStep ac) l st).
Proof.
  revert done st. induction l as [| k l IH]; intros done st H; cbn [fold_left].
  - now rewrite app_nil_r.
  - replace (done ++ k :: l) with ((done ++ [k]) ++ l)
      by (rewrite <- app_assoc; reflexivity).
    apply IH, peakInv_step, H.
Qed.

Lemma findPeak_inv (lo hi : number) : peakInv ac (lags lo hi) (findPeak ac lo hi).
Proof. unfold findPeak. apply (peakInv_fold (lags lo hi) []), peakInv_init. Qed.

(** The value kept with the peak is the value at the peak. *)
Lemma findPeak_argmax (sampleRate : number) :
  let range := searchLags (List.length ac) sampleRate in
  let peakLag := peakLagOf ac sampleRate in
  (peakLag = -1
   /\ forall lag, In lag range -> (valAt ac lag >? Inf true)%js = false)
  \/ (exists pre post,
        range = pre ++ peakLag :: post
        /\ (valAt ac peakLag >? Inf true)%js = true
        /\ (forall lag, In lag range -> (valAt ac lag >? valAt ac peakLag)%js = false)
        /\ (forall lag, In lag pre ->
              (valAt ac lag <? valAt ac peakLag)%js = true \/ valAt ac lag = NaN)).
Proof.
  intros range peakLag.
  pose proof (findPeak_inv (minLagOf sampleRate)
                (Math_min (maxLagOf sampleRate) (of_nat (List.length ac)))) as [HA HB].
  fold (searchLags (List.length ac) sampleRate) in HA, HB. fold range in HA, HB.
  unfold peakLagOf in peakLag. fold peakLag in HB.
  destruct HB as [[Hp Hv] | (Hv & Hg & pre & post & Hd & Hpre)].
  - left. split; [exact Hp |]. intros lag Hin. rewrite <- Hv. apply HA; exact Hin.
  - right. exists pre, post. rewrite <- Hv. auto.
Qed.

End PeakSearch.

(** ** The detector as a whole *)

Section Detector.

Local Open Scope list_scope.

Lemma detect_eq (buf : list number) (sampleRate : number) :
  detectPitchAutoCorrelation buf sampleRate
  = (if isSilence buf then None
     else if (peakLagOf (autocorrelation (hannWindow buf)) sampleRate <=? 0)%Z then None
     else if rejected (candidateOf buf sampleRate) then None
     else Some (candidateOf buf sampleRate),
     hannWindow buf).
Proof.
  unfold isSilence, candidateOf, peakLagOf, rmsOf.
  rewrite length_autocorrelation.
  unfold detectPitchAutoCorrelation. cbv zeta.
  destruct (Math_sqrt _ <? #0.008)%js; [reflexivity |].
  fold (minLagOf sampleRate). fold (maxLagOf sampleRate).
  destruct (fst (findPeak _ _ _) <=? 0)%Z; [reflexivity |].
  unfold shiftOf, denomOf, y1Of, y2Of, y3Of, rejected.
  destruct (negb _ || _ || _); reflexivity.
Qed.

Lemma rejected_false_iff (freq : number) :
  rejected freq = false <-> exists x, freq = Fin x /\ (50 <= x <= 1500)%R.
Proof.
  unfold rejected, gt. destruct freq as [| s | x]; simpl.
  - split; [discriminate | intros (x & E & _); discriminate].
  - split; [discriminate | intros (x & E & _); discriminate].
  - unfold Rltb.
    destruct (Rlt_dec x 50), (Rlt_dec 1500 x); simpl; split;
      try discriminate; try (intros (y & E & Hy); inversion E; subst; lra).
    intros _. exists x. split; [reflexivity | lra].
Qed.

Lemma rejected_true_iff (freq : number) :
  rejected freq = true
  <-> freq = NaN \/ (exists s, freq = Inf s)
      \/ exists x, freq = Fin x /\ (x < 50 \/ 1500 < x)%R.
Proof.
  destruct (rejected freq) eqn:E.
  - split; [intros _ | reflexivity].
    destruct freq as [| s | x]; [auto | right; left; eauto |].
    right; right. exists x. split; [reflexivity |].
    destruct (Rlt_dec x 50); [auto |]. destruct (Rlt_dec 1500 x); [auto |].
    assert (H : rejected (Fin x) = false)
      by (apply rejected_false_iff; exists x; split; [reflexivity | lra]).
    congruence.
  - apply rejected_false_iff in E as (x & -> & Hx).
    split; [discriminate |].
    intros [H | [(s & H) | (y & H & Hy)]]; try discriminate.
    inversion H; subst. lra.
Qed.

Lemma result_None_iff (samples : list number) (sampleRate : number) :
  fst (detectPitchAutoCorrelation samples sampleRate) = None
  <-> isSilence samples = true \/ isNoPitch samples sampleRate = true.
Proof.
  rewrite detect_eq. cbn [fst]. unfold isNoPitch.
  destruct (isSilence samples); cbn [negb andb].
  - split; auto.
  - destruct (peakLagOf _ _ <=? 0)%Z; cbn [orb].
    + split; auto.
    + destruct (rejected (candidateOf samples sampleRate)).
      * split; auto.
      * split; [discriminate | intros [H | H]; discriminate].
Qed.

Lemma loop_no_detection (samples : list number) (sampleRate : number) :
  fst (detectPitchAutoCorrelation samples sampleRate) = None ->
  fst (loop samples sampleRate) = Some noDetection.
Proof.
  unfold loop. destruct (detectPitchAutoCorrelation samples sampleRate) as [r b].
  cbn [fst]. intros ->. reflexivity.
Qed.

End Detector.

(** ** Window, energy gate and autocorrelation *)

Section WindowAndGate.

Local Open Scope list_scope.
Local Open Scope R_scope.

Lemma isSilence_Fin (x : list R) :
  (2 <= List.length x)%nat ->
  isSilence (map Fin x) = Rltb (rms_spec (windowed_spec x)) 0.008.
Proof.
  intros Hlen. unfold isSilence.
  rewrite hannWindow_Fin by lia.
  rewrite rmsOf_Fin; [reflexivity |].
  intros E. apply (f_equal (@List.length R)) in E.
  rewrite length_windowed_spec in E. simpl in E. lia.
Qed.

End WindowAndGate.

(** ** Frames of three samples, evaluated *)

Section ThreeSamples.

Local Open Scope list_scope.
Local Open Scope R_scope.

Lemma hann_spec_3_0 : hann_spec 3 0 = 0.
Proof.
  unfold hann_spec. simpl INR.
  replace (2 * PI * 0 / (1 + 1 + 1 - 1)) with 0 by (field; lra).
  rewrite cos_0. lra.
Qed.

Lemma hann_spec_3_1 : hann_spec 3 1 = 1.
Proof.
  unfold hann_spec. simpl INR.
  replace (2 * PI * 1 / (1 + 1 + 1 - 1)) with PI by (field; lra).
  rewrite cos_PI. lra.
Qed.

Lemma hann_spec_3_2 : hann_spec 3 2 = 0.
Proof.
  unfold hann_spec. simpl INR.
  replace (2 * PI * (1 + 1) / (1 + 1 + 1 - 1)) with (2 * PI) by (field; lra).
  rewrite cos_2PI. lra.
Qed.

(** The window vanishes at both ends and is 1 in the middle. *)
Lemma hannWindow_3 (a b c : R) :
  hannWindow [Fin a; Fin b; Fin c] = [Fin 0; Fin b; Fin 0].
Proof.
  change [Fin a; Fin b; Fin c] with (map Fin [a; b; c]).
  rewrite hannWindow_Fin by (simpl; lia).
  unfold windowed_spec. cbn [List.length seq combine map fst snd].
  rewrite hann_spec_3_0, hann_spec_3_1, hann_spec_3_2.
  repeat (f_equal; try lra).
Qed.

Lemma autocorrelation_3 (b : R) :
  autocorrelation [Fin 0; Fin b; Fin 0] = [Fin (b * b); Fin 0; Fin 0].
Proof.
  unfold autocorrelation, acSum. cbn.
  repeat (f_equal; try lra).
Qed.

Lemma sqrt_ge (c x : R) : 0 <= c -> c * c <= x -> c <= sqrt x.
Proof.
  intros Hc Hx. rewrite <- (sqrt_square c) by assumption.
  now apply sqrt_le_1_alt.
Qed.

Lemma isSilence_3 (a b c : R) :
  isSilence [Fin a; Fin b; Fin c] = Rltb (sqrt (b * b / 3)) 0.008.
Proof.
  unfold isSilence. rewrite hannWindow_3.
  change [Fin 0; Fin b; Fin 0] with (map Fin [0; b; 0]).
  rewrite rmsOf_Fin by discriminate.
  unfold rms_spec. cbn [sumSquares_spec fold_right List.length].
  simpl INR.
  replace ((0 * 0 + (b * b + (0 * 0 + 0))) / (1 + 1 + 1)) with (b * b / 3) by lra.
  reflexivity.
Qed.

Lemma isSilence_3_unit (a c : R) : isSilence [Fin a; Fin 1; Fin c] = false.
Proof.
  rewrite isSilence_3. apply Rltb_false.
  apply sqrt_ge; lra.
Qed.

Lemma peakStep_take (ac : list number) (st : Z * number) (k : Z) (v : number) :
  get ac k = Some v -> (snd st <? v)%js = true -> peakStep ac st k = (k, v).
Proof. intros Hg Hlt. unfold peakStep, gt. rewrite Hg. cbn [toNumber nullish]. now rewrite Hlt. Qed.

Lemma peakStep_keep (ac : list number) (st : Z * number) (k : Z) (v : number) :
  get ac k = Some v -> (snd st <? v)%js = false -> peakStep ac st k = st.
Proof. intros Hg Hlt. unfold peakStep, gt. rewrite Hg. cbn [toNumber nullish]. now rewrite Hlt. Qed.

Lemma peakLagOf_unfold (ac : list number) (sampleRate : number) :
  peakLagOf ac sampleRate
  = fst (fold_left (peakStep ac) (searchLags (List.length ac) sampleRate)
           ((-1)%Z, Inf true)).
Proof. reflexivity. Qed.

Lemma searchLags_3_500 : searchLags 3 (Fin 500) = [0; 1; 2]%Z.
Proof.
  rewrite searchLags_Fin.
  rewrite (Zfloor_eq 0) by lra. rewrite (Zfloor_eq 7) by lra.
  rewrite lags_of_Z. reflexivity.
Qed.

Lemma searchLags_3_1320 : searchLags 3 (Fin 1320) = [1; 2]%Z.
Proof.
  rewrite searchLags_Fin.
  rewrite (Zfloor_eq 1) by lra. rewrite (Zfloor_eq 18) by lra.
  rewrite lags_of_Z. reflexivity.
Qed.

Lemma searchLags_3_44100 : searchLags 3 (Fin 44100) = [].
Proof.
  rewrite searchLags_Fin.
  rewrite (Zfloor_eq 44) by lra. rewrite (Zfloor_eq 630) by lra.
  rewrite lags_of_Z. reflexivity.
Qed.

(** At 500 Hz the search starts at lag 0 and stays there. *)
Lemma peakLagOf_3_500 : peakLagOf [Fin (1 * 1); Fin 0; Fin 0] (Fin 500) = 0%Z.
Proof.
  rewrite peakLagOf_unfold. cbn [List.length]. rewrite searchLags_3_500.
  cbn [fold_left].
  rewrite (peakStep_take _ _ 0%Z (Fin (1 * 1))) by reflexivity.
  rewrite (peakStep_keep _ _ 1%Z (Fin 0))
    by first [reflexivity | cbn [snd]; apply Rltb_false; lra].
  rewrite (peakStep_keep _ _ 2%Z (Fin 0))
    by first [reflexivity | cbn [snd]; apply Rltb_false; lra].
  reflexivity.
Qed.

Lemma peakLagOf_3_1320 : peakLagOf [Fin (1 * 1); Fin 0; Fin 0] (Fin 1320) = 1%Z.
Proof.
  rewrite peakLagOf_unfold. cbn [List.length]. rewrite searchLags_3_1320.
  cbn [fold_left].
  rewrite (peakStep_take _ _ 1%Z (Fin 0)) by reflexivity.
  rewrite (peakStep_keep _ _ 2%Z (Fin 0))
    by first [reflexivity | cbn [snd]; apply Rltb_false; lra].
  reflexivity.
Qed.

Lemma peakLagOf_3_44100 (ac : list number) :
  List.length ac = 3%nat -> peakLagOf ac (Fin 44100) = (-1)%Z.
Proof.
  intros H. rewrite peakLagOf_unfold, H, searchLags_3_44100. reflexivity.
Qed.

(** A frame without any sound is silent. *)
Lemma detect_3_silent (sampleRate : number) :
  isSilence [Fin 0; Fin 0; Fin 0] = true
  /\ detectPitchAutoCorrelation [Fin 0; Fin 0; Fin 0] sampleRate
     = (None, [Fin 0; Fin 0; Fin 0]).
Proof.
  assert (E : isSilence [Fin 0; Fin 0; Fin 0] = true).
  { rewrite isSilence_3. apply Rltb_true.
    replace (0 * 0 / 3) with 0 by lra. rewrite sqrt_0. lra. }
  split; [exact E |]. rewrite detect_eq, E, hannWindow_3. reflexivity.
Qed.

(** At 500 Hz a sounding frame is given up because the peak is at lag 0. *)
Lemma detect_3_500 :
  detectPitchAutoCorrelation [Fin 0; Fin 1; Fin 0] (Fin 500)
  = (None, [Fin 0; Fin 1; Fin 0]).
Proof.
  rewrite detect_eq, isSilence_3_unit, hannWindow_3, autocorrelation_3.
  rewrite peakLagOf_3_500. reflexivity.
Qed.

(** At 44100 Hz three samples are too few: the search range is empty. *)
Lemma detect_3_44100 :
  detectPitchAutoCorrelation [Fin 0; Fin 1; Fin 0] (Fin 44100)
  = (None, [Fin 0; Fin 1; Fin 0]).
Proof.
  rewrite detect_eq, isSilence_3_unit, hannWindow_3, autocorrelation_3.
  rewrite peakLagOf_3_44100 by reflexivity. reflexivity.
Qed.

Lemma candidateOf_3_1320 : candidateOf [Fin 0; Fin 1; Fin 0] (Fin 1320) = Fin 880.
Proof.
  unfold candidateOf. rewrite hannWindow_3, autocorrelation_3, peakLagOf_3_1320.
  unfold shiftOf, denomOf.
  change (y1Of [Fin (1 * 1); Fin 0; Fin 0] 1) with (Fin (1 * 1)).
  change (y2Of [Fin (1 * 1); Fin 0; Fin 0] 1) with (Fin 0).
  change (y3Of [Fin (1 * 1); Fin 0; Fin 0] 1) with (Fin 0).
  rewrite !mul_Fin, !sub_Fin, !add_Fin, mul_Fin.
  unfold truthy. rewrite Reqb_false by lra. cbn [negb].
  rewrite div_Fin by lra. unfold of_Z. rewrite add_Fin.
  rewrite div_Fin by lra.
  f_equal.
  replace (1 * 1 - 2 * 0 + 0) with 1 by lra.
  replace (1 + 0.5 * (1 * 1 - 0) / 1) with (3 / 2) by lra.
  lra.
Qed.

(** At 1320 Hz the same frame is detected as 880 Hz. *)
Lemma detect_3_1320 :
  detectPitchAutoCorrelation [Fin 0; Fin 1; Fin 0] (Fin 1320)
  = (Some (Fin 880), [Fin 0; Fin 1; Fin 0]).
Proof.
  rewrite detect_eq, isSilence_3_unit, candidateOf_3_1320.
  rewrite hannWindow_3, autocorrelation_3, peakLagOf_3_1320.
  assert (E : rejected (Fin 880) = false)
    by (apply rejected_false_iff; exists 880; split; [reflexivity | lra]).
  rewrite E. reflexivity.
Qed.

End ThreeSamples.

(** ** Peak picking and refinement *)

Section PeakPicker.

Local Open Scope list_scope.
Local Open Scope Z_scope.

Lemma get_in_bounds {A : Type} (a : list A) (i : Z) :
  0 <= i < Z.of_nat (List.length a) -> exists v, get a i = Some v.
Proof.
  intros Hi. unfold get. destruct (Z.ltb_spec i 0); [lia |].
  destruct (nth_error a (Z.to_nat i)) as [v |] eqn:E; [eauto |].
  apply nth_error_None in E. lia.
Qed.

Lemma get_out_of_bounds {A : Type} (a : list A) (i : Z) :
  0 <= i -> (get a i = None <-> Z.of_nat (List.length a) <= i).
Proof.
  intros Hi. unfold get. destruct (Z.ltb_spec i 0); [lia |].
  rewrite nth_error_None. lia.
Qed.

(** C1 as stated fails: at a sample rate of 500 Hz the frame [0, 1, 0] is
    not silent and its search range is the three lags 0, 1, 2, lag 0 having
    the value 1, above the sentinel; yet the peak is lag 0 and the detector
    returns [null]. *)
Lemma C1_counterexample :
  let buf := [Fin 0; Fin 1; Fin 0] in
  let ac := autocorrelation (hannWindow buf) in
  isSilence buf = false
  /\ searchLags (List.length buf) (Fin 500) = [0; 1; 2]
  /\ (valAt ac 0 >? Inf true)%js = true
  /\ peakLagOf ac (Fin 500) = 0
  /\ fst (detectPitchAutoCorrelation buf (Fin 500)) = None.
Proof.
  cbv zeta. rewrite hannWindow_3, autocorrelation_3.
  split; [apply isSilence_3_unit | split; [apply searchLags_3_500 | split; [reflexivity | split]]].
  - apply peakLagOf_3_500.
  - now rewrite detect_3_500.
Qed.

End PeakPicker.

(** ** The reference matcher *)

Section ReferenceMatcher.

Local Open Scope list_scope.
Local Open Scope R_scope.

Variable f : R.

Lemma abs_diff_distance (e : tuning) :
  isFinite (freq e) = true -> Math_abs (Fin f - freq e)%js = Fin (distance f e).
Proof.
  unfold distance. destruct (freq e) as [| s | x]; try discriminate.
  intros _. reflexivity.
Qed.

Lemma nearestStep_take (best s : tuning) :
  isFinite (freq s) = true ->
  distance f s < distance f best ->
  nearestStep (Fin f) (best, Fin (distance f best)) s = (s, Fin (distance f s)).
Proof.
  intros Hs Hlt. unfold nearestStep. rewrite abs_diff_distance by assumption.
  cbn [snd]. rewrite lt_Fin, Rltb_true by assumption. reflexivity.
Qed.

Lemma nearestStep_keep (best s : tuning) :
  isFinite (freq s) = true ->
  distance f best <= distance f s ->
  nearestStep (Fin f) (best, Fin (distance f best)) s = (best, Fin (distance f best)).
Proof.
  intros Hs Hle. unfold nearestStep. rewrite abs_diff_distance by assumption.
  cbn [snd]. rewrite lt_Fin, Rltb_false by assumption. reflexivity.
Qed.

(** The search keeps the first entry at minimal distance: every entry
    before the one kept is strictly farther, every entry after it is at
    least as far. *)
Lemma nearest_fold (rest pre : list tuning) (best : tuning) (mid : list tuning) :
  finiteTable rest ->
  (forall e, In e pre -> distance f best < distance f e) ->
  (forall e, In e mid -> distance f best <= distance f e) ->
  exists pre' e post',
    pre ++ best :: mid ++ rest = pre' ++ e :: post'
    /\ fst (fold_left (nearestStep (Fin f)) rest (best, Fin (distance f best))) = e
    /\ (forall e', In e' pre' -> distance f e < distance f e')
    /\ (forall e', In e' post' -> distance f e <= distance f e').
Proof.
  intros Hfin. revert pre best mid.
  induction Hfin as [| s rest Hs Hrest IH]; intros pre best mid Hpre Hmid.
  - exists pre, best, mid. rewrite app_nil_r. auto.
  - cbn [fold_left].
    destruct (Rlt_dec (distance f s) (distance f best)) as [Hlt | Hge].
    + rewrite nearestStep_take by assumption.
      destruct (IH (pre ++ best :: mid) s []) as (pre' & e & post' & E & He & H1 & H2).
      * intros e He. apply in_app_or in He as [He | [<- | He]].
        -- specialize (Hpre e He). lra.
        -- exact Hlt.
        -- specialize (Hmid e He). lra.
      * intros e [].
      * exists pre', e, post'. split; [| auto].
        rewrite <- E. rewrite <- app_assoc. reflexivity.
    + rewrite nearestStep_keep by (try assumption; lra).
      destruct (IH pre best (mid ++ [s])) as (pre' & e & post' & E & He & H1 & H2).
      * exact Hpre.
      * intros e He. apply in_app_or in He as [He | [<- | []]].
        -- apply Hmid; exact He.
        -- lra.
      * exists pre', e, post'. split; [| auto].
        rewrite <- E. rewrite <- app_assoc. reflexivity.
Qed.

Lemma nearest_first_minimum (table : list tuning) :
  table <> [] -> finiteTable table ->
  exists pre e post,
    nearest table (Fin f) = Some e
    /\ table = pre ++ e :: post
    /\ (forall e', In e' pre -> distance f e < distance f e')
    /\ (forall e', In e' post -> distance f e <= distance f e').
Proof.
  intros Hne Hfin. destruct table as [| first rest]; [contradiction |].
  inversion Hfin as [| ? ? Hfirst Hrest]; subst.
  unfold nearest. rewrite abs_diff_distance by assumption.
  cbn [fold_left]. rewrite nearestStep_keep by (try assumption; lra).
  destruct (nearest_fold rest [] first [] Hrest) as (pre & e & post & E & He & H1 & H2).
  - intros e [].
  - intros e [].
  - exists pre, e, post. rewrite He. auto.
Qed.

End ReferenceMatcher.

Section GuitarTable.

Local Open Scope list_scope.
Local Open Scope R_scope.

Ltac decide_distance :=
  first [ reflexivity
        | unfold distance; cbn [freq]; unfold Rabs;
          repeat match goal with
                 | |- context [Rcase_abs ?x] => destruct (Rcase_abs x)
                 end; lra ].

Lemma nearest_GUITAR_STD_82 :
  nearest GUITAR_STD (Fin 82.0) = Some (mkTuning "E2" 40 (Fin 82.4069)).
Proof.
  unfold nearest, GUITAR_STD.
  rewrite (abs_diff_distance 82.0) by reflexivity.
  cbn [fold_left].
  do 6 (rewrite nearestStep_keep by decide_distance).
  reflexivity.
Qed.

Lemma nearest_GUITAR_STD_880 :
  nearest GUITAR_STD (Fin 880) = Some (mkTuning "E4" 64 (Fin 329.628)).
Proof.
  unfold nearest, GUITAR_STD.
  rewrite (abs_diff_distance 880) by reflexivity.
  cbn [fold_left].
  rewrite nearestStep_keep by decide_distance.
  do 5 (rewrite nearestStep_take by decide_distance).
  reflexivity.
Qed.

(** Two entries at the same distance: the one listed first is returned. *)
Lemma nearest_tie_first :
  option_map name
    (nearest [mkTuning "low" 43 (Fin 100); mkTuning "high" 47 (Fin 120)] (Fin 110))
  = Some "low"
  /\ option_map name
       (nearest [mkTuning "high" 47 (Fin 120); mkTuning "low" 43 (Fin 100)] (Fin 110))
     = Some "high".
Proof.
  split; unfold nearest;
    rewrite (abs_diff_distance 110) by reflexivity;
    cbn [fold_left];
    do 2 (rewrite nearestStep_keep by decide_distance);
    reflexivity.
Qed.

(** C8: for a frequency [f] and a non-empty table of reference frequencies
    the matcher returns an entry of the table at minimal distance
    [|f - entry.frequency|], and among the entries at that distance the first
    in table order (of two entries 10 Hz away on either side, whichever is
    listed first); on the guitar table 82.0 Hz matches E2. *)
Theorem C8_nearest_reference_first_minimum (table : list tuning) (f : R) :
  table <> [] -> finiteTable table ->
  (exists pre e post,
      nearest table (Fin f) = Some e
      /\ table = pre ++ e :: post
      /\ (forall e', In e' table -> distance f e <= distance f e')
      /\ (forall e', In e' pre -> distance f e < distance f e'))
  /\ (option_map name
        (nearest [mkTuning "low" 43 (Fin 100); mkTuning "high" 47 (Fin 120)] (Fin 110))
      = Some "low"
      /\ option_map name
           (nearest [mkTuning "high" 47 (Fin 120); mkTuning "low" 43 (Fin 100)] (Fin 110))
         = Some "high")
  /\ option_map name (nearest GUITAR_STD (Fin 82.0)) = Some "E2".
Proof.
  intros Hne Hfin. split; [| split; [exact nearest_tie_first |]].
  - destruct (nearest_first_minimum f table Hne Hfin)
      as (pre & e & post & E & Ht & H1 & H2).
    exists pre, e, post. split; [exact E | split; [exact Ht | split; [| exact H1]]].
    intros e' He'. rewrite Ht in He'.
    apply in_app_or in He' as [He' | [<- | He']].
    + specialize (H1 e' He'). lra.
    + lra.
    + apply H2; exact He'.
  - rewrite nearest_GUITAR_STD_82. reflexivity.
Qed.

Lemma C8_nearest_reference_first_minimum_witness :
  exists pre e post,
    nearest GUITAR_STD (Fin 200) = Some e
    /\ GUITAR_STD = pre ++ e :: post
    /\ (forall e', In e' GUITAR_STD -> distance 200 e <= distance 200 e')
    /\ (forall e', In e' pre -> distance 200 e < distance 200 e').
Proof.
  apply (C8_nearest_reference_first_minimum GUITAR_STD 200).
  - discriminate.
  - repeat constructor.
Defined.

End GuitarTable.

(** ** One tick of the render loop *)

Section Tick.

Local Open Scope list_scope.
Local Open Scope R_scope.

Lemma nearest_GUITAR_STD_some (f : number) : exists best, nearest GUITAR_STD f = Some best.
Proof. unfold nearest, GUITAR_STD. eauto. Qed.

Lemma loop_detection (samples : list number) (sampleRate : number) (f : number) :
  fst (detectPitchAutoCorrelation samples sampleRate) = Some f ->
  exists x best,
    f = Fin x /\ 50 <= x <= 1500
    /\ nearest GUITAR_STD f = Some best
    /\ fst (loop samples sampleRate)
       = Some (mkDisplay (Some f) (Some (freqToMidi f)) (midiToName (freqToMidi f))
                 (centsOff f (freqToMidi f)) (name best)).
Proof.
  intros Hr.
  assert (Hf : exists x, f = Fin x /\ 50 <= x <= 1500).
  { apply rejected_false_iff.
    rewrite detect_eq in Hr. cbn [fst] in Hr.
    destruct (isSilence samples); [discriminate |].
    destruct (peakLagOf _ _ <=? 0)%Z; [discriminate |].
    destruct (rejected (candidateOf samples sampleRate)) eqn:E; [discriminate |].
    inversion Hr; subst. exact E. }
  destruct Hf as (x & -> & Hx).
  destruct (nearest_GUITAR_STD_some (Fin x)) as [best Hb].
  exists x, best. split; [reflexivity | split; [exact Hx | split; [exact Hb |]]].
  unfold loop. destruct (detectPitchAutoCorrelation samples sampleRate) as [r b].
  cbn [fst] in Hr. subst r.
  unfold truthy. rewrite Reqb_false by lra. cbn [negb fst].
  unfold detection. rewrite Hb. reflexivity.
Qed.

Lemma log2_2 : log2 2 = 1.
Proof. unfold log2. field. pose proof ln_2_pos; lra. Qed.

Lemma freqToMidi_880 : freqToMidi (Fin 880) = of_Z 81.
Proof.
  rewrite freqToMidi_pos by lra.
  replace (880 / 440) with 2 by lra. rewrite log2_2.
  replace (12 * 1 + 69) with (IZR 81) by lra. now rewrite round_IZR.
Qed.

Lemma centsOff_880_81 : centsOff (Fin 880) (of_Z 81) = of_Z 0.
Proof.
  rewrite centsOff_pos by lra.
  replace ((IZR 81 - 69) / 12) with 1 by lra.
  rewrite Rpower_1 by lra.
  replace (880 / (440 * 2)) with 1 by lra.
  rewrite log2_1, Rmult_0_r, round_0. reflexivity.
Qed.

(** C6, as amended: the result of a tick distinguishes two cases.  The
    detector returns [null] exactly when the frame is silent or has no
    pitch, and the display is then set to one and the same state (no
    frequency, no MIDI number, empty note, offset 0, nearest string "—")
    in both cases; otherwise it returns a finite frequency in [50, 1500]
    and the display shows that frequency, its MIDI number, note name and
    cents offset, and the nearest guitar string. *)
Theorem C6_tick_result_two_cases (samples : list number) (sampleRate : number) :
  let result := fst (detectPitchAutoCorrelation samples sampleRate) in
  let shown := fst (loop samples sampleRate) in
  (result = None <-> isSilence samples = true \/ isNoPitch samples sampleRate = true)
  /\ (result = None -> shown = Some noDetection)
  /\ (forall f, result = Some f ->
        exists x best,
          f = Fin x /\ 50 <= x <= 1500
          /\ nearest GUITAR_STD f = Some best
          /\ shown = Some (mkDisplay (Some f) (Some (freqToMidi f))
                             (midiToName (freqToMidi f))
                             (centsOff f (freqToMidi f)) (name best))).
Proof.
  intros result shown. split; [| split].
  - apply result_None_iff.
  - apply loop_no_detection.
  - intros f. apply loop_detection.
Qed.

Lemma C6_tick_result_two_cases_witness :
  fst (loop [Fin 0; Fin 1; Fin 0] (Fin 1320))
  = Some (mkDisplay (Some (Fin 880)) (Some (of_Z 81)) "A5" (of_Z 0) "E4")
  /\ fst (loop [Fin 0; Fin 0; Fin 0] (Fin 1320)) = Some noDetection.
Proof.
  destruct (C6_tick_result_two_cases [Fin 0; Fin 1; Fin 0] (Fin 1320)) as (_ & _ & H).
  destruct (C6_tick_result_two_cases [Fin 0; Fin 0; Fin 0] (Fin 1320)) as (_ & H0 & _).
  split.
  - destruct (H (Fin 880)) as (x & best & _ & _ & Hb & Hs).
    + now rewrite detect_3_1320.
    + rewrite Hs. rewrite nearest_GUITAR_STD_880 in Hb. inversion Hb; subst best.
      rewrite freqToMidi_880, centsOff_880_81, midiToName_of_Z. reflexivity.
  - apply H0. now rewrite (proj2 (detect_3_silent (Fin 1320))).
Defined.

(** C6 as stated fails: at 44100 Hz the frame [0, 0, 0] is silent and the
    frame [0, 1, 0] is not silent but has no pitch, and both give the same
    result of the detector and the same display state. *)
Lemma C6_counterexample :
  isSilence [Fin 0; Fin 0; Fin 0] = true
  /\ isSilence [Fin 0; Fin 1; Fin 0] = false
  /\ isNoPitch [Fin 0; Fin 1; Fin 0] (Fin 44100) = true
  /\ fst (detectPitchAutoCorrelation [Fin 0; Fin 0; Fin 0] (Fin 44100))
     = fst (detectPitchAutoCorrelation [Fin 0; Fin 1; Fin 0] (Fin 44100))
  /\ fst (loop [Fin 0; Fin 0; Fin 0] (Fin 44100))
     = fst (loop [Fin 0; Fin 1; Fin 0] (Fin 44100)).
Proof.
  assert (E0 : fst (detectPitchAutoCorrelation [Fin 0; Fin 0; Fin 0] (Fin 44100)) = None)
    by (now rewrite (proj2 (detect_3_silent (Fin 44100)))).
  assert (E1 : fst (detectPitchAutoCorrelation [Fin 0; Fin 1; Fin 0] (Fin 44100)) = None)
    by (now rewrite detect_3_44100).
  split; [apply detect_3_silent; exact (Fin 0) | split; [apply isSilence_3_unit | split; [| split]]].
  - unfold isNoPitch. rewrite isSilence_3_unit, hannWindow_3, autocorrelation_3.
    rewrite peakLagOf_3_44100 by reflexivity. reflexivity.
  - now rewrite E0, E1.
  - now rewrite (loop_no_detection _ _ E0), (loop_no_detection _ _ E1).
Qed.

End Tick.

(** ** The buffer after the call *)

Section BufferEffect.

Local Open Scope list_scope.
Local Open Scope R_scope.

Lemma sqrt_lt (c x : R) : 0 < c -> 0 <= x -> x < c * c -> sqrt x < c.
Proof.
  intros Hc Hx Hlt. replace c with (sqrt (c * c)) by (apply sqrt_square; lra).
  apply sqrt_lt_1_alt. lra.
Qed.

(** Three samples of value 1 are left as [0, 1, 0] by a call that finds no
    pitch. *)
Lemma buffer_changed_without_pitch :
  isNoPitch [Fin 1; Fin 1; Fin 1] (Fin 44100) = true
  /\ detectPitchAutoCorrelation [Fin 1; Fin 1; Fin 1] (Fin 44100)
     = (None, [Fin 0; Fin 1; Fin 0]).
Proof.
  split.
  - unfold isNoPitch. rewrite isSilence_3_unit, hannWindow_3, autocorrelation_3.
    rewrite peakLagOf_3_44100 by reflexivity. reflexivity.
  - rewrite detect_eq, isSilence_3_unit, hannWindow_3, autocorrelation_3.
    rewrite peakLagOf_3_44100 by reflexivity. reflexivity.
Qed.

(** Three samples of value 0.001 are left as [0, 0.001, 0] by a call that
    finds silence. *)
Lemma buffer_changed_in_silence :
  isSilence [Fin 0.001; Fin 0.001; Fin 0.001] = true
  /\ detectPitchAutoCorrelation [Fin 0.001; Fin 0.001; Fin 0.001] (Fin 44100)
     = (None, [Fin 0; Fin 0.001; Fin 0]).
Proof.
  assert (E : isSilence [Fin 0.001; Fin 0.001; Fin 0.001] = true).
  { rewrite isSilence_3. apply Rltb_true. apply sqrt_lt; lra. }
  split; [exact E |]. rewrite detect_eq, E, hannWindow_3. reflexivity.
Qed.

(** C10: the call overwrites the caller's buffer: whatever the result, the
    buffer holds afterwards, at every index [i], the sample that was there
    multiplied by its Hann coefficient, and has the same length; the raw
    samples are lost also when the result is [null], for a frame without
    pitch as for a silent one. *)
Theorem C10_buffer_overwritten_in_place (buf : list number) (sampleRate : number) :
  let after := snd (detectPitchAutoCorrelation buf sampleRate) in
  after = hannWindow buf
  /\ List.length after = List.length buf
  /\ (forall i : nat,
        nth_error after i
        = option_map (fun v => (v * hann (List.length buf) i)%js) (nth_error buf i))
  /\ (isNoPitch [Fin 1; Fin 1; Fin 1] (Fin 44100) = true
      /\ detectPitchAutoCorrelation [Fin 1; Fin 1; Fin 1] (Fin 44100)
         = (None, [Fin 0; Fin 1; Fin 0]))
  /\ (isSilence [Fin 0.001; Fin 0.001; Fin 0.001] = true
      /\ detectPitchAutoCorrelation [Fin 0.001; Fin 0.001; Fin 0.001] (Fin 44100)
         = (None, [Fin 0; Fin 0.001; Fin 0])).
Proof.
  rewrite detect_eq. cbn [snd]. split; [reflexivity | split; [| split; [| split]]].
  - apply length_window_from.
  - intros i. unfold hannWindow. now rewrite nth_error_window_from.
  - exact buffer_changed_without_pitch.
  - exact buffer_changed_in_silence.
Qed.

End BufferEffect.

(** ** The final test *)

Section SanityBound.

Local Open Scope list_scope.
Local Open Scope R_scope.

(** A frame of five samples whose refined lag is zero. *)
Lemma hann_spec_5 :
  hann_spec 5 0 = 0 /\ hann_spec 5 1 = 0.5 /\ hann_spec 5 2 = 1
  /\ hann_spec 5 3 = 0.5 /\ hann_spec 5 4 = 0.
Proof.
  unfold hann_spec. simpl INR. repeat split.
  - replace (2 * PI * 0 / (1 + 1 + 1 + 1 + 1 - 1)) with 0 by (field; lra).
    rewrite cos_0. lra.
  - replace (2 * PI * 1 / (1 + 1 + 1 + 1 + 1 - 1)) with (PI / 2) by (field; lra).
    rewrite cos_PI2. lra.
  - replace (2 * PI * (1 + 1) / (1 + 1 + 1 + 1 + 1 - 1)) with PI by (field; lra).
    rewrite cos_PI. lra.
  - replace (2 * PI * (1 + 1 + 1) / (1 + 1 + 1 + 1 + 1 - 1)) with (3 * (PI / 2)) by (field; lra).
    rewrite cos_3PI2. lra.
  - replace (2 * PI * (1 + 1 + 1 + 1) / (1 + 1 + 1 + 1 + 1 - 1)) with (2 * PI) by (field; lra).
    rewrite cos_2PI. lra.
Qed.

Lemma hannWindow_5 (a b c d e : R) :
  hannWindow [Fin a; Fin b; Fin c; Fin d; Fin e]
  = [Fin 0; Fin (b * 0.5); Fin c; Fin (d * 0.5); Fin 0].
Proof.
  change [Fin a; Fin b; Fin c; Fin d; Fin e] with (map Fin [a; b; c; d; e]).
  rewrite hannWindow_Fin by (simpl; lia).
  unfold windowed_spec. cbn [List.length seq combine map fst snd].
  destruct hann_spec_5 as (-> & -> & -> & -> & ->).
  repeat (f_equal; try lra).
Qed.

Lemma autocorrelation_5 :
  autocorrelation [Fin 0; Fin (1 * 0.5); Fin 0.4; Fin (1 * 0.5); Fin 0]
  = [Fin 0.66; Fin 0.4; Fin 0.25; Fin 0; Fin 0].
Proof.
  unfold autocorrelation, acSum. cbn.
  repeat (f_equal; try lra).
Qed.

Lemma searchLags_5_2000 : searchLags 5 (Fin 2000) = [2; 3; 4]%Z.
Proof.
  rewrite searchLags_Fin.
  rewrite (Zfloor_eq 2) by lra. rewrite (Zfloor_eq 28) by lra.
  rewrite lags_of_Z. reflexivity.
Qed.

Lemma peakLagOf_5_2000 :
  peakLagOf [Fin 0.66; Fin 0.4; Fin 0.25; Fin 0; Fin 0] (Fin 2000) = 2%Z.
Proof.
  rewrite peakLagOf_unfold. cbn [List.length]. rewrite searchLags_5_2000.
  cbn [fold_left].
  rewrite (peakStep_take _ _ 2%Z (Fin 0.25)) by reflexivity.
  rewrite (peakStep_keep _ _ 3%Z (Fin 0))
    by first [reflexivity | cbn [snd]; apply Rltb_false; lra].
  rewrite (peakStep_keep _ _ 4%Z (Fin 0))
    by first [reflexivity | cbn [snd]; apply Rltb_false; lra].
  reflexivity.
Qed.

Lemma candidateOf_5_2000 :
  candidateOf [Fin 0; Fin 1; Fin 0.4; Fin 1; Fin 0] (Fin 2000) = Inf false.
Proof.
  unfold candidateOf. rewrite hannWindow_5, autocorrelation_5, peakLagOf_5_2000.
  unfold shiftOf, denomOf.
  change (y1Of [Fin 0.66; Fin 0.4; Fin 0.25; Fin 0; Fin 0] 2) with (Fin 0.4).
  change (y2Of [Fin 0.66; Fin 0.4; Fin 0.25; Fin 0; Fin 0] 2) with (Fin 0.25).
  change (y3Of [Fin 0.66; Fin 0.4; Fin 0.25; Fin 0; Fin 0] 2) with (Fin 0).
  rewrite !mul_Fin, !sub_Fin, !add_Fin, mul_Fin.
  replace (0.4 - 2 * 0.25 + 0) with (- 0.1) by lra.
  unfold truthy. rewrite Reqb_false by lra. cbn [negb].
  rewrite div_Fin by lra. unfold of_Z. rewrite add_Fin.
  replace (2 + 0.5 * (0.4 - 0) / - 0.1) with 0 by lra.
  unfold div. rewrite Reqb_true by reflexivity. rewrite Reqb_false by lra.
  unfold sgn. rewrite Rltb_false by lra. reflexivity.
Qed.

Lemma isSilence_5 : isSilence [Fin 0; Fin 1; Fin 0.4; Fin 1; Fin 0] = false.
Proof.
  unfold isSilence. rewrite hannWindow_5.
  change [Fin 0; Fin (1 * 0.5); Fin 0.4; Fin (1 * 0.5); Fin 0]
    with (map Fin [0; 1 * 0.5; 0.4; 1 * 0.5; 0]).
  rewrite rmsOf_Fin by discriminate.
  rewrite lt_Fin. apply Rltb_false.
  unfold rms_spec. cbn [sumSquares_spec fold_right List.length]. simpl INR.
  apply sqrt_ge; lra.
Qed.

Lemma detect_5_2000 :
  detectPitchAutoCorrelation [Fin 0; Fin 1; Fin 0.4; Fin 1; Fin 0] (Fin 2000)
  = (None, [Fin 0; Fin (1 * 0.5); Fin 0.4; Fin (1 * 0.5); Fin 0]).
Proof.
  rewrite detect_eq, isSilence_5, candidateOf_5_2000.
  rewrite hannWindow_5, autocorrelation_5, peakLagOf_5_2000.
  reflexivity.
Qed.

(** C3: the result of the detector is [null] or a finite frequency in
    [50, 1500]; a candidate that is NaN, infinite, below 50 or above 1500 is
    exactly what the final test rejects, and a rejected candidate is never
    returned; so for the frame [0, 1, 0.4, 1, 0] at 2000 Hz, whose refined
    lag is 0 and whose estimate is infinite, the result is [null]. *)
Theorem C3_result_is_null_or_finite_in_bounds (buf : list number) (sampleRate : number) :
  match fst (detectPitchAutoCorrelation buf sampleRate) with
  | None => True
  | Some f => exists x, f = Fin x /\ 50 <= x <= 1500
  end
  /\ (rejected (candidateOf buf sampleRate) = true
      <-> candidateOf buf sampleRate = NaN
          \/ (exists s, candidateOf buf sampleRate = Inf s)
          \/ exists x, candidateOf buf sampleRate = Fin x /\ (x < 50 \/ 1500 < x))
  /\ fst (detectPitchAutoCorrelation buf sampleRate)
     = (if isSilence buf then None
        else if (peakLagOf (autocorrelation (hannWindow buf)) sampleRate <=? 0)%Z then None
        else if rejected (candidateOf buf sampleRate) then None
        else Some (candidateOf buf sampleRate))
  /\ (candidateOf [Fin 0; Fin 1; Fin 0.4; Fin 1; Fin 0] (Fin 2000) = Inf false
      /\ fst (detectPitchAutoCorrelation [Fin 0; Fin 1; Fin 0.4; Fin 1; Fin 0] (Fin 2000))
         = None).
Proof.
  rewrite detect_eq. cbn [fst]. split; [| split; [| split]].
  - destruct (isSilence buf); [exact I |].
    destruct (peakLagOf _ _ <=? 0)%Z; [exact I |].
    destruct (rejected (candidateOf buf sampleRate)) eqn:E; [exact I |].
    now apply rejected_false_iff.
  - apply rejected_true_iff.
  - reflexivity.
  - split; [apply candidateOf_5_2000 | now rewrite detect_5_2000].
Qed.

End SanityBound.

(** * Further properties *)

(** ** Laws of the note mapper *)

Section NoteMapperLaws.

Local Open Scope R_scope.

Lemma log2_Rpower (y : R) : log2 (Rpower 2 y) = y.
Proof. unfold log2. rewrite ln_Rpower. field. pose proof ln_2_pos; lra. Qed.

Lemma log2_mult (x y : R) : 0 < x -> 0 < y -> log2 (x * y) = log2 x + log2 y.
Proof.
  intros Hx Hy. unfold log2. rewrite ln_mult by assumption.
  field. pose proof ln_2_pos; lra.
Qed.

Lemma round_le (x y : R) : x <= y -> (round x <= round y)%Z.
Proof. intros H. unfold round. apply Zfloor_le. lra. Qed.

(** The exact position of a frequency on the MIDI scale. *)
Lemma midi_position (f : R) (m : Z) :
  0 < f ->
  log2 (f / (440 * Rpower 2 ((IZR m - 69) / 12)))
  = (12 * log2 (f / 440) + 69 - IZR m) / 12.
Proof.
  intros Hf.
  pose proof (Rpower_2_pos ((IZR m - 69) / 12)) as Hp.
  replace (f / (440 * Rpower 2 ((IZR m - 69) / 12)))
    with (f / 440 * / Rpower 2 ((IZR m - 69) / 12)) by (field; lra).
  rewrite log2_mult by (try apply Rinv_0_lt_compat; lra).
  rewrite <- Rpower_Ropp, log2_Rpower. lra.
Qed.

Lemma cents_bounds (f : R) :
  0 < f ->
  exists c : Z,
    centsOff (Fin f) (freqToMidi (Fin f)) = of_Z c /\ (-50 <= c <= 50)%Z.
Proof.
  intros Hf. rewrite freqToMidi_pos by assumption.
  rewrite centsOff_pos by assumption.
  eexists. split; [reflexivity |].
  rewrite midi_position by assumption.
  set (x := 12 * log2 (f / 440) + 69).
  pose proof (round_bound x) as [Hlo Hhi].
  set (m := IZR (round x)) in *.
  pose proof (round_bound (1200 * ((x - m) / 12))) as [Clo Chi].
  set (c := round (1200 * ((x - m) / 12))) in *.
  assert (H1 : IZR (-51) < IZR c) by lra.
  assert (H2 : IZR c < IZR 51) by lra.
  apply lt_IZR in H1. apply lt_IZR in H2. lia.
Qed.

(** X4: no two frequencies are ordered the wrong way by their MIDI numbers:
    for finite [f <= g] the comparison [freqToMidi g < freqToMidi f] is
    false, whether the numbers returned are integers, [-Infinity] or NaN. *)
Theorem X4_freqToMidi_monotone (f g : R) :
  f <= g -> (freqToMidi (Fin g) <? freqToMidi (Fin f))%js = false.
Proof.
  intros Hfg.
  assert (H12 : Reqb 12 0 = false) by (apply Reqb_false; lra).
  assert (S12 : Rltb 12 0 = false) by (apply Rltb_false; lra).
  assert (Hzero : freqToMidi (Fin 0) = Inf true).
  { unfold freqToMidi, A4, A4_MIDI. rewrite div_Fin by lra.
    replace (0 / 440) with 0 by lra.
    unfold JS.Math_log2. rewrite Rltb_false by lra. rewrite Reqb_true by reflexivity.
    unfold mul, sgn. rewrite H12, S12. reflexivity. }
  assert (Hneg : forall x, x < 0 -> freqToMidi (Fin x) = NaN).
  { intros x Hx. unfold freqToMidi, A4, A4_MIDI. rewrite div_Fin by lra.
    unfold JS.Math_log2. rewrite Rltb_true by lra. reflexivity. }
  destruct (Rlt_dec f 0) as [Hf | Hf].
  - rewrite (Hneg f Hf). destruct (freqToMidi (Fin g)) as [| [|] |]; reflexivity.
  - destruct (Req_dec f 0) as [-> | Hf0].
    + rewrite Hzero. destruct (freqToMidi (Fin g)) as [| [|] |]; reflexivity.
    + rewrite !freqToMidi_pos by lra. unfold of_Z. rewrite lt_Fin.
      apply Rltb_false. apply IZR_le. apply round_le.
      assert (log2 (f / 440) <= log2 (g / 440)) by (apply log2_le; lra).
      lra.
Qed.

Lemma X4_freqToMidi_monotone_witness :
  (freqToMidi (Fin 200) <? freqToMidi (Fin 100))%js = false.
Proof. apply (X4_freqToMidi_monotone 100 200). lra. Defined.

End NoteMapperLaws.

(** ** Shape of the window and frames that are never analysed *)

Section WindowLaws.

Local Open Scope list_scope.
Local Open Scope R_scope.

Lemma hann_spec_bounds (N i : nat) : 0 <= hann_spec N i <= 1.
Proof.
  unfold hann_spec.
  pose proof (COS_bound (2 * PI * INR i / (INR N - 1))). lra.
Qed.

Lemma hann_spec_first (N : nat) : hann_spec N 0 = 0.
Proof.
  unfold hann_spec. simpl INR.
  replace (2 * PI * 0 / (INR N - 1)) with 0 by (unfold Rdiv; ring).
  rewrite cos_0. lra.
Qed.

Lemma hann_spec_symmetric (N i : nat) :
  (2 <= N)%nat -> (i < N)%nat -> hann_spec N (N - 1 - i) = hann_spec N i.
Proof.
  intros HN Hi. unfold hann_spec.
  assert (HNR : 2 <= INR N) by (apply (le_INR 2); exact HN).
  rewrite !minus_INR by lia. simpl INR.
  replace (2 * PI * (INR N - 1 - INR i) / (INR N - 1))
    with (- (2 * PI * INR i / (INR N - 1)) + 2 * INR 1 * PI)
    by (simpl INR; field; lra).
  now rewrite cos_period, cos_neg.
Qed.

Lemma hann_spec_last (N : nat) : (2 <= N)%nat -> hann_spec N (N - 1) = 0.
Proof.
  intros HN. replace (N - 1)%nat with (N - 1 - 0)%nat by lia.
  rewrite hann_spec_symmetric by lia. apply hann_spec_first.
Qed.

Lemma Rabs_scaled (v h : R) : 0 <= h <= 1 -> Rabs (v * h) <= Rabs v.
Proof.
  intros Hh. rewrite Rabs_mult, (Rabs_pos_eq h) by lra.
  pose proof (Rabs_pos v). nra.
Qed.

(** X6: the Hann coefficients lie in [0, 1], are symmetric about the middle
    of the window and vanish at both ends; so for a finite window of at
    least two samples the call leaves at every index a finite sample no
    larger in magnitude than the one it replaces, and leaves 0 at the first
    and at the last index. *)
Theorem X6_hann_window_shape (x : list R) (sampleRate : number) :
  (2 <= List.length x)%nat ->
  let N := List.length x in
  (forall i, (i < N)%nat ->
     0 <= hann_spec N i <= 1 /\ hann_spec N (N - 1 - i) = hann_spec N i)
  /\ hann_spec N 0 = 0
  /\ hann_spec N (N - 1) = 0
  /\ (forall i v, nth_error x i = Some v ->
        exists w,
          nth_error (snd (detectPitchAutoCorrelation (map Fin x) sampleRate)) i
          = Some (Fin w)
          /\ Rabs w <= Rabs v
          /\ (i = 0%nat \/ i = (N - 1)%nat -> w = 0)).
Proof.
  intros HN N. split; [| split; [| split]].
  - intros i Hi. split; [apply hann_spec_bounds | now apply hann_spec_symmetric].
  - apply hann_spec_first.
  - now apply hann_spec_last.
  - intros i v Hv. rewrite detect_eq. cbn [snd].
    rewrite hannWindow_Fin by lia. rewrite nth_error_map.
    rewrite (nth_error_windowed_spec _ _ _ Hv). cbn [option_map].
    eexists. split; [reflexivity | split].
    + apply Rabs_scaled, hann_spec_bounds.
    + intros [-> | ->].
      * rewrite hann_spec_first. lra.
      * fold N. rewrite hann_spec_last by exact HN. lra.
Qed.

Lemma X6_hann_window_shape_witness :
  hann_spec 3 0 = 0 /\ hann_spec 3 (3 - 1) = 0.
Proof.
  destruct (X6_hann_window_shape [1; 1; 1] (Fin 44100)) as (_ & H0 & H2 & _).
  - simpl. lia.
  - split; [exact H0 | exact H2].
Defined.

Lemma windowed_bounded_from (len s : nat) (a : R) (x : list R) :
  Forall (fun v => Rabs v <= a) x ->
  Forall (fun w => Rabs w <= a)
    (map (fun p => snd p * hann_spec len (fst p)) (combine (seq s (List.length x)) x)).
Proof.
  intros Hx. revert s. induction Hx as [| v x Hv Hx IH]; intros s.
  - constructor.
  - cbn [List.length seq combine map fst snd]. constructor.
    + pose proof (Rabs_scaled v (hann_spec len s) (hann_spec_bounds len s)). lra.
    + apply IH.
Qed.

Lemma sumSquares_bounded (a : R) (w : list R) :
  Forall (fun v => Rabs v <= a) w ->
  sumSquares_spec w <= INR (List.length w) * (a * a).
Proof.
  induction 1 as [| v w Hv Hw IH].
  - simpl. lra.
  - cbn [sumSquares_spec fold_right]. fold (sumSquares_spec w).
    change (List.length (v :: w)) with (S (List.length w)). rewrite S_INR.
    assert (v * v <= a * a).
    { unfold Rabs in Hv. destruct (Rcase_abs v); nra. }
    lra.
Qed.

(** X7: a finite frame of at least two samples, all of magnitude below the
    silence threshold 0.008, is classified as silence: the detector returns
    [null] for every sample rate. *)
Theorem X7_quiet_frame_is_silent (x : list R) (a : R) (sampleRate : number) :
  (2 <= List.length x)%nat ->
  Forall (fun v => Rabs v <= a) x ->
  a < 0.008 ->
  isSilence (map Fin x) = true
  /\ fst (detectPitchAutoCorrelation (map Fin x) sampleRate) = None.
Proof.
  intros HN Hx Ha.
  assert (E : isSilence (map Fin x) = true).
  { rewrite isSilence_Fin by exact HN. apply Rltb_true.
    assert (Hw : Forall (fun w => Rabs w <= a) (windowed_spec x))
      by (apply windowed_bounded_from; exact Hx).
    pose proof (sumSquares_bounded a _ Hw) as Hs.
    pose proof (sumSquares_spec_nonneg (windowed_spec x)) as H0.
    rewrite length_windowed_spec in Hs.
    assert (HNR : 0 < INR (List.length x)) by (apply lt_0_INR; lia).
    assert (Ha0 : 0 <= a).
    { destruct x as [| v x']; [simpl in HN; lia |].
      inversion Hx; subst. pose proof (Rabs_pos v). lra. }
    unfold rms_spec. rewrite length_windowed_spec.
    apply sqrt_lt; [lra | |].
    - apply Rmult_le_pos; [exact H0 | left; now apply Rinv_0_lt_compat].
    - apply Rle_lt_trans with (a * a); [| nra].
      apply Rmult_le_reg_r with (INR (List.length x)); [exact HNR |].
      unfold Rdiv. rewrite Rmult_assoc, Rinv_l by lra. lra. }
  split; [exact E |]. rewrite detect_eq, E. reflexivity.
Qed.

Lemma X7_quiet_frame_is_silent_witness :
  isSilence (map Fin [0.005; -0.007; 0.002]) = true
  /\ fst (detectPitchAutoCorrelation (map Fin [0.005; -0.007; 0.002]) (Fin 48000)) = None.
Proof.
  apply (X7_quiet_frame_is_silent [0.005; -0.007; 0.002] 0.007).
  - simpl. lia.
  - repeat constructor; unfold Rabs; destruct (Rcase_abs _); lra.
  - lra.
Defined.

End WindowLaws.

Section EmptyRange.

Local Open Scope list_scope.
Local Open Scope Z_scope.

Lemma list_empty_of_no_member {A : Type} (l : list A) :
  (forall a, In a l -> False) -> l = [].
Proof. destruct l as [| a l]; [reflexivity |]. intros H. destruct (H a). now left. Qed.

Lemma result_None_of_peak (buf : list number) (sampleRate : number) :
  peakLagOf (autocorrelation (hannWindow buf)) sampleRate <= 0 ->
  fst (detectPitchAutoCorrelation buf sampleRate) = None.
Proof.
  intros H. rewrite detect_eq. cbn [fst].
  destruct (isSilence buf); [reflexivity |].
  destruct (Z.leb_spec (peakLagOf (autocorrelation (hannWindow buf)) sampleRate) 0);
    [reflexivity | lia].
Qed.

Lemma length_ac_of (buf : list number) :
  List.length (autocorrelation (hannWindow buf)) = List.length buf.
Proof. rewrite length_autocorrelation. apply length_window_from. Qed.

Lemma result_None_of_empty_range (buf : list number) (sampleRate : number) :
  searchLags (List.length buf) sampleRate = [] ->
  fst (detectPitchAutoCorrelation buf sampleRate) = None.
Proof.
  intros H. apply result_None_of_peak.
  rewrite peakLagOf_unfold, length_ac_of, H. cbn. lia.
Qed.

Lemma searchLags_empty_Fin (size : nat) (r : R) :
  (r < 70)%R \/ Z.of_nat size <= Zfloor (r / 1000) ->
  searchLags size (Fin r) = [].
Proof.
  intros H. apply list_empty_of_no_member. intros lag Hin.
  pose proof (searchLags_in_bounds _ _ _ Hin) as Hb.
  apply In_searchLags_Fin in Hin.
  destruct H as [H | H]; [| lia].
  assert (Zfloor (r / 70) <= 0).
  { assert (Hlt : (IZR (Zfloor (r / 70)) < 1)%R)
      by (pose proof (Zfloor_bound (r / 70)); lra).
    apply (lt_IZR _ 1) in Hlt. lia. }
  lia.
Qed.

Lemma hann_1_0 : hann 1 0 = NaN.
Proof.
  unfold hann, Math_PI, of_nat. rewrite !mul_Fin, sub_Fin.
  unfold div. rewrite Reqb_true by (simpl; lra). rewrite Reqb_true by (simpl; lra).
  reflexivity.
Qed.

Lemma mul_NaN_r (a : number) : (a * NaN)%js = NaN.
Proof. destruct a; reflexivity. Qed.

Lemma autocorrelation_single (v : number) :
  autocorrelation (hannWindow [v]) = [NaN].
Proof.
  unfold hannWindow. cbn [List.length window_from].
  rewrite hann_1_0, mul_NaN_r. reflexivity.
Qed.

(** X8: the detector returns [null] without finding a peak whenever the
    search range is empty: when the sample rate is not finite or is below
    70, or when the buffer has at most [floor (R / 1000)] samples.  It also
    returns [null] on an empty buffer and on a buffer of one sample, for
    every sample rate and whatever the sample. *)
Theorem X8_no_search_range_no_pitch (buf : list number) (sampleRate : number) :
  (searchLags (List.length buf) sampleRate = [] ->
   fst (detectPitchAutoCorrelation buf sampleRate) = None)
  /\ (isFinite sampleRate = false -> searchLags (List.length buf) sampleRate = [])
  /\ (forall r, sampleRate = Fin r ->
        (r < 70)%R \/ Z.of_nat (List.length buf) <= Zfloor (r / 1000) ->
        searchLags (List.length buf) sampleRate = [])
  /\ ((List.length buf <= 1)%nat ->
      fst (detectPitchAutoCorrelation buf sampleRate) = None).
Proof.
  split; [apply result_None_of_empty_range | split; [| split]].
  - destruct sampleRate as [| s | r]; try discriminate; intros _; reflexivity.
  - intros r -> H. now apply searchLags_empty_Fin.
  - intros Hlen. destruct buf as [| v [| v' buf']]; [| | simpl in Hlen; lia].
    + apply result_None_of_empty_range. apply list_empty_of_no_member.
      intros lag Hin. apply searchLags_in_bounds in Hin. simpl in Hin. lia.
    + apply result_None_of_peak. rewrite autocorrelation_single.
      destruct (findPeak_argmax [NaN] sampleRate) as [[Hp _] | (pre & post & Hd & Hg & _)].
      * rewrite Hp. lia.
      * exfalso.
        assert (Hin : In (peakLagOf [NaN] sampleRate)
                        (searchLags (List.length [NaN]) sampleRate))
          by (rewrite Hd; apply in_elt).
        apply searchLags_in_bounds in Hin. cbn [List.length] in Hin.
        replace (peakLagOf [NaN] sampleRate) with 0 in Hg by lia.
        discriminate Hg.
Qed.

Lemma X8_no_search_range_no_pitch_witness :
  fst (detectPitchAutoCorrelation
         (map Fin (repeat 1%R 44)) (Fin 44100)) = None
  /\ fst (detectPitchAutoCorrelation [] (Fin 44100)) = None.
Proof.
  split.
  - destruct (X8_no_search_range_no_pitch (map Fin (repeat 1%R 44)) (Fin 44100))
      as (H1 & _ & H3 & _).
    apply H1. apply (H3 44100%R eq_refl). right.
    rewrite (Zfloor_eq 44) by lra. rewrite length_map, repeat_length. lia.
  - apply (X8_no_search_range_no_pitch [] (Fin 44100)). simpl. lia.
Defined.

End EmptyRange.

(** ** The zero-lag value dominates *)

Section ZeroLag.

Local Open Scope list_scope.
Local Open Scope R_scope.

Lemma Rltb_iff_lt (a b : R) : Rltb a b = true <-> a < b.
Proof. unfold Rltb. destruct (Rlt_dec a b); split; intros; auto; discriminate. Qed.

Lemma sum_term_le (g : nat -> R) (M j : nat) :
  (forall i, 0 <= g i) -> (j <= M)%nat -> g j <= sum_f_R0 g M.
Proof.
  intros Hg. induction M as [| M IH]; intros Hj.
  - replace j with 0%nat by lia. simpl. lra.
  - cbn [sum_f_R0]. destruct (Nat.eq_dec j (S M)) as [-> | Hne].
    + assert (0 <= sum_f_R0 g M) by (apply cond_pos_sum; exact Hg). lra.
    + specialize (IH ltac:(lia)). pose proof (Hg (S M)). lra.
Qed.

Lemma sum_extend_le (g : nat -> R) (n k : nat) :
  (forall i, 0 <= g i) -> sum_f_R0 g n <= sum_f_R0 g (n + k).
Proof.
  intros Hg. induction k as [| k IH].
  - rewrite Nat.add_0_r. lra.
  - rewrite Nat.add_succ_r. cbn [sum_f_R0]. pose proof (Hg (S (n + k))). lra.
Qed.

Lemma sum_shift_le (g : nat -> R) (n k : nat) :
  (forall i, 0 <= g i) ->
  sum_f_R0 (fun i => g (i + k)%nat) n <= sum_f_R0 g (n + k).
Proof.
  intros Hg. induction n as [| n IH].
  - cbn [sum_f_R0 Nat.add]. apply sum_term_le; [exact Hg | lia].
  - cbn [sum_f_R0 Nat.add]. lra.
Qed.

(** Sum of products against sum of squares. *)
Lemma sum_products_le (u : nat -> R) (n k : nat) :
  Rabs (sum_f_R0 (fun i => u i * u (i + k)%nat) n)
  <= sum_f_R0 (fun i => u i * u i) (n + k).
Proof.
  set (g := fun i => u i * u i).
  assert (Hg : forall i, 0 <= g i) by (intros i; unfold g; nra).
  assert (Hup : sum_f_R0 (fun i => u i * u (i + k)%nat) n
                <= sum_f_R0 (fun i => (g i + g (i + k)%nat) / 2) n).
  { apply sum_Rle. intros i _. unfold g.
    pose proof (Rle_0_sqr (u i - u (i + k)%nat)) as Hs. unfold Rsqr in Hs. lra. }
  assert (Hlo : sum_f_R0 (fun i => - (u i * u (i + k)%nat)) n
                <= sum_f_R0 (fun i => (g i + g (i + k)%nat) / 2) n).
  { apply sum_Rle. intros i _. unfold g.
    pose proof (Rle_0_sqr (u i + u (i + k)%nat)) as Hs. unfold Rsqr in Hs. lra. }
  assert (Eneg : sum_f_R0 (fun i => - (u i * u (i + k)%nat)) n
                 = - sum_f_R0 (fun i => u i * u (i + k)%nat) n).
  { clear. induction n as [| n IH]; cbn [sum_f_R0]; [reflexivity | rewrite IH; lra]. }
  assert (Ehalf : sum_f_R0 (fun i => (g i + g (i + k)%nat) / 2) n
                  = (sum_f_R0 g n + sum_f_R0 (fun i => g (i + k)%nat) n) / 2).
  { clear. induction n as [| n IH]; cbn [sum_f_R0]; [lra | rewrite IH; lra]. }
  pose proof (sum_extend_le g n k Hg).
  pose proof (sum_shift_le g n k Hg).
  fold g. unfold Rabs. destruct (Rcase_abs _); lra.
Qed.

Lemma autocorrelation_spec_0 (x : list R) :
  autocorrelation_spec x 0 = sum_f_R0 (fun i => nth i x 0 * nth i x 0) (List.length x - 1).
Proof.
  unfold autocorrelation_spec. rewrite Nat.sub_0_r.
  apply sum_eq. intros i _. now rewrite Nat.add_0_r.
Qed.

Lemma autocorrelation_spec_dominated (x : list R) (lag : nat) :
  (lag < List.length x)%nat ->
  Rabs (autocorrelation_spec x lag) <= autocorrelation_spec x 0.
Proof.
  intros Hlag. rewrite autocorrelation_spec_0. unfold autocorrelation_spec.
  pose proof (sum_products_le (fun i => nth i x 0) (List.length x - 1 - lag) lag) as H.
  replace (List.length x - 1 - lag + lag)%nat with (List.length x - 1)%nat in H by lia.
  exact H.
Qed.

(** X9: the unnormalised autocorrelation of a finite signal is largest at
    lag 0: no lag inside the signal has a value of larger magnitude than the
    zero-lag value, which is the sum of the squares; so in the array of the
    detector no entry exceeds the entry at lag 0. *)
Theorem X9_zero_lag_dominates (x : list R) (lag : nat) :
  (lag < List.length x)%nat ->
  Rabs (autocorrelation_spec x lag) <= autocorrelation_spec x 0
  /\ autocorrelation_spec x 0 = sumSquares_spec x
  /\ let ac := autocorrelation (map Fin x) in
     (valAt ac (Z.of_nat lag) >? valAt ac 0)%js = false.
Proof.
  intros Hlag. split; [now apply autocorrelation_spec_dominated | split].
  - rewrite autocorrelation_spec_0.
    assert (G : forall (l : list R) (v : R),
               sum_f_R0 (fun i => nth i (v :: l) 0 * nth i (v :: l) 0) (List.length l)
               = sumSquares_spec (v :: l)).
    { clear. induction l as [| v' l' IH]; intros v.
      - simpl. lra.
      - change (List.length (v' :: l')) with (S (List.length l')).
        rewrite decomp_sum by lia.
        change (sumSquares_spec (v :: v' :: l')) with (v * v + sumSquares_spec (v' :: l')).
        rewrite <- IH. reflexivity. }
    destruct x as [| v l]; [simpl in Hlag; lia |].
    change (List.length (v :: l) - 1)%nat with (List.length l - 0)%nat.
    rewrite Nat.sub_0_r. apply G.
  - intros ac. unfold valAt, ac.
    rewrite !get_autocorrelation_Fin by lia.
    cbn [toNumber nullish]. unfold gt. rewrite lt_Fin. apply Rltb_false.
    rewrite Nat2Z.id. change (Z.to_nat 0) with 0%nat.
    pose proof (autocorrelation_spec_dominated x lag Hlag) as H.
    unfold Rabs in H. destruct (Rcase_abs _); lra.
Qed.

Lemma X9_zero_lag_dominates_witness :
  Rabs (autocorrelation_spec [1; -2; 3] 1) <= autocorrelation_spec [1; -2; 3] 0.
Proof. apply (X9_zero_lag_dominates [1; -2; 3] 1). simpl. lia. Defined.

End ZeroLag.

Section LowSampleRate.

Local Open Scope list_scope.
Local Open Scope Z_scope.

Lemma searchLags_from_zero (size : nat) (r : R) :
  (0 <= r < 1000)%R ->
  exists n, searchLags size (Fin r) = map (fun k => 0 + Z.of_nat k) (seq 0 n).
Proof.
  intros Hr. rewrite searchLags_Fin.
  rewrite (Zfloor_eq 0 (r / 1000)) by (simpl; lra).
  rewrite lags_of_Z. eauto.
Qed.

(** X10: at a sample rate below 1000 the detector never reports a pitch on
    a finite signal: the search starts at lag 0, no later lag exceeds the
    zero-lag value, and a peak at lag 0 is given up. *)
Theorem X10_below_1000_never_detects (x : list R) (r : R) :
  List.length x <> 1%nat ->
  (r < 1000)%R ->
  peakLagOf (autocorrelation (hannWindow (map Fin x))) (Fin r) <= 0
  /\ fst (detectPitchAutoCorrelation (map Fin x) (Fin r)) = None.
Proof.
  intros Hlen Hr.
  assert (Hp : peakLagOf (autocorrelation (hannWindow (map Fin x))) (Fin r) <= 0).
  { destruct (findPeak_argmax (autocorrelation (hannWindow (map Fin x))) (Fin r))
      as [[Hp _] | (pre & post & Hd & Hg & _ & Hpre)]; [lia |].
    rewrite length_ac_of, length_map in Hd.
    set (p := peakLagOf (autocorrelation (hannWindow (map Fin x))) (Fin r)) in *.
    assert (Hin : In p (searchLags (List.length x) (Fin r)))
      by (rewrite Hd; apply in_elt).
    pose proof (searchLags_in_bounds _ _ _ Hin) as Hb.
    destruct (Rlt_dec r 0) as [Hneg | Hpos].
    { rewrite searchLags_empty_Fin in Hin by (left; lra). destruct Hin. }
    destruct (searchLags_from_zero (List.length x) r ltac:(lra)) as [n Hn].
    rewrite Hn in Hd.
    destruct pre as [| q pre'].
    - destruct n as [| n']; [discriminate |].
      cbn [seq map app] in Hd. inversion Hd. lia.
    - exfalso.
      destruct n as [| n']; [discriminate |].
      cbn [seq map app] in Hd. inversion Hd as [[Hq Hrest]].
      destruct (Hpre q (or_introl eq_refl)) as [Hlt | Hnan].
      + rewrite <- Hq in Hlt.
        revert Hlt. unfold valAt. rewrite hannWindow_Fin by exact Hlen.
        rewrite !get_autocorrelation_Fin by (rewrite length_windowed_spec; lia).
        cbn [toNumber nullish]. rewrite lt_Fin. intros Hlt.
        apply Rltb_iff_lt in Hlt.
        pose proof (autocorrelation_spec_dominated (windowed_spec x) (Z.to_nat p)
                      ltac:(rewrite length_windowed_spec; lia)) as Hdom.
        change (Z.to_nat 0) with 0%nat in Hlt.
        unfold Rabs in Hdom. destruct (Rcase_abs _); lra.
      + rewrite <- Hq in Hnan.
        revert Hnan. unfold valAt. rewrite hannWindow_Fin by exact Hlen.
        rewrite get_autocorrelation_Fin by (rewrite length_windowed_spec; lia).
        discriminate. }
  split; [exact Hp | now apply result_None_of_peak].
Qed.

Lemma X10_below_1000_never_detects_witness :
  fst (detectPitchAutoCorrelation (map Fin [0.3; 0.9; -0.4; 0.2]%R) (Fin 800)) = None.
Proof.
  apply (X10_below_1000_never_detects [0.3; 0.9; -0.4; 0.2]%R 800%R).
  - simpl. lia.
  - lra.
Defined.

End LowSampleRate.

(** ** The reference matcher on any number, and on the guitar table *)

Section MatcherLaws.

Local Open Scope list_scope.
Local Open Scope R_scope.

Lemma nearest_fold_member (f : number) (l : list tuning) (st : tuning * number) :
  In (fst (fold_left (nearestStep f) l st)) (fst st :: l).
Proof.
  revert st. induction l as [| s l IH]; intros st; cbn [fold_left].
  - now left.
  - specialize (IH (nearestStep f st s)).
    destruct IH as [E | Hin]; [| right; right; exact Hin].
    rewrite <- E. unfold nearestStep.
    destruct (Math_abs (f - freq s) <? snd st)%js; cbn [fst]; [right; left | left]; reflexivity.
Qed.

Lemma nearest_fold_NaN (l : list tuning) (st : tuning * number) :
  fold_left (nearestStep NaN) l st = st.
Proof.
  revert st. induction l as [| s l IH]; intros st; cbn [fold_left]; [reflexivity |].
  now rewrite IH.
Qed.

(** X12: on an empty table the matcher fails (reading [table[0].freq]
    throws); on a non-empty table it returns one of the entries of the table
    for every number, also NaN and the infinities; and for NaN it returns
    the first entry. *)
Theorem X12_nearest_always_an_entry (table : list tuning) (f : number) :
  (table = [] <-> nearest table f = None)
  /\ (forall e, nearest table f = Some e -> In e table)
  /\ (forall first rest, table = first :: rest -> nearest table NaN = Some first).
Proof.
  split; [| split].
  - destruct table; split; intros H; try reflexivity; discriminate.
  - intros e He. destruct table as [| first rest]; [discriminate |].
    unfold nearest in He. injection He as <-.
    pose proof (nearest_fold_member f (first :: rest)
                  (first, Math_abs (f - freq first)%js)) as H.
    cbn [fst] in H. destruct H as [E | H]; [left; exact E | exact H].
  - intros first rest ->. unfold nearest. now rewrite nearest_fold_NaN.
Qed.

Lemma X12_nearest_always_an_entry_witness :
  In (mkTuning "E4" 64 (Fin 329.628)) GUITAR_STD.
Proof.
  destruct (X12_nearest_always_an_entry GUITAR_STD (Fin 880)) as (_ & H & _).
  apply H. apply nearest_GUITAR_STD_880.
Defined.

Ltac decide_band :=
  first [ reflexivity
        | unfold distance; cbn [freq]; unfold Rabs;
          repeat match goal with
                 | |- context [Rcase_abs ?x] => destruct (Rcase_abs x)
                 end; lra ].

Ltac band_step :=
  first [ rewrite nearestStep_keep by decide_band
        | rewrite nearestStep_take by decide_band ].

(** X13: on the guitar table the nearest string of a finite frequency is
    given by the bands cut at the midpoints between neighbouring strings, a
    frequency on a midpoint going to the lower string. *)
Theorem X13_guitar_string_bands (f : R) :
  option_map name (nearest GUITAR_STD (Fin f)) = Some (guitarString_spec f).
Proof.
  unfold guitarString_spec, nearest, GUITAR_STD.
  rewrite (abs_diff_distance f) by reflexivity.
  cbn [fold_left].
  destruct (Rle_dec f 96.20345);
    [| destruct (Rle_dec f 128.416);
       [| destruct (Rle_dec f 171.415);
          [| destruct (Rle_dec f 221.47);
             [| destruct (Rle_dec f 288.285)]]]];
    do 6 band_step; reflexivity.
Qed.

End MatcherLaws.

(** ** The keyboard *)

Section PianoLaws.

Local Open Scope list_scope.
Local Open Scope Z_scope.

Variable activeMidi : option number.

Lemma strictEqual_iff (m : Z) : strictEqual activeMidi m = true <-> activeMidi = Some (of_Z m).
Proof.
  unfold strictEqual, of_Z. destruct activeMidi as [[| s | x] |]; split; intros H;
    try discriminate.
  - unfold Reqb in H. destruct (Req_dec_T x (IZR m)); [now subst | discriminate].
  - inversion H. now apply Reqb_true.
Qed.

Lemma strictEqual_unique (m m' : Z) :
  strictEqual activeMidi m = true -> strictEqual activeMidi m' = true -> m = m'.
Proof.
  rewrite !strictEqual_iff. intros -> H. inversion H as [E]. now apply eq_IZR in E.
Qed.

Lemma white_cells_midi_gen (a : option number) (ks : list pianoKey) :
  map cellMidi (map (whiteCellOf a) ks) = map keyMidi ks.
Proof. rewrite map_map. apply map_ext. reflexivity. Qed.

Lemma white_cells_lit (ks : list pianoKey) :
  map cellMidi
    (filter (fun c => String.eqb (cellBackground c) "#a7f3d0")
       (map (whiteCellOf activeMidi) ks))
  = filter (strictEqual activeMidi) (map keyMidi ks).
Proof.
  induction ks as [| k ks IH]; [reflexivity |].
  cbn [map filter]. unfold whiteCellOf at 1. cbn [cellBackground].
  destruct (strictEqual activeMidi (keyMidi k)); cbn [String.eqb Ascii.eqb Bool.eqb];
    cbn [map]; now rewrite IH.
Qed.

Lemma slot_drawn (wk : pianoKey) :
  match slotOverlay (slotFor activeMidi wk) with
  | Some o => [overlayMidi o]
  | None => []
  end
  = match slotOverlay (slotFor None wk) with
    | Some o => [overlayMidi o]
    | None => []
    end.
Proof.
  unfold slotFor. cbn [slotOverlay].
  destruct (negb (blackCandidate (Z.rem (keyMidi wk) 12) =? -1)); [| reflexivity].
  destruct (negb (keyMidi wk + 1 =? 0) && _); reflexivity.
Qed.

Lemma slot_lit (wk : pianoKey) :
  match slotOverlay (slotFor activeMidi wk) with
  | Some o => if String.eqb (overlayBackground o) "#34d399" then [overlayMidi o] else []
  | None => []
  end
  = filter (strictEqual activeMidi)
      match slotOverlay (slotFor None wk) with
      | Some o => [overlayMidi o]
      | None => []
      end.
Proof.
  unfold slotFor. cbn [slotOverlay].
  destruct (negb (blackCandidate (Z.rem (keyMidi wk) 12) =? -1)); [| reflexivity].
  destruct (negb (keyMidi wk + 1 =? 0) && _); [| reflexivity].
  cbn [overlayBackground overlayMidi filter].
  destruct (strictEqual activeMidi (keyMidi wk + 1)); reflexivity.
Qed.

Lemma filter_flat_map {A B : Type} (P : B -> bool) (g : A -> list B) (l : list A) :
  filter P (flat_map g l) = flat_map (fun a => filter P (g a)) l.
Proof.
  induction l as [| a l IH]; [reflexivity |].
  cbn [flat_map]. now rewrite filter_app, IH.
Qed.

Lemma drawnKeys_static : drawnKeys (Piano activeMidi) = drawnKeys (Piano None).
Proof.
  unfold drawnKeys, Piano. cbn [fst snd].
  rewrite !white_cells_midi_gen. f_equal.
Qed.

Lemma slots_lit (ks : list pianoKey) :
  flat_map (fun s => match slotOverlay s with
                     | Some o =>
                         if String.eqb (overlayBackground o) "#34d399"
                         then [overlayMidi o] else []
                     | None => []
                     end) (map (slotFor activeMidi) ks)
  = filter (strictEqual activeMidi)
      (flat_map (fun s => match slotOverlay s with
                          | Some o => [overlayMidi o]
                          | None => []
                          end) (map (slotFor None) ks)).
Proof.
  induction ks as [| wk ks IH]; [reflexivity |].
  cbn [map flat_map]. now rewrite filter_app, IH, slot_lit.
Qed.

Lemma litKeys_filter :
  litKeys (Piano activeMidi) = filter (strictEqual activeMidi) (drawnKeys (Piano None)).
Proof.
  unfold litKeys, drawnKeys, Piano. cbn [fst snd].
  rewrite white_cells_lit, slots_lit, white_cells_midi_gen, filter_app. reflexivity.
Qed.

(** The keys drawn are the white keys followed by the black keys. *)
Lemma drawnKeys_white_black :
  drawnKeys (Piano None) = map keyMidi whiteKeys ++ map keyMidi blackKeys.
Proof. unfold drawnKeys, Piano. cbn [fst snd]. rewrite white_cells_midi_gen. reflexivity. Qed.

Lemma drawnKeys_NoDup : NoDup (drawnKeys (Piano None)).
Proof.
  rewrite drawnKeys_white_black.
  replace (map keyMidi whiteKeys ++ map keyMidi blackKeys)
    with (nodup Z.eq_dec (map keyMidi whiteKeys ++ map keyMidi blackKeys))
    by (vm_compute; reflexivity).
  apply NoDup_nodup.
Qed.

Lemma drawnKeys_range (m : Z) :
  In m (drawnKeys (Piano None)) <-> LOW_MIDI <= m <= HIGH_MIDI.
Proof.
  rewrite drawnKeys_white_black. split.
  - intros Hin.
    assert (H : forallb (fun k => (LOW_MIDI <=? k) && (k <=? HIGH_MIDI))
                  (map keyMidi whiteKeys ++ map keyMidi blackKeys) = true)
      by (vm_compute; reflexivity).
    rewrite forallb_forall in H. specialize (H m Hin).
    apply andb_prop in H as [H1 H2]. lia.
  - intros Hm.
    assert (H : forallb (fun k => existsb (Z.eqb k)
                                    (map keyMidi whiteKeys ++ map keyMidi blackKeys))
                  (map (fun i => LOW_MIDI + Z.of_nat i) (seq 0 49)) = true)
      by (vm_compute; reflexivity).
    rewrite forallb_forall in H.
    specialize (H m).
    assert (Hin : In m (map (fun i => LOW_MIDI + Z.of_nat i) (seq 0 49))).
    { apply in_map_iff. exists (Z.to_nat (m - LOW_MIDI)). unfold LOW_MIDI, HIGH_MIDI in *.
      split; [lia | apply in_seq; lia]. }
    apply H in Hin. apply existsb_exists in Hin as (k & Hk & E).
    apply Z.eqb_eq in E. now subst k.
Qed.

Lemma filter_at_most_one {A : Type} (P : A -> bool) (l : list A) :
  NoDup l ->
  (forall a b, P a = true -> P b = true -> a = b) ->
  (List.length (filter P l) <= 1)%nat.
Proof.
  intros Hnd Huniq. induction Hnd as [| a l Hnotin Hnd IH]; [simpl; lia |].
  cbn [filter]. destruct (P a) eqn:Ea; [| exact IH].
  assert (E : filter P l = []).
  { destruct (filter P l) as [| b rest] eqn:Ef; [reflexivity | exfalso].
    assert (Hb : In b (filter P l)) by (rewrite Ef; now left).
    apply filter_In in Hb as [Hbl Hpb].
    apply Hnotin. now rewrite (Huniq a b Ea Hpb). }
  rewrite E. simpl. lia.
Qed.

(** X14: whatever the active note, the keyboard draws every key from MIDI
    36 to MIDI 84 exactly once: the white keys as cells, the black keys as
    overlays, each overlay in the slot of the white key one semitone below
    it; nothing is drawn outside that range. *)
Theorem X14_keyboard_drawn_once :
  let view := Piano activeMidi in
  NoDup (drawnKeys view)
  /\ (forall m, In m (drawnKeys view) <-> 36 <= m <= 84)
  /\ map cellMidi (fst view) = map keyMidi whiteKeys
  /\ flat_map (fun s => match slotOverlay s with
                        | Some o => [overlayMidi o]
                        | None => []
                        end) (snd view)
     = map keyMidi blackKeys
  /\ (forall s o, In s (snd view) -> slotOverlay s = Some o ->
        overlayMidi o = slotOf s + 1).
Proof.
  cbv zeta. rewrite drawnKeys_static.
  split; [apply drawnKeys_NoDup | split; [apply drawnKeys_range | split; [| split]]].
  - unfold Piano. cbn [fst]. apply white_cells_midi_gen.
  - pose proof drawnKeys_static as E. pose proof drawnKeys_white_black as E'.
    rewrite E' in E. unfold drawnKeys, Piano in E. cbn [fst snd] in E.
    rewrite white_cells_midi_gen in E. now apply app_inv_head in E.
  - intros s o Hin Ho. unfold Piano in Hin. cbn [snd] in Hin.
    apply in_map_iff in Hin as (wk & <- & _).
    unfold slotFor in Ho. cbn [slotOverlay slotOf] in *.
    destruct (negb (blackCandidate (Z.rem (keyMidi wk) 12) =? -1)); [| discriminate].
    destruct (negb (keyMidi wk + 1 =? 0) && _); [| discriminate].
    inversion Ho. reflexivity.
Qed.

Lemma litKeys_in (m : Z) :
  In m (litKeys (Piano activeMidi)) <-> activeMidi = Some (of_Z m) /\ 36 <= m <= 84.
Proof.
  rewrite litKeys_filter, filter_In, drawnKeys_range, strictEqual_iff.
  unfold LOW_MIDI, HIGH_MIDI. tauto.
Qed.

Lemma litKeys_length : (List.length (litKeys (Piano activeMidi)) <= 1)%nat.
Proof.
  rewrite litKeys_filter. apply filter_at_most_one.
  - apply drawnKeys_NoDup.
  - apply strictEqual_unique.
Qed.

Lemma litKeys_single (m : Z) :
  activeMidi = Some (of_Z m) -> 36 <= m <= 84 -> litKeys (Piano activeMidi) = [m].
Proof.
  intros Ha Hm.
  assert (Hin : In m (litKeys (Piano activeMidi))) by (apply litKeys_in; auto).
  pose proof litKeys_length as Hlen.
  destruct (litKeys (Piano activeMidi)) as [| a [| b rest]].
  - destruct Hin.
  - destruct Hin as [-> | []]. reflexivity.
  - simpl in Hlen. lia.
Qed.

Lemma litKeys_none :
  (forall m, activeMidi = Some (of_Z m) -> m < 36 \/ 84 < m) ->
  litKeys (Piano activeMidi) = [].
Proof.
  intros Hout.
  assert (Hno : forall a, ~ In a (litKeys (Piano activeMidi))).
  { intros a Hin. apply litKeys_in in Hin as [Ha Hr]. specialize (Hout a Ha). lia. }
  destruct (litKeys (Piano activeMidi)) as [| a rest]; [reflexivity | exfalso].
  apply (Hno a). now left.
Qed.

(** X15: at most one key is highlighted, and the key of MIDI number [m] is
    highlighted exactly when the active note is the number [m] and [m] lies
    between 36 and 84; so an undefined, NaN or fractional active note, or a
    note outside the keyboard, highlights nothing. *)
Theorem X15_one_key_highlighted :
  (forall m, In m (litKeys (Piano activeMidi))
             <-> activeMidi = Some (of_Z m) /\ 36 <= m <= 84)
  /\ (List.length (litKeys (Piano activeMidi)) <= 1)%nat
  /\ (forall m, activeMidi = Some (of_Z m) -> 36 <= m <= 84 ->
        litKeys (Piano activeMidi) = [m])
  /\ ((forall m, activeMidi = Some (of_Z m) -> m < 36 \/ 84 < m) ->
      litKeys (Piano activeMidi) = []).
Proof.
  split; [exact litKeys_in | split; [exact litKeys_length | split]].
  - exact litKeys_single.
  - exact litKeys_none.
Qed.

Lemma key_colour_and_name (m : Z) :
  0 <= m ->
  exists letter,
    In letter NOTE_NAMES
    /\ midiToName (of_Z m) = (letter ++ string_of_Z (m / 12 - 1))%string
    /\ (has WHITE_INDEX (Z.rem m 12) = true <-> In letter NATURALS)
    /\ (blackCandidate (Z.rem m 12) <> -1
        <-> has WHITE_INDEX (Z.rem m 12) = true
            /\ has WHITE_INDEX (Z.rem (m + 1) 12) = false).
Proof.
  intros Hm. rewrite midiToName_of_Z.
  assert (E1 : Z.rem (m + 1200) 12 = m mod 12)
    by (rewrite Z.rem_mod_nonneg by lia; Z.to_euclidean_division_equations; lia).
  assert (E2 : Z.rem m 12 = m mod 12) by (apply Z.rem_mod_nonneg; lia).
  assert (E3 : Z.rem (m + 1) 12 = (m mod 12 + 1) mod 12)
    by (rewrite Z.rem_mod_nonneg by lia; Z.to_euclidean_division_equations; lia).
  rewrite E1, E2, E3.
  pose proof (Z.mod_pos_bound m 12 ltac:(lia)) as Hr.
  generalize dependent (m mod 12). intros r _ _ _ Hr.
  assert (Hc : r = 0 \/ r = 1 \/ r = 2 \/ r = 3 \/ r = 4 \/ r = 5 \/ r = 6
               \/ r = 7 \/ r = 8 \/ r = 9 \/ r = 10 \/ r = 11) by lia.
  repeat (destruct Hc as [-> | Hc]); [.. | subst r];
    (eexists; split; [| split; [reflexivity |]];
     [cbn; tauto | vm_compute; intuition congruence]).
Qed.

Lemma keys_member (k : pianoKey) :
  In k keys ->
  LOW_MIDI <= keyMidi k <= HIGH_MIDI
  /\ isWhite k = has WHITE_INDEX (Z.rem (keyMidi k) 12).
Proof.
  unfold keys. rewrite in_map_iff. intros (i & <- & Hi).
  apply in_seq in Hi. cbn [keyMidi isWhite]. unfold LOW_MIDI, HIGH_MIDI in *.
  split; [| reflexivity].
  change (Z.to_nat (84 - 36 + 1)) with 49%nat in Hi. lia.
Qed.

(** X16: the table of white semitones, the table of black keys above a
    white key and the table of note names agree.  For a MIDI integer from 0
    upwards, the keyboard classes it as white exactly when the letter of its
    name carries no sharp sign, and a black key is announced above it exactly
    when it is white and the next semitone is not. *)
Theorem X16_white_iff_natural_name (m : Z) :
  0 <= m ->
  exists letter,
    In letter NOTE_NAMES
    /\ midiToName (of_Z m) = (letter ++ string_of_Z (m / 12 - 1))%string
    /\ (has WHITE_INDEX (Z.rem m 12) = true <-> In letter NATURALS)
    /\ (blackCandidate (Z.rem m 12) <> -1
        <-> has WHITE_INDEX (Z.rem m 12) = true
            /\ has WHITE_INDEX (Z.rem (m + 1) 12) = false).
Proof. exact (key_colour_and_name m). Qed.

Lemma X16_white_iff_natural_name_witness :
  exists letter,
    In letter NOTE_NAMES
    /\ midiToName (of_Z 61) = (letter ++ string_of_Z (61 / 12 - 1))%string
    /\ (has WHITE_INDEX (Z.rem 61 12) = true <-> In letter NATURALS)
    /\ (blackCandidate (Z.rem 61 12) <> -1
        <-> has WHITE_INDEX (Z.rem 61 12) = true
            /\ has WHITE_INDEX (Z.rem (61 + 1) 12) = false).
Proof. apply (X16_white_iff_natural_name 61). lia. Defined.

(** X17: every white cell of the keyboard is labelled with a name without
    a sharp sign followed by the octave of its key, the octave running from
    2 to 6, whatever the active note. *)
Theorem X17_white_cells_labelled :
  forall c, In c (fst (Piano activeMidi)) ->
    exists letter octave,
      In letter NATURALS
      /\ 2 <= octave <= 6
      /\ octave = cellMidi c / 12 - 1
      /\ cellLabel c = (letter ++ string_of_Z octave)%string.
Proof.
  intros c Hc. unfold Piano in Hc. cbn [fst] in Hc.
  apply in_map_iff in Hc as (k & <- & Hk).
  unfold whiteKeys in Hk. apply filter_In in Hk as [Hk Hw].
  apply keys_member in Hk as [Hr Hi].
  unfold LOW_MIDI, HIGH_MIDI in Hr.
  destruct (key_colour_and_name (keyMidi k) ltac:(lia)) as (letter & _ & Hn & Hnat & _).
  exists letter, (keyMidi k / 12 - 1).
  cbn [cellMidi cellLabel whiteCellOf].
  split; [apply Hnat; now rewrite <- Hi |].
  split; [Z.to_euclidean_division_equations; lia |].
  split; [reflexivity | exact Hn].
Qed.

End PianoLaws.

Lemma X17_white_cells_labelled_witness :
  exists letter octave,
    In letter NATURALS
    /\ (2 <= octave <= 6)%Z
    /\ octave = (cellMidi (whiteCellOf None (mkKey 36 true)) / 12 - 1)%Z
    /\ cellLabel (whiteCellOf None (mkKey 36 true)) = letter ++ string_of_Z octave.
Proof.
  apply (X17_white_cells_labelled None).
  unfold Piano. cbn [fst]. apply in_map. vm_compute. left. reflexivity.
Defined.

(** ** The tuner page *)

Section TunerLaws.

Local Open Scope R_scope.

Lemma Math_max_Fin (a b : R) : Math_max (Fin a) (Fin b) = Fin (Rmax a b).
Proof.
  unfold Math_max, lt, Rltb, Rmax.
  destruct (Rlt_dec a b), (Rle_dec a b); try reflexivity; try lra.
  f_equal. lra.
Qed.

(** The clamp [Math.max(-50, Math.min(50, offset || 0))] on every number. *)
Lemma needle_cases (offset : number) :
  exists x,
    Math_max (Fin (-50)) (Math_min (Fin 50) (orElse offset (Fin 0))) = Fin x
    /\ -50 <= x <= 50
    /\ match offset with
       | NaN => x = 0
       | Inf s => x = if s then -50 else 50
       | Fin v => x = Rmax (-50) (Rmin 50 v)
       end.
Proof.
  assert (Hclamp : forall v, -50 <= Rmax (-50) (Rmin 50 v) <= 50).
  { intros v. unfold Rmax, Rmin.
    destruct (Rle_dec 50 v); destruct (Rle_dec (-50) _); lra. }
  destruct offset as [| s | v].
  - exists 0. unfold orElse. cbn [truthy].
    rewrite Math_min_Fin, Math_max_Fin.
    assert (E : Rmax (-50) (Rmin 50 0) = 0).
    { unfold Rmax, Rmin. destruct (Rle_dec 50 0); [lra |].
      destruct (Rle_dec (-50) 0); lra. }
    rewrite E. repeat split; lra.
  - unfold orElse. cbn [truthy]. destruct s.
    + exists (-50). unfold Math_min, Math_max. cbn [lt negb].
      repeat split; lra.
    + exists 50. unfold Math_min, Math_max. cbn [lt negb].
      rewrite Rltb_true by lra. repeat split; lra.
  - exists (Rmax (-50) (Rmin 50 v)).
    assert (E : orElse (Fin v) (Fin 0) = Fin v).
    { unfold orElse, truthy. unfold Reqb. destruct (Req_dec_T v 0) as [-> |]; reflexivity. }
    rewrite E, Math_min_Fin, Math_max_Fin.
    split; [reflexivity | split; [apply Hclamp | reflexivity]].
Qed.

Lemma abs_lt_iff (x b : R) : (Math_abs (Fin x) <? Fin b)%js = true <-> Rabs x < b.
Proof. cbn [Math_abs]. rewrite lt_Fin. apply Rltb_iff_lt. Qed.

Lemma if_then_iff (c : bool) (a b : string) :
  b <> a -> ((if c then a else b) = a <-> c = true).
Proof. intros Ho. destruct c; split; intros H; try reflexivity; [contradiction | discriminate]. Qed.

(** X18: the needle of the tuner stays on the dial for every offset the
    page can be given.  Its position is a finite number between -50 and 50,
    drawn between 90 pixels left and 90 pixels right of the centre: a finite
    offset is clamped to that range, NaN is drawn at the centre and the
    infinities at the ends.  Needle and centre mark are green exactly when
    the position is less than 5 away from the centre. *)
Theorem X18_needle_stays_on_dial (running : bool) (freq : option number)
    (note : string) (offset : number) (nearestString : string) :
  let view := TunerPage running freq note offset nearestString in
  exists x,
    needle view = Fin x
    /\ -50 <= x <= 50
    /\ needleLeft view = Fin (x * 1.8)
    /\ -90 <= x * 1.8 <= 90
    /\ match offset with
       | NaN => x = 0
       | Inf s => x = if s then -50 else 50
       | Fin v => x = Rmax (-50) (Rmin 50 v)
       end
    /\ (forall v, offset = Fin v -> -50 <= v <= 50 -> x = v)
    /\ (needleColor view = "#34d399" <-> Rabs x < 5)
    /\ (centreColor view = "#34d399" <-> Rabs x < 5).
Proof.
  intros view. destruct (needle_cases offset) as (x & Hn & Hx & Hc).
  exists x. unfold view, TunerPage.
  cbn [needle needleLeft needleColor centreColor]. rewrite Hn.
  split; [reflexivity | split; [exact Hx | split; [reflexivity |]]].
  split; [lra | split; [exact Hc | split; [| split]]].
  - intros v -> Hv. rewrite Hc. unfold Rmax, Rmin.
    destruct (Rle_dec 50 v); destruct (Rle_dec (-50) _); lra.
  - rewrite if_then_iff by discriminate. apply abs_lt_iff.
  - rewrite if_then_iff by discriminate. apply abs_lt_iff.
Qed.

Lemma Rabs_IZR_lt (c b : Z) : Rabs (IZR c) < IZR b <-> (- b < c < b)%Z.
Proof.
  rewrite <- abs_IZR. split; intros H.
  - apply lt_IZR in H. lia.
  - apply IZR_lt. lia.
Qed.

(** The tuner page of an integer offset between -50 and 50. *)
Lemma tuner_integer_offset (running : bool) (freq : option number) (note : string)
    (c : Z) (nearestString : string) :
  (-50 <= c <= 50)%Z ->
  let view := TunerPage running freq note (of_Z c) nearestString in
  needle view = of_Z c
  /\ needleLeft view = Fin (IZR c * 1.8)
  /\ (centreLabel view = "IN TUNE" <-> (-5 < c < 5)%Z)
  /\ (needleColor view = "#34d399" <-> (-5 < c < 5)%Z)
  /\ centsText view
     = (if (0 <? c)%Z then "+" ++ string_of_Z c else string_of_Z c)%string
  /\ (centsColor view = "#9ca3af" <-> c = 0%Z).
Proof.
  intros Hc view.
  assert (Hr : -50 <= IZR c <= 50) by (split; apply IZR_le; lia).
  assert (Hn : needle view = of_Z c).
  { destruct (needle_cases (of_Z c)) as (x & Hn & _ & Hx).
    unfold view, TunerPage. cbn [needle]. rewrite Hn.
    unfold of_Z in Hx |- *. rewrite Hx. f_equal. unfold Rmax, Rmin.
    destruct (Rle_dec 50 (IZR c)); destruct (Rle_dec (-50) _); lra. }
  split; [exact Hn |].
  assert (Hl : needleLeft view = (needle view * #1.8)%js) by reflexivity.
  assert (Hk : needleColor view
               = if (Math_abs (needle view) <? #5)%js then "#34d399" else "#f59e0b")
    by reflexivity.
  rewrite Hl, Hk, Hn. unfold view, TunerPage, of_Z.
  cbn [centreLabel centsText centsColor].
  split; [reflexivity |]. split; [| split; [| split]].
  - rewrite if_then_iff by discriminate. rewrite abs_lt_iff. apply (Rabs_IZR_lt c 5).
  - rewrite if_then_iff by discriminate. rewrite abs_lt_iff. apply (Rabs_IZR_lt c 5).
  - unfold gt, ToString. rewrite lt_Fin, ZfloorZ.
    destruct (0 <? c)%Z eqn:E.
    + apply Z.ltb_lt in E. rewrite Rltb_true by (apply (IZR_lt 0); lia). reflexivity.
    + apply Z.ltb_ge in E. rewrite Rltb_false by (apply (IZR_le c 0); lia). reflexivity.
  - unfold truthy. destruct (Z.eq_dec c 0) as [-> | Hne].
    + rewrite Reqb_true by reflexivity. cbn [negb]. split; reflexivity.
    + rewrite Reqb_false by (intros E; apply (eq_IZR c 0) in E; contradiction).
      cbn [negb]. split; [| contradiction].
      destruct (Math_abs (Fin (IZR c)) <? #5)%js; discriminate.
Qed.

End TunerLaws.

(** ** From one tick of the loop to the two pages *)

Section Pages.

Local Open Scope R_scope.

Lemma log2_pow (x : R) (n : nat) : 0 < x -> log2 (x ^ n) = INR n * log2 x.
Proof.
  intros Hx. unfold log2. rewrite ln_pow by assumption.
  field. pose proof ln_2_pos; lra.
Qed.

(** Bounds of a binary logarithm from an inequality between powers. *)
Lemma log2_upper (x : R) (q a b : nat) :
  0 < x -> x ^ q * 2 ^ b <= 2 ^ a -> INR q * log2 x + INR b <= INR a.
Proof.
  intros Hx H.
  assert (Hq : 0 < x ^ q) by (apply pow_lt; assumption).
  assert (Hb : 0 < 2 ^ b) by (apply pow_lt; lra).
  apply log2_le in H; [| apply Rmult_lt_0_compat; assumption].
  rewrite log2_mult, !log2_pow, log2_2 in H by (assumption || lra). lra.
Qed.

Lemma log2_lower (x : R) (q a b : nat) :
  0 < x -> 2 ^ a <= x ^ q * 2 ^ b -> INR a <= INR q * log2 x + INR b.
Proof.
  intros Hx H.
  assert (Hq : 0 < x ^ q) by (apply pow_lt; assumption).
  assert (Hb : 0 < 2 ^ b) by (apply pow_lt; lra).
  apply log2_le in H; [| apply pow_lt; lra].
  rewrite log2_mult, !log2_pow, log2_2 in H by (assumption || lra). lra.
Qed.

(** The MIDI number of a frequency between two bounds. *)
Lemma freqToMidi_between (x lo hi : R) (mlo mhi : Z) :
  0 < lo -> lo <= x <= hi ->
  IZR mlo - / 2 <= 12 * log2 (lo / 440) + 69 ->
  12 * log2 (hi / 440) + 69 < IZR mhi + / 2 ->
  exists m, freqToMidi (Fin x) = of_Z m /\ (mlo <= m <= mhi)%Z.
Proof.
  intros Hlo Hx Hl Hh. rewrite freqToMidi_pos by lra.
  eexists. split; [reflexivity |].
  pose proof (round_bound (12 * log2 (x / 440) + 69)) as [Rl Rh].
  assert (L1 : log2 (lo / 440) <= log2 (x / 440)) by (apply log2_le; lra).
  assert (L2 : log2 (x / 440) <= log2 (hi / 440)) by (apply log2_le; lra).
  set (m := round (12 * log2 (x / 440) + 69)) in *.
  assert (H1 : IZR (mlo - 1) < IZR m) by (rewrite minus_IZR; lra).
  assert (H2 : IZR m < IZR (mhi + 1)) by (rewrite plus_IZR; lra).
  apply lt_IZR in H1. apply lt_IZR in H2. lia.
Qed.

Lemma midi_of_detected (x : R) :
  50 <= x <= 1500 ->
  exists m, freqToMidi (Fin x) = of_Z m /\ (31 <= m <= 90)%Z.
Proof.
  intros Hx. apply (freqToMidi_between x 50 1500); [lra | exact Hx | |].
  - pose proof (log2_lower (5 / 44) 5 0 16 ltac:(lra) ltac:(lra)) as H.
    replace (50 / 440) with (5 / 44) by lra. simpl INR in H. lra.
  - pose proof (log2_upper (75 / 22) 9 16 0 ltac:(lra) ltac:(lra)) as H.
    replace (1500 / 440) with (75 / 22) by lra. simpl INR in H. lra.
Qed.

Lemma midi_on_keyboard (x : R) :
  64 <= x <= 1056 ->
  exists m, freqToMidi (Fin x) = of_Z m /\ (36 <= m <= 84)%Z.
Proof.
  intros Hx. apply (freqToMidi_between x 64 1056); [lra | exact Hx | |].
  - pose proof (log2_lower (8 / 55) 14 0 39 ltac:(lra) ltac:(lra)) as H.
    replace (64 / 440) with (8 / 55) by lra. simpl INR in H. lra.
  - pose proof (log2_upper (12 / 5) 15 19 0 ltac:(lra) ltac:(lra)) as H.
    replace (1056 / 440) with (12 / 5) by lra. simpl INR in H. lra.
Qed.

Lemma midi_below_keyboard (x : R) :
  50 <= x <= 60 ->
  exists m, freqToMidi (Fin x) = of_Z m /\ (31 <= m <= 35)%Z.
Proof.
  intros Hx. apply (freqToMidi_between x 50 60); [lra | exact Hx | |].
  - pose proof (log2_lower (5 / 44) 5 0 16 ltac:(lra) ltac:(lra)) as H.
    replace (50 / 440) with (5 / 44) by lra. simpl INR in H. lra.
  - pose proof (log2_upper (3 / 22) 5 0 14 ltac:(lra) ltac:(lra)) as H.
    replace (60 / 440) with (3 / 22) by lra. simpl INR in H. lra.
Qed.

Lemma midi_above_keyboard (x : R) :
  1100 <= x <= 1500 ->
  exists m, freqToMidi (Fin x) = of_Z m /\ (85 <= m <= 90)%Z.
Proof.
  intros Hx. apply (freqToMidi_between x 1100 1500); [lra | exact Hx | |].
  - pose proof (log2_lower (5 / 2) 10 13 0 ltac:(lra) ltac:(lra)) as H.
    replace (1100 / 440) with (5 / 2) by lra. simpl INR in H. lra.
  - pose proof (log2_upper (75 / 22) 9 16 0 ltac:(lra) ltac:(lra)) as H.
    replace (1500 / 440) with (75 / 22) by lra. simpl INR in H. lra.
Qed.

Lemma of_Z_inj (a b : Z) : of_Z a = of_Z b -> a = b.
Proof. unfold of_Z. intros H. injection H as H. now apply eq_IZR. Qed.

Lemma nearest_member (table : list tuning) (f : number) (e : tuning) :
  nearest table f = Some e -> In e table.
Proof.
  intros He. destruct table as [| first rest]; [discriminate |].
  unfold nearest in He. injection He as <-.
  pose proof (nearest_fold_member f (first :: rest)
                (first, Math_abs (f - freq first)%js)) as H.
  cbn [fst] in H. destruct H as [E | H]; [left; exact E | exact H].
Qed.

(** The two outcomes of a tick. *)
Lemma loop_shows (samples : list number) (sampleRate : number) :
  (fst (detectPitchAutoCorrelation samples sampleRate) = None
   /\ fst (loop samples sampleRate) = Some noDetection)
  \/ (exists x best,
        fst (detectPitchAutoCorrelation samples sampleRate) = Some (Fin x)
        /\ 50 <= x <= 1500
        /\ In best GUITAR_STD
        /\ fst (loop samples sampleRate)
           = Some (mkDisplay (Some (Fin x)) (Some (freqToMidi (Fin x)))
                     (midiToName (freqToMidi (Fin x)))
                     (centsOff (Fin x) (freqToMidi (Fin x))) (name best))).
Proof.
  destruct (fst (detectPitchAutoCorrelation samples sampleRate)) as [f |] eqn:E.
  - right. destruct (loop_detection _ _ _ E) as (x & best & -> & Hx & Hb & Hs).
    exists x, best. split; [reflexivity | split; [exact Hx | split; [| exact Hs]]].
    exact (nearest_member _ _ _ Hb).
  - left. split; [reflexivity | now apply loop_no_detection].
Qed.

Lemma note_name_not_empty (m : Z) :
  (0 <= m)%Z -> String.eqb (midiToName (of_Z m)) "" = false.
Proof.
  intros Hm. destruct (key_colour_and_name m Hm) as (letter & Hin & -> & _).
  cbn in Hin.
  repeat (destruct Hin as [<- | Hin]; [reflexivity |]). destruct Hin.
Qed.

(** X19: what the tuner page shows after a tick.  Every tick sets a display
    state whose offset is an integer between -50 and 50, so the needle stands
    at the offset itself and the clamp never acts.  The page says IN TUNE
    exactly when the offset is within 4 cents; without a detected pitch the
    offset is 0, so the page then says IN TUNE with a green needle at the
    centre, while the note reads as a dash. *)
Theorem X19_tick_on_tuner_page (samples : list number) (sampleRate : number)
    (running : bool) :
  exists d c,
    fst (loop samples sampleRate) = Some d
    /\ shownOffset d = of_Z c
    /\ (-50 <= c <= 50)%Z
    /\ needle (tunerOf running d) = of_Z c
    /\ needleLeft (tunerOf running d) = Fin (IZR c * 1.8)
    /\ (centreLabel (tunerOf running d) = "IN TUNE" <-> (-5 < c < 5)%Z)
    /\ (needleColor (tunerOf running d) = "#34d399" <-> (-5 < c < 5)%Z)
    /\ centsText (tunerOf running d)
       = (if (0 <? c)%Z then "+" ++ string_of_Z c else string_of_Z c)%string
    /\ (centsColor (tunerOf running d) = "#9ca3af" <-> c = 0%Z)
    /\ (fst (detectPitchAutoCorrelation samples sampleRate) = None ->
        c = 0%Z
        /\ noteText (tunerOf running d) = "—"
        /\ freqShown (tunerOf running d) = false
        /\ nearestText (tunerOf running d) = "—")
    /\ (fst (detectPitchAutoCorrelation samples sampleRate) <> None ->
        noteText (tunerOf running d) = shownNote d
        /\ noteText (tunerOf running d) <> ""
        /\ freqShown (tunerOf running d) = true
        /\ In (nearestText (tunerOf running d)) (map name GUITAR_STD)).
Proof.
  destruct (loop_shows samples sampleRate)
    as [[Hnone Hs] | (x & best & Hsome & Hx & Hbest & Hs)].
  - exists noDetection, 0%Z. rewrite Hnone.
    split; [exact Hs | split; [reflexivity | split; [lia |]]].
    pose proof (tuner_integer_offset running None "" 0 "—" ltac:(lia))
      as (H1 & H2 & H3 & H4 & H5 & H6).
    change (TunerPage running None "" (of_Z 0) "—") with (tunerOf running noDetection)
      in H1, H2, H3, H4, H5, H6.
    repeat (split; [assumption |]).
    split; [intros _; repeat split | intros H; now contradiction H].
  - destruct (cents_bounds x ltac:(lra)) as (c & Hc & Hcr).
    destruct (midi_of_detected x Hx) as (m & Hm & Hmr).
    eexists; exists c. rewrite Hsome.
    split; [exact Hs |]. cbn [shownOffset].
    split; [exact Hc | split; [exact Hcr |]].
    unfold tunerOf. cbn [shownFreq shownNote shownOffset shownNearestString].
    rewrite Hc.
    pose proof (tuner_integer_offset running (Some (Fin x))
                  (midiToName (freqToMidi (Fin x))) c (name best) Hcr)
      as (H1 & H2 & H3 & H4 & H5 & H6).
    repeat (split; [assumption |]).
    split; [intros H; discriminate H | intros _].
    unfold TunerPage. cbn [noteText freqShown nearestText].
    rewrite Hm, (note_name_not_empty m) by lia.
    split; [reflexivity | split; [| split]].
    + intros E. pose proof (note_name_not_empty m ltac:(lia)) as Hne.
      rewrite E in Hne. discriminate Hne.
    + unfold truthy. rewrite Reqb_false by lra. reflexivity.
    + now apply in_map.
Qed.

(** X20: what the keyboard shows after a tick.  Without a detected pitch no
    key is highlighted.  A detected pitch has a MIDI number between 31 and
    90, and the keyboard highlights the key of that number alone when it lies
    between 36 and 84 and no key otherwise: every detected frequency from 64
    to 1056 Hz lights exactly one key, and those up to 60 Hz or from 1100 Hz
    light none. *)
Theorem X20_tick_on_keyboard (samples : list number) (sampleRate : number) :
  exists d,
    fst (loop samples sampleRate) = Some d
    /\ (fst (detectPitchAutoCorrelation samples sampleRate) = None ->
        litKeys (pianoOf d) = [])
    /\ (forall x,
          fst (detectPitchAutoCorrelation samples sampleRate) = Some (Fin x) ->
          exists m,
            shownMidi d = Some (of_Z m)
            /\ (31 <= m <= 90)%Z
            /\ litKeys (pianoOf d)
               = (if ((36 <=? m) && (m <=? 84))%Z then [m] else [])
            /\ (64 <= x <= 1056 -> litKeys (pianoOf d) = [m])
            /\ (x <= 60 \/ 1100 <= x -> litKeys (pianoOf d) = [])).
Proof.
  destruct (loop_shows samples sampleRate)
    as [[Hnone Hs] | (x & best & Hsome & Hx & Hbest & Hs)].
  - exists noDetection. rewrite Hnone.
    split; [exact Hs | split; [| intros x H; discriminate H]].
    intros _. apply litKeys_none. intros m H. discriminate H.
  - eexists. split; [exact Hs |]. rewrite Hsome.
    split; [intros H; discriminate H |].
    intros x' E. injection E as <-.
    unfold pianoOf. cbn [shownMidi].
    destruct (midi_of_detected x Hx) as (m & Hm & Hmr).
    assert (Hlit : forall k, freqToMidi (Fin x) = of_Z k -> (36 <= k <= 84)%Z ->
                     litKeys (Piano (Some (freqToMidi (Fin x)))) = [k]).
    { intros k Hk Hr. apply litKeys_single; [now rewrite Hk | exact Hr]. }
    assert (Hdark : forall k, freqToMidi (Fin x) = of_Z k -> (k < 36 \/ 84 < k)%Z ->
                      litKeys (Piano (Some (freqToMidi (Fin x)))) = []).
    { intros k Hk Hr. apply litKeys_none. intros k' E.
      rewrite Hk in E. injection E as E. apply eq_IZR in E. subst k'. exact Hr. }
    exists m. split; [now rewrite Hm | split; [exact Hmr | split; [| split]]].
    + destruct ((36 <=? m) && (m <=? 84))%Z eqn:Eb.
      * apply andb_prop in Eb as [E1 E2]. apply (Hlit m); [exact Hm | lia].
      * apply (Hdark m); [exact Hm |].
        apply andb_false_iff in Eb as [Eb | Eb]; lia.
    + intros Hband. destruct (midi_on_keyboard x Hband) as (k & Hk & Hkr).
      assert (k = m) by (apply of_Z_inj; now rewrite <- Hk, <- Hm). subst k.
      now apply (Hlit m).
    + intros Hband.
      assert (Hout : (m < 36 \/ 84 < m)%Z).
      { destruct Hband as [Hb | Hb].
        - destruct (midi_below_keyboard x ltac:(lra)) as (k & Hk & Hkr).
          assert (k = m) by (apply of_Z_inj; now rewrite <- Hk, <- Hm). lia.
        - destruct (midi_above_keyboard x ltac:(lra)) as (k & Hk & Hkr).
          assert (k = m) by (apply of_Z_inj; now rewrite <- Hk, <- Hm). lia. }
      now apply (Hdark m).
Qed.

End Pages.

(** ** Rounding to a binary format *)

Section BinaryRounding.

Local Open Scope R_scope.
Import IEEE.

Lemma rne_floor_or_next (t : R) : rne t = Zfloor t \/ rne t = (Zfloor t + 1)%Z.
Proof.
  unfold rne. destruct (Rltb _ _); [now left |].
  destruct (Rltb _ _); [now right |]. destruct (Z.even _); auto.
Qed.

Lemma rne_error (t : R) : Rabs (IZR (rne t) - t) <= / 2.
Proof.
  pose proof (Zfloor_bound t) as [Hlo Hhi]. unfold rne.
  destruct (Rltb (t - IZR (Zfloor t)) (/ 2)) eqn:E1.
  - apply Rltb_iff_lt in E1. unfold Rabs. destruct (Rcase_abs _); lra.
  - assert (H1 : / 2 <= t - IZR (Zfloor t)).
    { destruct (Rlt_dec (t - IZR (Zfloor t)) (/ 2)) as [H | H]; [| lra].
      apply Rltb_iff_lt in H. congruence. }
    destruct (Rltb (/ 2) (t - IZR (Zfloor t))) eqn:E2.
    + rewrite plus_IZR. unfold Rabs. destruct (Rcase_abs _); lra.
    + assert (H2 : t - IZR (Zfloor t) <= / 2).
      { destruct (Rlt_dec (/ 2) (t - IZR (Zfloor t))) as [H | H]; [| lra].
        apply Rltb_iff_lt in H. congruence. }
      destruct (Z.even (Zfloor t)); [| rewrite plus_IZR];
        unfold Rabs; destruct (Rcase_abs _); lra.
Qed.

Lemma rne_IZR (z : Z) : rne (IZR z) = z.
Proof.
  unfold rne. rewrite ZfloorZ.
  rewrite Rltb_true by lra. reflexivity.
Qed.

Lemma rne_le (t : R) (n : Z) : t <= IZR n -> (rne t <= n)%Z.
Proof.
  intros Ht. pose proof (Zfloor_bound t) as [Hlo Hhi].
  assert (Hf : (Zfloor t <= n)%Z) by (apply le_IZR; lra).
  destruct (Z.eq_dec (Zfloor t) n) as [E | E].
  - unfold rne. rewrite E in *. rewrite Rltb_true by lra. lia.
  - destruct (rne_floor_or_next t) as [-> | ->]; lia.
Qed.

Lemma rne_ge (t : R) (n : Z) : IZR n <= t -> (n <= rne t)%Z.
Proof.
  intros Ht. assert (Hf : (n <= Zfloor t)%Z) by (apply Zfloor_lub; exact Ht).
  destruct (rne_floor_or_next t) as [-> | ->]; lia.
Qed.

Lemma rne_abs_ge (t : R) (n : Z) : (0 <= n)%Z -> IZR n <= Rabs t -> (n <= Z.abs (rne t))%Z.
Proof.
  intros Hn Ht. unfold Rabs in Ht. destruct (Rcase_abs t) as [Hneg | Hpos].
  - assert (H : (rne t <= - n)%Z) by (apply rne_le; rewrite opp_IZR; lra). lia.
  - assert (H : (n <= rne t)%Z) by (apply rne_ge; lra). lia.
Qed.

Lemma pow2_pos (e : Z) : 0 < powerRZ 2 e.
Proof. apply powerRZ_lt. lra. Qed.

Lemma pow2_Rpower (e : Z) : powerRZ 2 e = Rpower 2 (IZR e).
Proof. apply powerRZ_Rpower. lra. Qed.

Lemma pow2_le (a b : Z) : (a <= b)%Z -> powerRZ 2 a <= powerRZ 2 b.
Proof.
  intros H. rewrite !pow2_Rpower. apply Rle_Rpower; [lra | now apply IZR_le].
Qed.

Lemma pow2_lt (a b : Z) : (a < b)%Z -> powerRZ 2 a < powerRZ 2 b.
Proof.
  intros H. rewrite !pow2_Rpower. apply Rpower_lt; [lra | now apply IZR_lt].
Qed.

Lemma pow2_add (a b : Z) : powerRZ 2 (a + b) = powerRZ 2 a * powerRZ 2 b.
Proof. apply powerRZ_add. lra. Qed.

Lemma pow2_sub (a b : Z) : powerRZ 2 (a - b) = powerRZ 2 a / powerRZ 2 b.
Proof.
  pose proof (pow2_pos b) as Hb.
  replace (a - b)%Z with (a + - b)%Z by lia.
  rewrite pow2_add, powerRZ_neg'. reflexivity.
Qed.

(** A power of two with a natural exponent is an integer. *)
Lemma pow2_IZR (k : Z) : (0 <= k)%Z -> powerRZ 2 k = IZR (2 ^ k).
Proof.
  intros Hk. rewrite <- (Z2Nat.id k Hk) at 1. rewrite <- pow_powerRZ.
  rewrite <- (Z2Nat.id k Hk) at 2. rewrite <- (pow_IZR 2). reflexivity.
Qed.

Lemma binade_bounds (x : R) :
  x <> 0 -> powerRZ 2 (binade x) <= Rabs x < powerRZ 2 (binade x + 1).
Proof.
  intros Hx. assert (Ha : 0 < Rabs x) by (now apply Rabs_pos_lt).
  pose proof (Zfloor_bound (log2 (Rabs x))) as [Hlo Hhi].
  fold (binade x) in Hlo, Hhi.
  rewrite !pow2_Rpower, plus_IZR.
  pose proof (Rpower_log2 (Rabs x) Ha) as E.
  split.
  - rewrite <- E. apply Rle_Rpower; lra.
  - rewrite <- E at 1. apply Rpower_lt; lra.
Qed.

Lemma binade_lt (x : R) (k : Z) : x <> 0 -> Rabs x < powerRZ 2 k -> (binade x < k)%Z.
Proof.
  intros Hx Hk. pose proof (binade_bounds x Hx) as [Hlo _].
  destruct (Z_lt_le_dec (binade x) k) as [H | H]; [exact H | exfalso].
  pose proof (pow2_le _ _ H). lra.
Qed.

Lemma binade_ge (x : R) (k : Z) : powerRZ 2 k <= Rabs x -> (k <= binade x)%Z.
Proof.
  intros Hk. pose proof (pow2_pos k) as Hp.
  assert (Hx : x <> 0) by (intros ->; rewrite Rabs_R0 in Hk; lra).
  pose proof (binade_bounds x Hx) as [_ Hhi].
  destruct (Z_lt_le_dec (binade x) k) as [H | H]; [exfalso | exact H].
  assert (H' : (binade x + 1 <= k)%Z) by lia.
  pose proof (pow2_le _ _ H'). lra.
Qed.

Section Format.

Variables prec emin emax : Z.
Hypothesis prec_pos : (0 < prec)%Z.

Lemma round_to_unfold (x : R) :
  round_to prec emin emax x
  = let y := IZR (rne (x / powerRZ 2 (ulp_exp prec emin x))) * powerRZ 2 (ulp_exp prec emin x) in
    if Rltb (Rabs y) (powerRZ 2 emax) then Fin y else Inf (sgn x).
Proof. reflexivity. Qed.

(** The rounded value, before the test for overflow, is within half a unit
    in the last place of [x]. *)
Lemma rounded_error (x : R) :
  Rabs (IZR (rne (x / powerRZ 2 (ulp_exp prec emin x))) * powerRZ 2 (ulp_exp prec emin x) - x)
  <= powerRZ 2 (ulp_exp prec emin x) / 2.
Proof.
  pose proof (pow2_pos (ulp_exp prec emin x)) as Hp.
  pose proof (rne_error (x / powerRZ 2 (ulp_exp prec emin x))) as He.
  set (t := x / powerRZ 2 (ulp_exp prec emin x)) in *.
  replace (IZR (rne t) * powerRZ 2 (ulp_exp prec emin x) - x)
    with ((IZR (rne t) - t) * powerRZ 2 (ulp_exp prec emin x)) by (unfold t; field; lra).
  rewrite Rabs_mult, (Rabs_pos_eq (powerRZ 2 (ulp_exp prec emin x))) by lra.
  apply Rle_trans with (/ 2 * powerRZ 2 (ulp_exp prec emin x)); [| lra].
  apply Rmult_le_compat_r; lra.
Qed.

(** A bound by a power of two is kept by the rounding. *)
Lemma rounded_bounded (x : R) (k : Z) :
  (emin <= k)%Z -> Rabs x <= powerRZ 2 k ->
  Rabs (IZR (rne (x / powerRZ 2 (ulp_exp prec emin x))) * powerRZ 2 (ulp_exp prec emin x)) <= powerRZ 2 k.
Proof.
  intros Hk Hx.
  pose proof (pow2_pos (ulp_exp prec emin x)) as Hp. pose proof (pow2_pos k) as Hpk.
  destruct (Req_dec x 0) as [-> | Hne].
  { unfold Rdiv. rewrite Rmult_0_l, (rne_IZR 0), Rmult_0_l, Rabs_R0. lra. }
  assert (He : (ulp_exp prec emin x <= k)%Z).
  { unfold ulp_exp. apply Z.max_lub; [| exact Hk].
    destruct (Rle_lt_or_eq_dec _ _ Hx) as [Hlt | Heq].
    - pose proof (binade_lt x k Hne Hlt). lia.
    - pose proof (binade_bounds x Hne) as [Hlo _]. rewrite Heq in Hlo.
      destruct (Z_lt_le_dec k (binade x)) as [H | H]; [exfalso | lia].
      pose proof (pow2_lt _ _ H). lra. }
  set (e := ulp_exp prec emin x) in *.
  assert (Hq : powerRZ 2 k = IZR (2 ^ (k - e)) * powerRZ 2 e).
  { rewrite <- pow2_IZR by lia. rewrite <- pow2_add. f_equal. lia. }
  assert (Hup : (rne (x / powerRZ 2 e) <= 2 ^ (k - e))%Z).
  { apply rne_le. apply Rmult_le_reg_r with (powerRZ 2 e); [exact Hp |].
    rewrite <- Hq. unfold Rdiv. rewrite Rmult_assoc, Rinv_l, Rmult_1_r by lra.
    apply Rle_trans with (Rabs x); [apply Rle_abs | exact Hx]. }
  assert (Hdn : (- 2 ^ (k - e) <= rne (x / powerRZ 2 e))%Z).
  { apply rne_ge. rewrite opp_IZR.
    apply Rmult_le_reg_r with (powerRZ 2 e); [exact Hp |].
    rewrite <- Ropp_mult_distr_l, <- Hq.
    unfold Rdiv. rewrite Rmult_assoc, Rinv_l, Rmult_1_r by lra.
    pose proof (Rle_abs (- x)) as Hn. rewrite Rabs_Ropp in Hn. lra. }
  rewrite Rabs_mult, (Rabs_pos_eq (powerRZ 2 e)) by lra. rewrite Hq.
  apply Rmult_le_compat_r; [lra |].
  apply Rabs_le. rewrite <- opp_IZR. split; apply IZR_le; lia.
Qed.

(** A value of at most [2^k], with [k] below [emax], is rounded to a finite
    value of at most [2^k], at a distance of at most [2^-prec] of its
    magnitude, or half the smallest positive value. *)
Lemma round_to_accurate (x : R) (k : Z) :
  (emin <= k < emax)%Z -> Rabs x <= powerRZ 2 k ->
  exists y,
    round_to prec emin emax x = Fin y
    /\ Rabs y <= powerRZ 2 k
    /\ Rabs (y - x) <= powerRZ 2 (- prec) * Rabs x + powerRZ 2 (emin - 1).
Proof.
  intros Hk Hx. rewrite round_to_unfold. cbv zeta.
  pose proof (rounded_bounded x k ltac:(lia) Hx) as Hb.
  pose proof (rounded_error x) as He.
  set (y := IZR (rne (x / powerRZ 2 (ulp_exp prec emin x))) * powerRZ 2 (ulp_exp prec emin x)) in *.
  exists y. rewrite Rltb_true.
  2:{ apply Rle_lt_trans with (powerRZ 2 k); [exact Hb | apply pow2_lt; lia]. }
  split; [reflexivity | split; [exact Hb |]].
  pose proof (Rabs_pos x) as Hax. pose proof (pow2_pos (- prec)) as Hpp.
  pose proof (pow2_pos (emin - 1)) as Hpe.
  assert (Hrel : 0 <= powerRZ 2 (- prec) * Rabs x) by (apply Rmult_le_pos; lra).
  destruct (Req_dec x 0) as [E | Hne].
  { assert (Ey : y = 0).
    { unfold y. rewrite E. unfold Rdiv. now rewrite Rmult_0_l, (rne_IZR 0), Rmult_0_l. }
    rewrite Ey, E, Rminus_0_r, Rabs_R0 in *. lra. }
  apply Rle_trans with (powerRZ 2 (ulp_exp prec emin x) / 2); [exact He |].
  assert (Hhalf : forall e, powerRZ 2 e / 2 = powerRZ 2 (e - 1)).
  { intros e. rewrite pow2_sub. simpl. lra. }
  rewrite Hhalf. unfold ulp_exp.
  destruct (Z.max_spec (binade x - (prec - 1)) emin) as [[Hlt ->] | [Hge ->]].
  - lra.
  - pose proof (binade_bounds x Hne) as [Hlo _].
    replace (binade x - (prec - 1) - 1)%Z with (- prec + binade x)%Z by lia.
    rewrite pow2_add.
    assert (0 <= powerRZ 2 (- prec) * (Rabs x - powerRZ 2 (binade x)))
      by (apply Rmult_le_pos; lra).
    lra.
Qed.

(** A value that the format holds is not changed. *)
Lemma round_to_0 : round_to prec emin emax 0 = Fin 0.
Proof.
  rewrite round_to_unfold. cbv zeta. unfold Rdiv.
  rewrite Rmult_0_l, (rne_IZR 0), Rmult_0_l, Rabs_R0.
  now rewrite Rltb_true by apply pow2_pos.
Qed.

Lemma round_to_exact (m e : Z) :
  (Z.abs m < 2 ^ prec)%Z -> (emin <= e)%Z ->
  Rabs (IZR m * powerRZ 2 e) < powerRZ 2 emax ->
  round_to prec emin emax (IZR m * powerRZ 2 e) = Fin (IZR m * powerRZ 2 e).
Proof.
  intros Hm He Hmax.
  destruct (Z.eq_dec m 0) as [-> | Hm0]; [rewrite Rmult_0_l; apply round_to_0 |].
  rewrite round_to_unfold. cbv zeta.
  set (x := IZR m * powerRZ 2 e) in *.
  pose proof (pow2_pos e) as Hpe. pose proof (pow2_pos (ulp_exp prec emin x)) as Hpu.
  assert (Hle : (ulp_exp prec emin x <= e)%Z).
  { unfold ulp_exp. apply Z.max_lub; [| exact He].
    assert (Hx : x <> 0).
    { unfold x. apply Rmult_integral_contrapositive_currified; [| lra].
      intros E. apply (eq_IZR m 0) in E. contradiction. }
    assert (Hlt : Rabs x < powerRZ 2 (prec + e)).
    { unfold x. rewrite Rabs_mult, (Rabs_pos_eq (powerRZ 2 e)), pow2_add by lra.
      apply Rmult_lt_compat_r; [exact Hpe |].
      rewrite <- abs_IZR, pow2_IZR by lia. now apply IZR_lt. }
    pose proof (binade_lt x _ Hx Hlt). lia. }
  assert (Eq : x / powerRZ 2 (ulp_exp prec emin x) = IZR (m * 2 ^ (e - ulp_exp prec emin x))).
  { rewrite mult_IZR, <- pow2_IZR by lia. rewrite pow2_sub. unfold x in *. field. lra. }
  assert (Ey : IZR (rne (x / powerRZ 2 (ulp_exp prec emin x))) * powerRZ 2 (ulp_exp prec emin x) = x).
  { rewrite Eq, rne_IZR, <- Eq. field. lra. }
  rewrite Ey. now rewrite Rltb_true.
Qed.

(** A value from [2^emax] on overflows. *)
Lemma round_to_overflow (x : R) :
  (emin <= emax)%Z -> powerRZ 2 emax <= Rabs x ->
  round_to prec emin emax x = Inf (sgn x).
Proof.
  intros Hee Hx. rewrite round_to_unfold. cbv zeta.
  pose proof (pow2_pos emax) as Hpm. pose proof (pow2_pos (ulp_exp prec emin x)) as Hp.
  assert (Hne : x <> 0) by (intros ->; rewrite Rabs_R0 in Hx; lra).
  pose proof (binade_ge x emax Hx) as Hb.
  pose proof (binade_bounds x Hne) as [Hlo _].
  rewrite Rltb_false; [reflexivity |].
  set (e := ulp_exp prec emin x) in *.
  destruct (Z_le_gt_dec e emax) as [He | He].
  - assert (Hq : powerRZ 2 emax = IZR (2 ^ (emax - e)) * powerRZ 2 e).
    { rewrite <- pow2_IZR by lia. rewrite <- pow2_add. f_equal. lia. }
    rewrite Rabs_mult, (Rabs_pos_eq (powerRZ 2 e)), Hq by lra.
    apply Rmult_le_compat_r; [lra |].
    rewrite <- abs_IZR. apply IZR_le. apply rne_abs_ge; [lia |].
    apply Rmult_le_reg_r with (powerRZ 2 e); [exact Hp |].
    rewrite <- Hq. unfold Rdiv.
    rewrite Rabs_mult, (Rabs_pos_eq (/ powerRZ 2 e)) by (left; now apply Rinv_0_lt_compat).
    rewrite Rmult_assoc, Rinv_l, Rmult_1_r by lra. exact Hx.
  - pose proof (rounded_error x) as Herr. fold e in Herr.
    assert (Hbe : (e <= binade x)%Z).
    { unfold e, ulp_exp.
      destruct (Z.max_spec (binade x - (prec - 1)) emin) as [[_ ->] | [_ ->]]; lia. }
    pose proof (pow2_le _ _ Hbe) as H1.
    assert (H2 : powerRZ 2 emax <= powerRZ 2 (e - 1)) by (apply pow2_le; lia).
    assert (H3 : powerRZ 2 (e - 1) = powerRZ 2 e / 2) by (rewrite pow2_sub; simpl; lra).
    set (y := IZR (rne (x / powerRZ 2 e)) * powerRZ 2 e) in *.
    assert (H4 : Rabs x - Rabs (y - x) <= Rabs y).
    { pose proof (Rabs_triang y (- (y - x))) as T.
      replace (y + - (y - x)) with x in T by lra.
      rewrite Rabs_Ropp in T. lra. }
    lra.
Qed.

(** A value below half of the smallest positive one is rounded to zero. *)
Lemma round_to_underflow (x : R) :
  Rabs x < powerRZ 2 (emin - 1) -> round_to prec emin emax x = Fin 0.
Proof.
  intros Hx. rewrite round_to_unfold. cbv zeta.
  destruct (Req_dec x 0) as [-> | Hne]; [apply round_to_0 |].
  assert (Hb : (binade x < emin - 1)%Z) by (apply binade_lt; assumption).
  assert (He : ulp_exp prec emin x = emin) by (unfold ulp_exp; lia).
  rewrite He. pose proof (pow2_pos emin) as Hp.
  assert (Hh : powerRZ 2 (emin - 1) = powerRZ 2 emin / 2) by (rewrite pow2_sub; simpl; lra).
  assert (Hr : rne (x / powerRZ 2 emin) = 0%Z).
  { assert (Habs : Rabs (x / powerRZ 2 emin) < / 2).
    { unfold Rdiv. rewrite Rabs_mult, (Rabs_pos_eq (/ powerRZ 2 emin)).
      - apply Rmult_lt_reg_r with (powerRZ 2 emin); [exact Hp |].
        rewrite Rmult_assoc, Rinv_l by lra. lra.
      - left. now apply Rinv_0_lt_compat. }
    pose proof (rne_error (x / powerRZ 2 emin)) as Herr.
    set (r := rne (x / powerRZ 2 emin)) in *.
    assert (H1 : IZR (-1) < IZR r /\ IZR r < IZR 1).
    { unfold Rabs in Habs, Herr.
      destruct (Rcase_abs (x / powerRZ 2 emin));
        destruct (Rcase_abs (IZR r - x / powerRZ 2 emin)); lra. }
    destruct H1 as [H1 H2]. apply lt_IZR in H1. apply lt_IZR in H2. lia. }
  rewrite Hr, Rmult_0_l, Rabs_R0.
  now rewrite Rltb_true by apply pow2_pos.
Qed.

End Format.

End BinaryRounding.

(** ** The formats of the language round as asked *)

Section Instances.

Local Open Scope R_scope.

Lemma round_to_rounds_like (prec emin emax : Z) (f : number -> number) :
  (0 < prec)%Z ->
  (forall a, f a = match a with Fin x => IEEE.round_to prec emin emax x | _ => a end) ->
  rounds_like prec emin emax f.
Proof.
  intros Hp Hf. repeat split.
  - intros x k Hk Hx. rewrite Hf. now apply round_to_accurate.
  - intros m e Hm He Hmax. rewrite Hf. now apply round_to_exact.
  - now rewrite Hf.
  - intros s. now rewrite Hf.
Qed.

Lemma fl64_rounds_to_double : rounds_to_double IEEE.fl64.
Proof. apply round_to_rounds_like; [lia | reflexivity]. Qed.

Lemma fround_rounds_to_single : rounds_to_single IEEE.fround.
Proof. apply round_to_rounds_like; [lia | reflexivity]. Qed.

Lemma exact_rounds_like (prec emin emax : Z) : rounds_like prec emin emax exact.
Proof.
  repeat split; try reflexivity.
  intros x k Hk Hx. exists x. split; [reflexivity | split; [exact Hx |]].
  replace (x - x) with 0 by lra. rewrite Rabs_R0.
  pose proof (pow2_pos (- prec)). pose proof (pow2_pos (emin - 1)).
  pose proof (Rabs_pos x).
  assert (0 <= powerRZ 2 (- prec) * Rabs x) by (apply Rmult_le_pos; lra). lra.
Qed.

Section Consequences.

Variables prec emin emax : Z.
Variable fl : number -> number.
Hypothesis Hfl : rounds_like prec emin emax fl.
Hypothesis Hprec : (0 < prec)%Z.
Hypothesis Hemin : (emin <= 0)%Z.
Hypothesis Hemax : (prec < emax)%Z.

Lemma rounds_like_0 : fl (Fin 0) = Fin 0.
Proof.
  destruct Hfl as (_ & He & _).
  replace 0 with (IZR 0 * powerRZ 2 0) by (simpl; lra).
  apply He; [simpl; apply Z.pow_pos_nonneg; lia | exact Hemin |].
  rewrite Rmult_0_l, Rabs_R0. apply pow2_pos.
Qed.

(** Integers of at most [prec] binary digits are kept. *)
Lemma rounds_like_Z (z : Z) : (Z.abs z <= 2 ^ prec)%Z -> fl (of_Z z) = of_Z z.
Proof.
  intros Hz. destruct Hfl as (_ & He & _). unfold of_Z.
  destruct (Z.eq_dec (Z.abs z) (2 ^ prec)) as [E | E].
  - assert (Hs : (z = 2 ^ prec \/ z = - 2 ^ prec)%Z) by lia.
    assert (Ez : IZR z = IZR (Z.sgn z) * powerRZ 2 prec).
    { rewrite pow2_IZR by lia. rewrite <- mult_IZR. f_equal.
      assert (0 < 2 ^ prec)%Z by (apply Z.pow_pos_nonneg; lia).
      destruct Hs as [-> | ->]; [rewrite Z.sgn_pos by lia | rewrite Z.sgn_neg by lia]; lia. }
    rewrite Ez. apply He.
    + assert (1 < 2 ^ prec)%Z by (apply Z.pow_gt_1; lia). lia.
    + lia.
    + rewrite Rabs_mult, (Rabs_pos_eq (powerRZ 2 prec)) by (left; apply pow2_pos).
      rewrite <- abs_IZR.
      assert (Ha : Z.abs (Z.sgn z) = 1%Z).
      { assert (0 < 2 ^ prec)%Z by (apply Z.pow_pos_nonneg; lia). lia. }
      rewrite Ha, Rmult_1_l. apply pow2_lt. lia.
  - replace (IZR z) with (IZR z * powerRZ 2 0) by (simpl; lra).
    apply He; [lia | exact Hemin |].
    simpl. rewrite Rmult_1_r, <- abs_IZR.
    apply Rlt_trans with (powerRZ 2 prec).
    + rewrite pow2_IZR by lia. apply IZR_lt. lia.
    + apply pow2_lt. lia.
Qed.

End Consequences.

Lemma cos64_in_range : cosine_in_range cos64.
Proof.
  intros x. unfold cos64. cbn [JS.Math_cos IEEE.fl64].
  destruct (round_to_accurate 53 (-1074) 1024 ltac:(lia) (cos x) 0 ltac:(lia))
    as (y & Hy & Hb & _).
  - simpl. pose proof (COS_bound x). apply Rabs_le. lra.
  - exists y. split; [exact Hy | simpl in Hb; exact Hb].
Qed.

End Instances.

(** * The detector in rounded arithmetic *)

Section RoundedDetector.

Local Open Scope list_scope.
Local Open Scope Z_scope.

Variable fl : number -> number.
Variable fround : number -> number.
Variable cosine : number -> number.

Lemma rounded_length_window_from (len i : nat) (buf : list number) :
  List.length (Rounded.window_from fl fround cosine len i buf) = List.length buf.
Proof. revert i. induction buf; intros i; simpl; [reflexivity | now rewrite IHbuf]. Qed.

Lemma rounded_length_hannWindow (buf : list number) :
  List.length (Rounded.hannWindow fl fround cosine buf) = List.length buf.
Proof. apply rounded_length_window_from. Qed.

Lemma rounded_nth_error_window_from (len i k : nat) (buf : list number) :
  nth_error (Rounded.window_from fl fround cosine len i buf) k
  = option_map (fun v => fround (Rounded.mul fl v (Rounded.hann fl cosine len (i + k))))
      (nth_error buf k).
Proof.
  revert i k. induction buf as [| v buf IH]; intros i k; simpl.
  - destruct k; reflexivity.
  - destruct k; simpl.
    + now rewrite Nat.add_0_r.
    + rewrite IH. now rewrite Nat.add_succ_r.
Qed.

Lemma rounded_length_autocorrelation (w : list number) :
  List.length (Rounded.autocorrelation fl fround w) = List.length w.
Proof. unfold Rounded.autocorrelation. now rewrite length_map, length_seq. Qed.

Lemma rounded_get_autocorrelation (w : list number) (lag : Z) :
  0 <= lag < Z.of_nat (List.length w) ->
  get (Rounded.autocorrelation fl fround w) lag
  = Some (fround (Rounded.acSum fl w (List.length w) (Z.to_nat lag))).
Proof.
  intros Hlag. unfold get.
  destruct (lag <? 0) eqn:E; [apply Z.ltb_lt in E; lia |].
  unfold Rounded.autocorrelation. rewrite nth_error_map.
  assert (Hn : (Z.to_nat lag < List.length w)%nat) by lia.
  rewrite (nth_error_nth' _ 0%nat) by (rewrite length_seq; exact Hn).
  rewrite seq_nth by exact Hn. reflexivity.
Qed.

Lemma rounded_detect_eq (buf : list number) (sampleRate : number) :
  Rounded.detectPitchAutoCorrelation fl fround cosine buf sampleRate
  = (if Rounded.isSilence fl fround cosine buf then None
     else
       let ac := Rounded.autocorrelation fl fround (Rounded.hannWindow fl fround cosine buf) in
       if (Rounded.peakLagOf fl ac sampleRate <=? 0)%Z then None
       else if rejected (Rounded.candidateOf fl fround cosine buf sampleRate) then None
       else Some (Rounded.candidateOf fl fround cosine buf sampleRate),
     Rounded.hannWindow fl fround cosine buf).
Proof.
  unfold Rounded.isSilence, Rounded.candidateOf, Rounded.peakLagOf, Rounded.rmsOf.
  cbv zeta. rewrite rounded_length_autocorrelation.
  unfold Rounded.detectPitchAutoCorrelation. cbv zeta.
  destruct (Rounded.Math_sqrt _ _ <? _)%js; [reflexivity |].
  fold (Rounded.minLagOf fl sampleRate). fold (Rounded.maxLagOf fl sampleRate).
  destruct (fst (findPeak _ _ _) <=? 0)%Z; [reflexivity |].
  unfold Rounded.shiftOf, Rounded.denomOf, y1Of, y2Of, y3Of, rejected.
  destruct (negb _ || _ || _); reflexivity.
Qed.

(** A value above the sentinel is read inside the array. *)
Lemma above_sentinel_in_bounds (ac : list number) (lag : Z) :
  (valAt ac lag >? Inf true)%js = true -> 0 <= lag < Z.of_nat (List.length ac).
Proof.
  unfold valAt, get. destruct (lag <? 0) eqn:E; [discriminate |].
  apply Z.ltb_ge in E.
  destruct (nth_error ac (Z.to_nat lag)) eqn:En; [| discriminate].
  intros _.
  assert (H : (Z.to_nat lag < List.length ac)%nat)
    by (apply nth_error_Some; congruence).
  lia.
Qed.

Lemma In_lags (lo hi : number) (lag : Z) :
  In lag (lags lo hi) ->
  exists a b, lo = Fin a /\ hi = Fin b /\ Zfloor a <= lag < Zceil b.
Proof.
  unfold lags. destruct lo as [| | a]; try (intros []); destruct hi as [| | b]; try (intros []).
  rewrite in_map_iff. intros (k & <- & Hk). apply in_seq in Hk.
  exists a, b. repeat split; lia.
Qed.

Lemma Math_min_size (m : number) (size : nat) (b : R) :
  Math_min m (of_nat size) = Fin b -> Zceil b <= Z.of_nat size.
Proof.
  assert (Hs : Zceil (INR size) = Z.of_nat size).
  { rewrite INR_IZR_INZ. unfold Zceil. rewrite <- opp_IZR, ZfloorZ. lia. }
  unfold Math_min, of_nat.
  destruct m as [| s | x]; [discriminate | |].
  - destruct s; cbn; intros E; inversion E; subst; lia.
  - rewrite lt_Fin. destruct (Rltb (INR size) x) eqn:E; intros H; inversion H; subst.
    + lia.
    + rewrite <- Hs. unfold Zceil.
      assert (b <= INR size)%R.
      { destruct (Rlt_dec (INR size) b) as [Hlt | Hge]; [| lra].
        apply Rltb_iff_lt in Hlt. congruence. }
      assert (Zfloor (- INR size) <= Zfloor (- b)) by (apply Zfloor_le; lra). lia.
Qed.

Lemma rounded_searchLags_below_size (size : nat) (sampleRate : number) (lag : Z) :
  In lag (Rounded.searchLags fl size sampleRate) -> lag < Z.of_nat size.
Proof.
  intros Hin. apply In_lags in Hin as (a & b & _ & Hb & Hlag).
  apply Math_min_size in Hb. lia.
Qed.

(** The peak search over the stored array. *)
Lemma rounded_findPeak_argmax (ac : list number) (sampleRate : number) :
  let range := Rounded.searchLags fl (List.length ac) sampleRate in
  let peakLag := Rounded.peakLagOf fl ac sampleRate in
  (peakLag = -1
   /\ forall lag, In lag range -> (valAt ac lag >? Inf true)%js = false)
  \/ (exists pre post,
        range = pre ++ peakLag :: post
        /\ (valAt ac peakLag >? Inf true)%js = true
        /\ (forall lag, In lag range -> (valAt ac lag >? valAt ac peakLag)%js = false)
        /\ (forall lag, In lag pre ->
              (valAt ac lag <? valAt ac peakLag)%js = true \/ valAt ac lag = NaN)).
Proof.
  intros range peakLag.
  pose proof (findPeak_inv ac (Rounded.minLagOf fl sampleRate)
                (Math_min (Rounded.maxLagOf fl sampleRate) (of_nat (List.length ac))))
    as [HA HB].
  fold (Rounded.searchLags fl (List.length ac) sampleRate) in HA, HB. fold range in HA, HB.
  unfold Rounded.peakLagOf in peakLag. fold peakLag in HB.
  destruct HB as [[Hp Hv] | (Hv & Hg & pre & post & Hd & Hpre)].
  - left. split; [exact Hp |]. intros lag Hin. rewrite <- Hv. apply HA; exact Hin.
  - right. exists pre, post. rewrite <- Hv. auto.
Qed.

Lemma rounded_peakLag_nonpositive (ac : list number) (sampleRate : number) :
  let range := Rounded.searchLags fl (List.length ac) sampleRate in
  let peakLag := Rounded.peakLagOf fl ac sampleRate in
  peakLag <= 0
  <-> (forall lag, In lag range -> (valAt ac lag >? Inf true)%js = false)
      \/ peakLag = 0.
Proof.
  intros range peakLag.
  destruct (rounded_findPeak_argmax ac sampleRate) as [[Hp Hall] | (pre & post & Hd & Hg & _)];
    fold range in Hall || fold range in Hd; fold peakLag in Hp || fold peakLag in Hd, Hg.
  - split; [intros _; left; exact Hall | lia].
  - assert (Hin : In peakLag range) by (rewrite Hd; apply in_elt).
    pose proof (above_sentinel_in_bounds _ _ Hg) as Hb.
    split.
    + intros Hle. right. lia.
    + intros [Hall | H0]; [| lia].
      rewrite (Hall _ Hin) in Hg. discriminate.
Qed.

End RoundedDetector.

(** ** Without rounding, the definitions are those of the exact model *)

Section NoRounding.

Local Open Scope list_scope.

Lemma exact_window_from (len i : nat) (buf : list number) :
  Rounded.window_from exact exact JS.Math_cos len i buf = window_from len i buf.
Proof.
  revert i. induction buf as [| x buf IH]; intros i; [reflexivity |].
  cbn [Rounded.window_from window_from]. now rewrite IH.
Qed.

Lemma exact_hannWindow (buf : list number) :
  Rounded.hannWindow exact exact JS.Math_cos buf = hannWindow buf.
Proof. apply exact_window_from. Qed.

Lemma exact_autocorrelation (w : list number) :
  Rounded.autocorrelation exact exact w = autocorrelation w.
Proof. reflexivity. Qed.

Lemma exact_peakLagOf (ac : list number) (sampleRate : number) :
  Rounded.peakLagOf exact ac sampleRate = peakLagOf ac sampleRate.
Proof. reflexivity. Qed.

Lemma exact_searchLags (size : nat) (sampleRate : number) :
  Rounded.searchLags exact size sampleRate = searchLags size sampleRate.
Proof. reflexivity. Qed.

Lemma exact_isSilence (buf : list number) :
  Rounded.isSilence exact exact JS.Math_cos buf = isSilence buf.
Proof. unfold Rounded.isSilence. now rewrite exact_hannWindow. Qed.

Lemma exact_candidateOf (buf : list number) (sampleRate : number) :
  Rounded.candidateOf exact exact JS.Math_cos buf sampleRate = candidateOf buf sampleRate.
Proof. unfold Rounded.candidateOf. now rewrite exact_hannWindow. Qed.

Lemma exact_detectPitchAutoCorrelation (buf : list number) (sampleRate : number) :
  Rounded.detectPitchAutoCorrelation exact exact JS.Math_cos buf sampleRate
  = detectPitchAutoCorrelation buf sampleRate.
Proof.
  rewrite rounded_detect_eq, detect_eq.
  cbv zeta. now rewrite exact_isSilence, exact_candidateOf, exact_hannWindow.
Qed.

End NoRounding.

(** ** The peak picker and the refiner *)

Section PeakPickerRounded.

Local Open Scope list_scope.
Local Open Scope Z_scope.

Variable fl : number -> number.
Variable fround : number -> number.
Variable cosine : number -> number.

Lemma Math_floor_Fin (a : number) (k : R) :
  Math_floor a = Fin k -> exists q, a = Fin q /\ k = IZR (Zfloor q).
Proof. destruct a as [| s | q]; try discriminate. intros E. inversion E. eauto. Qed.

Lemma rounded_peakLag_zero (ac : list number) (sampleRate : number) :
  Rounded.peakLagOf fl ac sampleRate = 0 ->
  In 0 (Rounded.searchLags fl (List.length ac) sampleRate)
  /\ exists q, Rounded.div fl sampleRate (#1000)%js = Fin q /\ (q < 1)%R.
Proof.
  intros H0.
  destruct (rounded_findPeak_argmax fl ac sampleRate) as [[Hp _] | (pre & post & Hd & _)].
  - rewrite H0 in Hp. discriminate.
  - rewrite H0 in Hd.
    assert (Hin : In 0 (Rounded.searchLags fl (List.length ac) sampleRate))
      by (rewrite Hd; apply in_elt).
    split; [exact Hin |].
    apply In_lags in Hin as (a & b & Ha & _ & Hlo & _).
    apply Math_floor_Fin in Ha as (q & Hq & ->).
    exists q. split; [exact Hq |].
    rewrite ZfloorZ in Hlo.
    pose proof (Zfloor_bound q) as [_ Hhi].
    assert (IZR (Zfloor q) <= 0)%R by (apply (IZR_le _ 0); exact Hlo). lra.
Qed.

(** C1, as amended: the peak search runs over the array [ac] as it is
    stored, whatever the rounding.  It selects the first lag of the range
    [minLag, min(maxLag, N)) whose stored value no other lag of the range
    exceeds, every earlier lag having a smaller value (or NaN), and keeps
    [peakLag = -1] when no lag of the range has a stored value above the
    sentinel.  The detector gives up at this stage exactly when
    [peakLag <= 0]: when no lag has a value above the sentinel, or when the
    peak is lag 0, which needs the quotient [sampleRate / 1000], as computed,
    to be below 1.  Otherwise the neighbours [y1] and [y2] are read inside
    the array, [y3] is 0 when [peakLag + 1] is outside, the shift is
    [0.5 * (y1 - y3) / (y1 - 2 * y2 + y3)] when that denominator, as
    computed, is neither zero nor NaN and 0 otherwise, and the frequency
    estimate is [R / (peakLag + shift)], every operation rounded, returned
    when it passes the final test. *)
Theorem C1_peak_picker_and_refiner (buf : list number) (sampleRate : number) :
  let ac := Rounded.autocorrelation fl fround (Rounded.hannWindow fl fround cosine buf) in
  let range := Rounded.searchLags fl (List.length buf) sampleRate in
  let peakLag := Rounded.peakLagOf fl ac sampleRate in
  ((peakLag = -1
    /\ forall lag, In lag range -> (valAt ac lag >? Inf true)%js = false)
   \/ (exists pre post,
         range = pre ++ peakLag :: post
         /\ (valAt ac peakLag >? Inf true)%js = true
         /\ (forall lag, In lag range -> (valAt ac lag >? valAt ac peakLag)%js = false)
         /\ (forall lag, In lag pre ->
               (valAt ac lag <? valAt ac peakLag)%js = true \/ valAt ac lag = NaN)))
  /\ (peakLag <= 0
      <-> (forall lag, In lag range -> (valAt ac lag >? Inf true)%js = false)
          \/ peakLag = 0)
  /\ (peakLag = 0 ->
      In 0 range
      /\ exists q, Rounded.div fl sampleRate (#1000)%js = Fin q /\ (q < 1)%R)
  /\ (0 < peakLag ->
      (exists v1 v2, get ac (peakLag - 1) = Some v1 /\ get ac peakLag = Some v2)
      /\ (get ac (peakLag + 1) = None <-> peakLag + 1 = Z.of_nat (List.length buf)))
  /\ (Rounded.isSilence fl fround cosine buf = false ->
      fst (Rounded.detectPitchAutoCorrelation fl fround cosine buf sampleRate)
      = if peakLag <=? 0 then None
        else
          let y1 := (get ac (peakLag - 1) ?? #0)%js in
          let y2 := valAt ac peakLag in
          let y3 := (get ac (peakLag + 1) ?? #0)%js in
          let denom := Rounded.add fl (Rounded.sub fl y1 (Rounded.mul fl (#2)%js y2)) y3 in
          let shift :=
            if truthy denom
            then Rounded.div fl (Rounded.mul fl (#0.5)%js (Rounded.sub fl y1 y3)) denom
            else (#0)%js in
          let freq := Rounded.div fl sampleRate (Rounded.add fl (of_Z peakLag) shift) in
          if rejected freq then None else Some freq).
Proof.
  intros ac range peakLag.
  assert (Hlen : List.length ac = List.length buf).
  { unfold ac. now rewrite rounded_length_autocorrelation, rounded_length_hannWindow. }
  pose proof (rounded_findPeak_argmax fl ac sampleRate) as Harg.
  pose proof (rounded_peakLag_nonpositive fl ac sampleRate) as Hnp.
  pose proof (rounded_peakLag_zero ac sampleRate) as Hz.
  cbv zeta in Harg, Hnp. rewrite Hlen in Harg, Hnp, Hz.
  fold range in Harg, Hnp, Hz. fold peakLag in Harg, Hnp, Hz.
  split; [exact Harg | split; [exact Hnp | split; [exact Hz | split]]].
  - intros Hpos.
    destruct Harg as [[Hp _] | (pre & post & Hd & Hg & _)]; [lia |].
    assert (Hin : In peakLag range) by (rewrite Hd; apply in_elt).
    pose proof (rounded_searchLags_below_size _ _ _ _ Hin) as Hb.
    split.
    + destruct (get_in_bounds ac (peakLag - 1)) as [v1 Hv1]; [lia |].
      destruct (get_in_bounds ac peakLag) as [v2 Hv2]; [lia |].
      eauto.
    + rewrite get_out_of_bounds by lia. lia.
  - intros Hs. rewrite rounded_detect_eq, Hs. cbn [fst]. cbv zeta.
    fold ac. fold peakLag.
    destruct (peakLag <=? 0); reflexivity.
Qed.

End PeakPickerRounded.

Lemma C1_peak_picker_and_refiner_witness :
  fst (Rounded.detectPitchAutoCorrelation exact exact JS.Math_cos
         [Fin 0; Fin 1; Fin 0] (Fin 1320)) = Some (Fin 880).
Proof.
  destruct (C1_peak_picker_and_refiner exact exact JS.Math_cos
              [Fin 0; Fin 1; Fin 0] (Fin 1320)) as (_ & _ & _ & _ & H).
  rewrite H by (rewrite exact_isSilence; apply isSilence_3_unit).
  rewrite exact_hannWindow, exact_autocorrelation, exact_peakLagOf.
  rewrite hannWindow_3, autocorrelation_3, peakLagOf_3_1320.
  cbn [Z.leb Z.compare].
  pose proof candidateOf_3_1320 as E. unfold candidateOf in E.
  rewrite hannWindow_3, autocorrelation_3, peakLagOf_3_1320 in E.
  unfold shiftOf, denomOf, y1Of, y2Of, y3Of in E. fold (valAt [Fin (1 * 1); Fin 0; Fin 0] 1) in E.
  cbv zeta. unfold Rounded.add, Rounded.sub, Rounded.mul, Rounded.div, exact. rewrite E.
  assert (Er : rejected (Fin 880) = false)
    by (apply rejected_false_iff; exists 880%R; split; [reflexivity | lra]).
  now rewrite Er.
Defined.

(** ** The autocorrelation over the search range *)

Section AutocorrelationRounded.

Local Open Scope list_scope.
Local Open Scope Z_scope.

Variable fl : number -> number.
Variable fround : number -> number.
Variable cosine : number -> number.

Lemma In_lags_Z (a b lag : Z) (lo hi : number) :
  lo = of_Z a -> hi = of_Z b -> (In lag (lags lo hi) <-> a <= lag < b).
Proof. intros -> ->. apply In_lags_of_Z. Qed.

(** With no rounding the inner loop computes the unnormalised sum. *)
Lemma exact_acSum (w : list R) (lag : nat) :
  (lag < List.length w)%nat ->
  Rounded.acSum exact (map Fin w) (List.length w) lag = Fin (autocorrelation_spec w lag).
Proof. intros Hlag. now rewrite <- acSum_Fin. Qed.

(** C4, as amended: [minLag] and [maxLag] are the floors of the quotients
    [R / 1000] and [R / 70] as computed, the lags searched are those from
    [minLag] up to, not including, [min maxLag N], and for each of them the
    value that the peak search reads, and that the detector goes by, is the
    entry of the [Float32Array]: the sum of [x[i] * x[i + lag]] for [i] from
    0 to [N - 1 - lag], accumulated from the left in double arithmetic and
    converted on the store.  The peak is a lag of the range whose stored
    value no other lag of the range exceeds, or -1 when no stored value is
    above the sentinel.  With no rounding the stored value is the
    unnormalised sum itself. *)
Theorem C4_autocorrelation_over_search_range (buf : list number) (sampleRate : number) :
  let x := Rounded.hannWindow fl fround cosine buf in
  let N := List.length buf in
  let ac := Rounded.autocorrelation fl fround x in
  let minLag := Math_floor (Rounded.div fl sampleRate (#1000)%js) in
  let maxLag := Math_floor (Rounded.div fl sampleRate (#70)%js) in
  let range := Rounded.searchLags fl N sampleRate in
  let peakLag := Rounded.peakLagOf fl ac sampleRate in
  range = lags minLag (Math_min maxLag (of_nat N))
  /\ (forall a b, minLag = of_Z a -> Math_min maxLag (of_nat N) = of_Z b ->
        forall lag, In lag range <-> a <= lag < b)
  /\ (forall lag, In lag range -> 0 <= lag ->
        lag < Z.of_nat N
        /\ valAt ac lag = fround (Rounded.acSum fl x N (Z.to_nat lag)))
  /\ peakLag = fst (fold_left (peakStep ac) range (-1, Inf true))
  /\ ((peakLag = -1
       /\ forall lag, In lag range -> (valAt ac lag >? Inf true)%js = false)
      \/ (In peakLag range
          /\ 0 <= peakLag
          /\ (valAt ac peakLag >? Inf true)%js = true
          /\ forall lag, In lag range -> (valAt ac lag >? valAt ac peakLag)%js = false))
  /\ (Rounded.isSilence fl fround cosine buf = false ->
      fst (Rounded.detectPitchAutoCorrelation fl fround cosine buf sampleRate)
      = if peakLag <=? 0 then None
        else if rejected (Rounded.candidateOf fl fround cosine buf sampleRate) then None
        else Some (Rounded.candidateOf fl fround cosine buf sampleRate))
  /\ (forall (w : list R) (lag : nat), (lag < List.length w)%nat ->
        Rounded.acSum exact (map Fin w) (List.length w) lag
        = Fin (autocorrelation_spec w lag)).
Proof.
  intros x N ac minLag maxLag range peakLag.
  assert (Hx : List.length x = N) by apply rounded_length_hannWindow.
  assert (Hlen : List.length ac = N).
  { unfold ac. now rewrite rounded_length_autocorrelation. }
  split; [reflexivity |].
  split; [intros a b Ha Hb lag; now apply In_lags_Z |].
  split; [| split; [| split; [| split]]].
  - intros lag Hin Hpos.
    pose proof (rounded_searchLags_below_size _ _ _ _ Hin) as Hlt.
    split; [exact Hlt |].
    unfold valAt, ac. rewrite rounded_get_autocorrelation by lia.
    now rewrite Hx.
  - unfold peakLag, Rounded.peakLagOf, findPeak. now rewrite Hlen.
  - pose proof (rounded_findPeak_argmax fl ac sampleRate) as Harg.
    cbv zeta in Harg. rewrite Hlen in Harg. fold range in Harg. fold peakLag in Harg.
    destruct Harg as [Hnone | (pre & post & Hd & Hv & Hmax & _)]; [left; exact Hnone |].
    right. split; [rewrite Hd; apply in_elt |].
    split; [apply (above_sentinel_in_bounds ac), Hv |].
    split; [exact Hv | exact Hmax].
  - intros Hs. rewrite rounded_detect_eq, Hs. cbn [fst]. cbv zeta.
    fold x. fold ac. fold peakLag. reflexivity.
  - exact exact_acSum.
Qed.

End AutocorrelationRounded.

Lemma C4_autocorrelation_over_search_range_witness :
  let ac :=
    Rounded.autocorrelation exact exact
      (Rounded.hannWindow exact exact JS.Math_cos [Fin 0; Fin 1; Fin 0]) in
  valAt ac 1 = Fin (autocorrelation_spec [0; 1; 0]%R 1)
  /\ fst (fold_left (peakStep ac) (Rounded.searchLags exact 3 (Fin 1320))
            ((-1)%Z, Inf true))
     = 1%Z.
Proof.
  destruct (C4_autocorrelation_over_search_range exact exact JS.Math_cos
              [Fin 0; Fin 1; Fin 0] (Fin 1320)) as (_ & _ & H & Hfold & _ & _ & Hsum).
  split.
  - destruct (H 1%Z) as [_ Hv].
    + rewrite exact_searchLags. cbn [List.length]. rewrite searchLags_3_1320. now left.
    + lia.
    + rewrite Hv. unfold exact at 1. rewrite exact_hannWindow, hannWindow_3.
      apply (Hsum [0; 1; 0]%R 1%nat). simpl. lia.
  - etransitivity; [symmetry; exact Hfold |].
    rewrite exact_peakLagOf, exact_autocorrelation, exact_hannWindow.
    rewrite hannWindow_3, autocorrelation_3. apply peakLagOf_3_1320.
Defined.

Section BinaryValues.

Local Open Scope R_scope.

Lemma binary64_dyadic (m e : Z) :
  (Z.abs m < 2 ^ 53)%Z -> (-1074 <= e)%Z ->
  Rabs (IZR m * powerRZ 2 e) < powerRZ 2 1024 ->
  IEEE.binary64 (IZR m * powerRZ 2 e) = Fin (IZR m * powerRZ 2 e).
Proof. apply round_to_exact. lia. Qed.

(** A real that is written otherwise than as [m * 2^e]. *)
Lemma binary64_holds (x : R) (m e : Z) :
  x = IZR m * powerRZ 2 e ->
  (Z.abs m < 2 ^ 53)%Z -> (-1074 <= e <= 970)%Z ->
  IEEE.binary64 x = Fin x.
Proof.
  intros -> Hm He. apply binary64_dyadic; [exact Hm | lia |].
  rewrite Rabs_mult, (Rabs_pos_eq (powerRZ 2 e)) by (left; apply pow2_pos).
  apply Rlt_le_trans with (powerRZ 2 53 * powerRZ 2 e).
  - apply Rmult_lt_compat_r; [apply pow2_pos |].
    rewrite <- abs_IZR, pow2_IZR by lia. now apply IZR_lt.
  - rewrite <- pow2_add. apply pow2_le. lia.
Qed.

Lemma binade_eq (x : R) (k : Z) :
  powerRZ 2 k <= Rabs x < powerRZ 2 (k + 1) -> IEEE.binade x = k.
Proof.
  intros [Hlo Hhi]. pose proof (pow2_pos k) as Hp.
  assert (Hx : x <> 0) by (intros ->; rewrite Rabs_R0 in Hlo; lra).
  pose proof (binade_ge x k Hlo). pose proof (binade_lt x (k + 1) Hx Hhi). lia.
Qed.

End BinaryValues.

Section StoredSum.

Local Open Scope R_scope.

Lemma binary64_0 : IEEE.binary64 0 = Fin 0.
Proof. apply round_to_0. Qed.

Lemma binary64_pow2 (k : Z) : (-1074 <= k <= 1023)%Z -> IEEE.binary64 (powerRZ 2 k) = Fin (powerRZ 2 k).
Proof.
  intros Hk. replace (powerRZ 2 k) with (IZR 1 * powerRZ 2 k) at 1 2 by lra.
  apply binary64_dyadic; [reflexivity | lia |].
  rewrite Rmult_1_l, Rabs_pos_eq by (left; apply pow2_pos). apply pow2_lt. lia.
Qed.

Lemma binary32_overflow (x : R) :
  powerRZ 2 128 <= Rabs x -> IEEE.binary32 x = Inf (sgn x).
Proof. apply round_to_overflow; lia. Qed.

(** The sum of squares of the windowed signal [0, 2^100, 0] is [2^200]; the
    entry stored for lag 0 is [+Infinity]. *)
Lemma big_square_stored :
  valAt (Rounded.autocorrelation IEEE.fl64 IEEE.fround
           [Fin 0; Fin (powerRZ 2 100); Fin 0]) 0 = Inf false.
Proof.
  unfold valAt. rewrite rounded_get_autocorrelation by (simpl; lia).
  cbn [toNumber nullish List.length Z.to_nat].
  unfold Rounded.acSum. cbn [Nat.sub seq fold_left nth_error Nat.add toNumber nullish].
  unfold Rounded.add, Rounded.mul.
  rewrite !mul_Fin. cbn [IEEE.fl64].
  replace (0 * 0) with 0 by lra. rewrite binary64_0, add_Fin. cbn [IEEE.fl64].
  replace (0 + 0) with 0 by lra. rewrite binary64_0.
  rewrite <- pow2_add. cbn [Z.add Pos.add Pos.succ].
  rewrite binary64_pow2 by lia. rewrite add_Fin. cbn [IEEE.fl64].
  rewrite Rplus_0_l, binary64_pow2 by lia.
  rewrite add_Fin. cbn [IEEE.fl64]. rewrite Rplus_0_r, binary64_pow2 by lia.
  cbn [IEEE.fround]. rewrite binary32_overflow.
  - unfold sgn. rewrite Rltb_false; [reflexivity |]. left. apply pow2_pos.
  - rewrite Rabs_pos_eq by (left; apply pow2_pos). apply pow2_le. lia.
Qed.

Lemma big_square_sum : autocorrelation_spec [0; powerRZ 2 100; 0] 0 = powerRZ 2 200.
Proof.
  unfold autocorrelation_spec. cbn [List.length Nat.sub sum_f_R0 nth Nat.add].
  replace 200%Z with (100 + 100)%Z by reflexivity. rewrite pow2_add. lra.
Qed.

End StoredSum.

(** Powers of two with a literal exponent, made explicit. *)
Ltac pow2_values :=
  repeat match goal with
         | |- context [powerRZ 2 ?z] =>
             let z' := eval compute in z in
             progress change (powerRZ 2 z) with (powerRZ 2 z')
         end;
  unfold powerRZ;
  repeat match goal with
         | |- context [Pos.to_nat ?p] =>
             let n := eval compute in (Pos.to_nat p) in
             change (Pos.to_nat p) with n
         end.

Section StoredSumRanges.

Local Open Scope R_scope.

Lemma pow2_small (k : Z) : (k <= -10)%Z -> powerRZ 2 k <= / 1000.
Proof.
  intros Hk. apply Rle_trans with (powerRZ 2 (-10)); [now apply pow2_le |].
  pow2_values. lra.
Qed.

Lemma binary64_near (x : R) (k : Z) :
  (-1074 <= k < 1024)%Z -> Rabs x <= powerRZ 2 k ->
  exists y, IEEE.binary64 x = Fin y
            /\ Rabs y <= powerRZ 2 k
            /\ Rabs (y - x) <= Rabs x / 1000 + / 1000.
Proof.
  intros Hk Hx.
  destruct (round_to_accurate 53 (-1074) 1024 ltac:(lia) x k Hk Hx) as (y & Hy & Hb & He).
  exists y. split; [exact Hy | split; [exact Hb |]].
  pose proof (pow2_small (Z.opp 53) ltac:(lia)). pose proof (pow2_small (-1074 - 1) ltac:(lia)).
  pose proof (Rabs_pos x).
  assert (powerRZ 2 (Z.opp 53) * Rabs x <= / 1000 * Rabs x) by (apply Rmult_le_compat_r; lra).
  lra.
Qed.

Lemma binary64_searchLags_3_500 :
  Rounded.searchLags IEEE.fl64 3 (Fin 500) = [0; 1; 2]%Z.
Proof.
  unfold Rounded.searchLags, Rounded.minLagOf, Rounded.maxLagOf, Rounded.div.
  rewrite !div_Fin by lra. cbn [IEEE.fl64].
  assert (E : IEEE.binary64 (500 / 1000) = Fin (500 / 1000)).
  { apply (binary64_holds _ 1 (-1)); [| reflexivity | lia].
    pow2_values. lra. }
  rewrite E.
  destruct (binary64_near (500 / 70) 3 ltac:(lia)) as (y & -> & _ & Hy).
  { rewrite Rabs_pos_eq by lra. pow2_values. lra. }
  rewrite (Rabs_pos_eq (500 / 70)) in Hy by lra.
  assert (Hyb : 7 <= y < 8) by (unfold Rabs in Hy; destruct (Rcase_abs (y - 500 / 70)); lra).
  unfold Math_floor. rewrite (Zfloor_eq 0) by lra. rewrite (Zfloor_eq 7) by lra.
  unfold of_nat. rewrite Math_min_Fin.
  change (Fin 0) with (of_Z 0).
  replace (Rmin 7 (INR 3)) with (IZR 3) by (simpl; rewrite Rmin_right; lra).
  change (Fin (IZR 3)) with (of_Z 3).
  rewrite lags_of_Z. reflexivity.
Qed.

Lemma pow2_m23 : powerRZ 2 (-23) = / 8388608.
Proof. pow2_values. lra. Qed.

Lemma pow2_m46 : powerRZ 2 (-46) = / 70368744177664.
Proof. pow2_values. lra. Qed.

(** With ordinary magnitudes: the sum of squares of the windowed signal
    [0, 1 + 2^-23, 0] is [1 + 2^-22 + 2^-46], and the entry stored for lag 0
    is [1 + 2^-22]. *)
Lemma unit_square_stored :
  valAt (Rounded.autocorrelation IEEE.fl64 IEEE.fround
           [Fin 0; Fin (1 + / 8388608); Fin 0]) 0 = Fin (1 + / 4194304).
Proof.
  unfold valAt. rewrite rounded_get_autocorrelation by (simpl; lia).
  cbn [toNumber nullish List.length Z.to_nat].
  unfold Rounded.acSum. cbn [Nat.sub seq fold_left nth_error Nat.add toNumber nullish].
  unfold Rounded.add, Rounded.mul.
  rewrite !mul_Fin. cbn [IEEE.fl64].
  replace (0 * 0) with 0 by lra. rewrite binary64_0, add_Fin. cbn [IEEE.fl64].
  replace (0 + 0) with 0 by lra. rewrite binary64_0.
  set (s := (1 + / 8388608) * (1 + / 8388608)).
  assert (Es : IEEE.binary64 s = Fin s).
  { apply (binary64_holds s 70368760954881 (-46)); [| lia | lia].
    rewrite pow2_m46. unfold s. lra. }
  rewrite Es, add_Fin. cbn [IEEE.fl64]. rewrite Rplus_0_l, Es.
  rewrite add_Fin. cbn [IEEE.fl64]. rewrite Rplus_0_r, Es.
  cbn [IEEE.fround]. unfold IEEE.binary32, IEEE.round_to, IEEE.ulp_exp.
  assert (Hs : 1 <= s < 2) by (unfold s; lra).
  assert (Eb : IEEE.binade s = 0%Z).
  { apply binade_eq. change (0 + 1)%Z with 1%Z. rewrite Rabs_pos_eq by lra. pow2_values. lra. }
  rewrite Eb. change (Z.max (0 - (24 - 1)) (-149)) with (-23)%Z.
  assert (Er : IEEE.rne (s / powerRZ 2 (-23)) = 8388610%Z).
  { rewrite pow2_m23. unfold IEEE.rne.
    assert (Ef : Zfloor (s / / 8388608) = 8388610%Z)
      by (apply Zfloor_eq; unfold s; lra).
    rewrite Ef. rewrite Rltb_true by (unfold s; lra). reflexivity. }
  rewrite Er, pow2_m23.
  rewrite Rltb_true.
  - f_equal. lra.
  - rewrite Rabs_pos_eq by lra.
    apply Rlt_le_trans with (powerRZ 2 1); [pow2_values; lra | apply pow2_le; lia].
Qed.

Lemma unit_square_sum :
  autocorrelation_spec [0; 1 + / 8388608; 0] 0 = 1 + / 4194304 + / 70368744177664.
Proof.
  unfold autocorrelation_spec. cbn [List.length Nat.sub sum_f_R0 nth Nat.add]. lra.
Qed.

(** C4 as stated fails: at 500 Hz lag 0 is searched; for the windowed signal
    [0, 2^100, 0] the sum at lag 0 is [2^200] and the value read is
    [+Infinity], and for [0, 1 + 2^-23, 0] the sum is
    [1 + 2^-22 + 2^-46] and the value read is [1 + 2^-22]. *)
Lemma C4_counterexample :
  let big := [0; powerRZ 2 100; 0] in
  let unit := [0; 1 + / 8388608; 0] in
  let stored x := valAt (Rounded.autocorrelation IEEE.fl64 IEEE.fround (map Fin x)) 0 in
  In 0%Z (Rounded.searchLags IEEE.fl64 3 (Fin 500))
  /\ stored big = Inf false
  /\ autocorrelation_spec big 0 = powerRZ 2 200
  /\ stored big <> Fin (autocorrelation_spec big 0)
  /\ stored unit = Fin (1 + / 4194304)
  /\ autocorrelation_spec unit 0 = 1 + / 4194304 + / 70368744177664
  /\ stored unit <> Fin (autocorrelation_spec unit 0).
Proof.
  cbv zeta. cbn [map].
  rewrite binary64_searchLags_3_500, big_square_stored, unit_square_stored.
  rewrite big_square_sum, unit_square_sum.
  repeat split; try reflexivity.
  - now left.
  - discriminate.
  - intros E. inversion E. lra.
Qed.

End StoredSumRanges.

(** ** A frame with no stored value above the sentinel *)

Section NoPeak.

Local Open Scope list_scope.
Local Open Scope Z_scope.

Lemma nan_window :
  Rounded.hannWindow IEEE.fl64 IEEE.fround cos64 [NaN; NaN; NaN] = [NaN; NaN; NaN].
Proof. reflexivity. Qed.

Lemma nan_autocorrelation :
  Rounded.autocorrelation IEEE.fl64 IEEE.fround [NaN; NaN; NaN] = [NaN; NaN; NaN].
Proof. reflexivity. Qed.

(** The range need not be empty for the search to find nothing: in a frame
    of three NaN, which is not silent, every stored value is NaN; at 500 Hz
    the lags 0, 1, 2 are searched, none has a value above the sentinel, and
    [peakLag] stays -1. *)
Lemma nan_frame_has_no_peak :
  let buf := [NaN; NaN; NaN] in
  let ac :=
    Rounded.autocorrelation IEEE.fl64 IEEE.fround
      (Rounded.hannWindow IEEE.fl64 IEEE.fround cos64 buf) in
  Rounded.isSilence IEEE.fl64 IEEE.fround cos64 buf = false
  /\ Rounded.searchLags IEEE.fl64 (List.length buf) (Fin 500) = [0; 1; 2]
  /\ (forall lag, (valAt ac lag >? Inf true)%js = false)
  /\ Rounded.peakLagOf IEEE.fl64 ac (Fin 500) = -1
  /\ fst (Rounded.detectPitchAutoCorrelation IEEE.fl64 IEEE.fround cos64 buf (Fin 500))
     = None.
Proof.
  cbv zeta. rewrite nan_window, nan_autocorrelation.
  assert (Hs : Rounded.isSilence IEEE.fl64 IEEE.fround cos64 [NaN; NaN; NaN] = false).
  { unfold Rounded.isSilence. rewrite nan_window. reflexivity. }
  assert (Hv : forall lag, (valAt [NaN; NaN; NaN] lag >? Inf true)%js = false).
  { intros lag. unfold valAt, get.
    destruct (lag <? 0); [reflexivity |].
    destruct (Z.to_nat lag) as [| [| [| n]]]; try reflexivity.
    cbn [nth_error]. now destruct n. }
  assert (Hp : Rounded.peakLagOf IEEE.fl64 [NaN; NaN; NaN] (Fin 500) = -1).
  { destruct (rounded_findPeak_argmax IEEE.fl64 [NaN; NaN; NaN] (Fin 500))
      as [[Hp _] | (pre & post & _ & Hg & _)]; [exact Hp |].
    rewrite Hv in Hg. discriminate. }
  split; [exact Hs |].
  split; [apply binary64_searchLags_3_500 |].
  split; [exact Hv |].
  split; [exact Hp |].
  rewrite rounded_detect_eq, Hs. cbv zeta. rewrite nan_window, nan_autocorrelation, Hp.
  reflexivity.
Qed.

End NoPeak.

(** ** The window and the silence gate *)

Section SilenceGateRounded.

Local Open Scope list_scope.
Local Open Scope R_scope.

Variable fl : number -> number.
Variable fround : number -> number.
Variable cosine : number -> number.

Section ZeroWindow.

Hypothesis Hfl : rounds_to_double fl.
Hypothesis Hfr : rounds_to_single fround.
Hypothesis Hcos : cosine_in_range cosine.

Lemma fl_bounded (x : R) (k : Z) :
  (-1074 <= k < 1024)%Z -> Rabs x <= powerRZ 2 k ->
  exists y, fl (Fin x) = Fin y /\ Rabs y <= powerRZ 2 k.
Proof.
  intros Hk Hx. destruct Hfl as (Ha & _).
  destruct (Ha x k Hk Hx) as (y & Hy & Hb & _). eauto.
Qed.

Lemma fl_0 : fl (Fin 0) = Fin 0.
Proof. apply (rounds_like_0 53 (-1074) 1024); first [exact Hfl | lia]. Qed.

Lemma fround_0 : fround (Fin 0) = Fin 0.
Proof. apply (rounds_like_0 24 (-149) 128); first [exact Hfr | lia]. Qed.

Lemma fl_Z (z : Z) : (Z.abs z <= 2 ^ 53)%Z -> fl (of_Z z) = of_Z z.
Proof. apply (rounds_like_Z 53 (-1074) 1024); first [exact Hfl | lia]. Qed.

(** The Hann coefficients are finite. *)
Lemma rounded_hann_finite (len i : nat) :
  (2 <= len)%nat -> (Z.of_nat len <= 2 ^ 53)%Z -> (i < len)%nat ->
  exists h, Rounded.hann fl cosine len i = Fin h.
Proof.
  intros Hlen Hmax Hi. unfold Rounded.hann, Rounded.Math_PI.
  destruct (fl_bounded PI 2 ltac:(lia)) as (p & -> & Hp).
  { rewrite Rabs_pos_eq by (left; apply PI_RGT_0). pose proof PI_4. pow2_values. lra. }
  unfold Rounded.mul at 3. rewrite mul_Fin.
  destruct (fl_bounded (2 * p) 3 ltac:(lia)) as (a & -> & Ha).
  { rewrite Rabs_mult, (Rabs_pos_eq 2) by lra. revert Hp. pow2_values. lra. }
  unfold Rounded.mul at 2, of_nat. rewrite mul_Fin.
  assert (Hi' : 0 <= INR i <= powerRZ 2 53).
  { split; [apply pos_INR |]. rewrite INR_IZR_INZ, pow2_IZR by lia.
    apply IZR_le. lia. }
  destruct (fl_bounded (a * INR i) 56 ltac:(lia)) as (b & -> & Hb).
  { rewrite Rabs_mult, (Rabs_pos_eq (INR i)) by lra.
    replace 56%Z with (3 + 53)%Z by reflexivity. rewrite pow2_add.
    apply Rmult_le_compat; try lra. apply Rabs_pos. }
  unfold Rounded.sub at 2. rewrite sub_Fin.
  replace (INR len - 1) with (IZR (Z.of_nat len - 1))
    by (rewrite minus_IZR, <- INR_IZR_INZ; reflexivity).
  change (Fin (IZR (Z.of_nat len - 1))) with (of_Z (Z.of_nat len - 1)).
  rewrite fl_Z by lia. unfold of_Z.
  assert (Hd : 1 <= IZR (Z.of_nat len - 1)) by (apply (IZR_le 1); lia).
  unfold Rounded.div. rewrite div_Fin by lra.
  destruct (fl_bounded (b / IZR (Z.of_nat len - 1)) 56 ltac:(lia)) as (c & -> & Hc).
  { unfold Rdiv. rewrite Rabs_mult, (Rabs_pos_eq (/ _)).
    - apply Rle_trans with (Rabs b * 1); [| lra].
      apply Rmult_le_compat_l; [apply Rabs_pos |].
      rewrite <- Rinv_1. apply Rinv_le_contravar; lra.
    - left. apply Rinv_0_lt_compat. lra. }
  destruct (Hcos c) as (t & -> & Ht).
  unfold Rounded.sub. rewrite sub_Fin.
  destruct (fl_bounded (1 - t) 1 ltac:(lia)) as (d & -> & Hd1).
  { pow2_values. unfold Rabs in *. destruct (Rcase_abs t); destruct (Rcase_abs (1 - t)); lra. }
  unfold Rounded.mul. rewrite mul_Fin.
  destruct (fl_bounded (0.5 * d) 0 ltac:(lia)) as (h & -> & _).
  { rewrite Rabs_mult, (Rabs_pos_eq 0.5) by lra. revert Hd1. pow2_values. lra. }
  eauto.
Qed.

Lemma rounded_window_zero (len i : nat) (buf : list number) :
  (2 <= len)%nat -> (Z.of_nat len <= 2 ^ 53)%Z -> (i + List.length buf <= len)%nat ->
  Forall (eq (Fin 0)) buf ->
  Rounded.window_from fl fround cosine len i buf = buf.
Proof.
  intros Hlen Hmax. revert i.
  induction buf as [| v buf IH]; intros i Hi Hz; [reflexivity |].
  inversion Hz as [| ? ? Hv Hrest]; subst. cbn [Rounded.window_from List.length] in *.
  destruct (rounded_hann_finite len i Hlen Hmax ltac:(lia)) as (h & ->).
  unfold Rounded.mul. rewrite mul_Fin, Rmult_0_l, fl_0, fround_0.
  f_equal. apply IH; [lia | exact Hrest].
Qed.

Lemma rounded_sumSquares_zero (buf : list number) :
  Forall (eq (Fin 0)) buf ->
  fold_left (fun s x => Rounded.add fl s (Rounded.mul fl x x)) buf (Fin 0) = Fin 0.
Proof.
  induction 1 as [| v buf Hv _ IH]; [reflexivity |].
  subst v. cbn [fold_left]. unfold Rounded.add at 2, Rounded.mul at 2.
  rewrite mul_Fin, Rmult_0_l, fl_0, add_Fin, Rplus_0_l, fl_0. exact IH.
Qed.

Lemma threshold_positive : exists t, fl (Fin 0.008) = Fin t /\ 0 < t.
Proof.
  destruct Hfl as (Ha & _).
  destruct (Ha 0.008 0%Z ltac:(lia)) as (t & Ht & _ & He).
  { rewrite Rabs_pos_eq by lra. pow2_values. lra. }
  exists t. split; [exact Ht |].
  rewrite (Rabs_pos_eq 0.008) in He by lra.
  pose proof (pow2_small (Z.opp 53) ltac:(lia)).
  pose proof (pow2_small (-1074 - 1) ltac:(lia)).
  pose proof (pow2_pos (Z.opp 53)).
  assert (powerRZ 2 (Z.opp 53) * 0.008 <= / 1000 * 0.008) by (apply Rmult_le_compat_r; lra).
  unfold Rabs in He. destruct (Rcase_abs (t - 0.008)); lra.
Qed.

(** An all-zero frame is left as it is by the window and is silent. *)
Lemma rounded_zero_frame_silent (buf : list number) :
  (2 <= List.length buf)%nat -> (Z.of_nat (List.length buf) <= 2 ^ 53)%Z ->
  Forall (eq (Fin 0)) buf ->
  Rounded.hannWindow fl fround cosine buf = buf
  /\ Rounded.isSilence fl fround cosine buf = true.
Proof.
  intros Hlen Hmax Hz.
  assert (Hw : Rounded.hannWindow fl fround cosine buf = buf)
    by (apply rounded_window_zero; [exact Hlen | exact Hmax | simpl; lia | exact Hz]).
  split; [exact Hw |].
  unfold Rounded.isSilence, Rounded.rmsOf. rewrite Hw.
  rewrite rounded_sumSquares_zero by exact Hz.
  unfold Rounded.div, of_nat.
  assert (Hn : 0 < INR (List.length buf)) by (apply lt_0_INR; lia).
  rewrite div_Fin by lra.
  replace (0 / INR (List.length buf)) with 0 by (field; lra).
  rewrite fl_0. unfold Rounded.Math_sqrt, JS.Math_sqrt.
  rewrite Rltb_false by lra. rewrite sqrt_0, fl_0.
  destruct threshold_positive as (t & -> & Ht).
  rewrite lt_Fin. now apply Rltb_true.
Qed.

End ZeroWindow.

(** C2: sample [i] of the buffer becomes the product of [x[i]] and the Hann
    coefficient [0.5 * (1 - cos (2 pi i / (N - 1)))], every operation
    rounded and the product converted on the store; the RMS is the square
    root of the mean of the squares of the windowed samples, as computed;
    when that RMS is below the threshold 0.008 (the double nearest to it) the
    frame is classified as silence and the detector returns [null] at once,
    whatever the sample rate, and only otherwise does the result come from
    the peak search; and an all-zero window is classified as silence.  With
    no rounding the buffer holds the products with the exact coefficients
    and the RMS is the exact one. *)
Theorem C2_window_rms_silence_gate (buf : list number) (sampleRate : number) :
  (3 <= List.length buf)%nat ->
  let N := List.length buf in
  let w := Rounded.hannWindow fl fround cosine buf in
  (forall i v, nth_error buf i = Some v ->
     nth_error w i
     = Some (fround (Rounded.mul fl v
                       (Rounded.mul fl (#0.5)%js
                          (Rounded.sub fl (#1)%js
                             (cosine
                                (Rounded.div fl
                                   (Rounded.mul fl (Rounded.mul fl (#2)%js (fl (Fin PI)))
                                      (of_nat i))
                                   (Rounded.sub fl (of_nat N) (#1)%js))))))))
  /\ Rounded.rmsOf fl w
     = Rounded.Math_sqrt fl
         (Rounded.div fl
            (fold_left (fun s x => Rounded.add fl s (Rounded.mul fl x x)) w (#0)%js)
            (of_nat N))
  /\ Rounded.isSilence fl fround cosine buf = (Rounded.rmsOf fl w <? fl (#0.008)%js)%js
  /\ (Rounded.isSilence fl fround cosine buf = true ->
      Rounded.detectPitchAutoCorrelation fl fround cosine buf sampleRate = (None, w))
  /\ (Rounded.isSilence fl fround cosine buf = false ->
      Rounded.detectPitchAutoCorrelation fl fround cosine buf sampleRate
      = (if (Rounded.peakLagOf fl (Rounded.autocorrelation fl fround w) sampleRate <=? 0)%Z
         then None
         else if rejected (Rounded.candidateOf fl fround cosine buf sampleRate) then None
         else Some (Rounded.candidateOf fl fround cosine buf sampleRate),
         w))
  /\ (rounds_to_double fl -> rounds_to_single fround -> cosine_in_range cosine ->
      (Z.of_nat N <= 2 ^ 53)%Z -> Forall (eq (Fin 0)) buf ->
      Rounded.isSilence fl fround cosine buf = true
      /\ Rounded.detectPitchAutoCorrelation fl fround cosine buf sampleRate = (None, buf))
  /\ (forall x, List.length x = N ->
        Rounded.hannWindow exact exact JS.Math_cos (map Fin x) = map Fin (windowed_spec x)
        /\ Rounded.rmsOf exact (map Fin (windowed_spec x)) = Fin (rms_spec (windowed_spec x))).
Proof.
  intros Hlen N w.
  assert (Hw : List.length w = N) by apply rounded_length_hannWindow.
  split; [| split; [| split; [| split; [| split; [| split]]]]].
  - intros i v Hv. unfold w, Rounded.hannWindow.
    rewrite rounded_nth_error_window_from, Hv. reflexivity.
  - unfold Rounded.rmsOf. now rewrite Hw.
  - reflexivity.
  - intros Hs. now rewrite rounded_detect_eq, Hs.
  - intros Hs. now rewrite rounded_detect_eq, Hs.
  - intros Hfl Hfr Hcos Hmax Hz.
    destruct (rounded_zero_frame_silent Hfl Hfr Hcos buf ltac:(lia) Hmax Hz) as [Ew Es].
    split; [exact Es |]. now rewrite rounded_detect_eq, Es, Ew.
  - intros x Hx. rewrite exact_hannWindow.
    assert (Hne : windowed_spec x <> []).
    { intros E. apply (f_equal (@List.length R)) in E.
      rewrite length_windowed_spec in E. simpl in E. lia. }
    split; [apply hannWindow_Fin; lia |].
    change (Rounded.rmsOf exact (map Fin (windowed_spec x)))
      with (rmsOf (map Fin (windowed_spec x))).
    now apply rmsOf_Fin.
Qed.

End SilenceGateRounded.

Lemma C2_window_rms_silence_gate_witness :
  Rounded.isSilence IEEE.fl64 IEEE.fround cos64 [Fin 0; Fin 0; Fin 0] = true
  /\ Rounded.detectPitchAutoCorrelation IEEE.fl64 IEEE.fround cos64
       [Fin 0; Fin 0; Fin 0] (Fin 44100)
     = (None, [Fin 0; Fin 0; Fin 0]).
Proof.
  destruct (C2_window_rms_silence_gate IEEE.fl64 IEEE.fround cos64
              [Fin 0; Fin 0; Fin 0] (Fin 44100)) as (_ & _ & _ & _ & _ & H & _).
  - simpl. lia.
  - apply H.
    + exact fl64_rounds_to_double.
    + exact fround_rounds_to_single.
    + exact cos64_in_range.
    + simpl. lia.
    + repeat constructor.
Defined.

(** * The note mapper in rounded arithmetic *)

Section LogarithmBounds.

Local Open Scope R_scope.

Lemma ln_le (a b : R) : 0 < a -> a <= b -> ln a <= ln b.
Proof.
  intros Ha [Hlt | ->]; [left; now apply ln_increasing | right; reflexivity].
Qed.

(** [ln (1 + r)] for a small [r]. *)
Lemma ln_1p_bounds (r : R) : Rabs r <= / 2 -> - 2 * Rabs r <= ln (1 + r) <= Rabs r.
Proof.
  intros Hr.
  assert (Hr' : - / 2 <= r <= / 2) by (unfold Rabs in Hr; destruct (Rcase_abs r); lra).
  split.
  - destruct (Rle_dec 0 r) as [Hpos | Hneg].
    + rewrite Rabs_pos_eq by exact Hpos.
      apply Rle_trans with 0; [lra |]. rewrite <- ln_1. apply ln_le; lra.
    + rewrite Rabs_left by lra.
      replace (- 2 * - r) with (- (- (2 * r))) by lra.
      assert (He : exp (2 * r) <= 1 + r).
      { pose proof (exp_ineq1_le (- (2 * r))) as H1.
        pose proof (exp_pos (2 * r)) as H2.
        assert (H3 : exp (2 * r) * exp (- (2 * r)) = 1)
          by (rewrite <- exp_plus, Rplus_opp_r; apply exp_0).
        assert (H4 : exp (2 * r) * (1 + - (2 * r)) <= 1).
        { rewrite <- H3. apply Rmult_le_compat_l; lra. }
        assert (H5 : 1 <= (1 + r) * (1 + - (2 * r))) by nra.
        assert (H6 : 0 < 1 + - (2 * r)) by lra.
        apply Rmult_le_reg_r with (1 + - (2 * r)); lra. }
      rewrite Ropp_involutive. rewrite <- (ln_exp (2 * r)).
      apply ln_le; [apply exp_pos | exact He].
  - apply Rle_trans with r; [| apply Rle_abs].
    rewrite <- (ln_exp r) at 2. apply ln_le; [lra | apply exp_ineq1_le].
Qed.

Lemma log2_1p_bound (r : R) : Rabs r <= / 2 -> Rabs (log2 (1 + r)) <= 4 * Rabs r.
Proof.
  intros Hr. pose proof (ln_1p_bounds r Hr) as [Hlo Hhi].
  pose proof ln_lt_2 as H2. pose proof (Rabs_pos r) as Hp.
  unfold log2.
  assert (Hl : Rabs (ln (1 + r)) <= 2 * Rabs r)
    by (unfold Rabs at 1; destruct (Rcase_abs (ln (1 + r))); lra).
  unfold Rdiv. rewrite Rabs_mult, (Rabs_pos_eq (/ ln 2)) by (left; apply Rinv_0_lt_compat; lra).
  assert (Hi : / ln 2 <= 2).
  { assert (H : / ln 2 <= / / 2) by (apply Rinv_le_contravar; lra).
    rewrite Rinv_inv in H. exact H. }
  apply Rle_trans with (2 * Rabs r * 2); [| lra].
  apply Rmult_le_compat; try lra. apply Rabs_pos.
  left. apply Rinv_0_lt_compat. lra.
Qed.

(** The logarithm of a value known to a relative error [r]. *)
Lemma log2_perturbed (x r : R) :
  0 < x -> Rabs r <= / 2 -> Rabs (log2 (x * (1 + r)) - log2 x) <= 4 * Rabs r.
Proof.
  intros Hx Hr.
  assert (Hr' : - / 2 <= r <= / 2) by (unfold Rabs in Hr; destruct (Rcase_abs r); lra).
  rewrite log2_mult by lra.
  replace (log2 x + log2 (1 + r) - log2 x) with (log2 (1 + r)) by lra.
  now apply log2_1p_bound.
Qed.

Lemma log2_pow2 (k : Z) : log2 (powerRZ 2 k) = IZR k.
Proof. rewrite pow2_Rpower. apply log2_Rpower. Qed.

Lemma log2_between (x : R) (a b : Z) :
  powerRZ 2 a <= x <= powerRZ 2 b -> IZR a <= log2 x <= IZR b.
Proof.
  intros [Ha Hb]. pose proof (pow2_pos a) as Hp.
  rewrite <- (log2_pow2 a), <- (log2_pow2 b).
  split; apply log2_le; lra.
Qed.

(** [2^s] from below. *)
Lemma Rpower_2_ge (s : R) : 1 + s / 2 <= Rpower 2 s \/ s < 0.
Proof.
  destruct (Rlt_dec s 0) as [Hneg | Hpos]; [now right | left].
  unfold Rpower. pose proof (exp_ineq1_le (s * ln 2)) as H. pose proof ln_lt_2 as H2.
  assert (s / 2 <= s * ln 2) by nra. lra.
Qed.

End LogarithmBounds.

Section NoteMapperRounded.

Local Open Scope R_scope.

Variable fl : number -> number.
Variable lg : R -> R.
Variable pw : R -> number.

Hypothesis Hfl : rounds_to_double fl.
Hypothesis Hlg : log2_accurate lg.
Hypothesis Hpw : pow2_accurate pw.

(** Bounds of the unit roundoff and of half the smallest positive double
    that are easier to compute with. *)
Local Notation "'eps'" := (/ 9000000000000000).
Local Notation "'del'" := (/ 1000000000000000000000000000000).

Lemma abs_le_inv (x b : R) : Rabs x <= b -> - b <= x <= b.
Proof. intros H. unfold Rabs in H. destruct (Rcase_abs x); lra. Qed.

Lemma eps_bound : powerRZ 2 (Z.opp 53) + powerRZ 2 (-66) <= eps.
Proof. pow2_values. lra. Qed.

Lemma eps2_bound : powerRZ 2 (-52) <= 2 * eps.
Proof. pow2_values. lra. Qed.

Lemma del_bound : powerRZ 2 (-1074 - 1) <= del.
Proof.
  apply Rle_trans with (powerRZ 2 (-100)); [apply pow2_le; lia |].
  pow2_values. lra.
Qed.

(** The rounding of a value of moderate size. *)
Lemma fl_near (x B : R) :
  Rabs x <= B -> B <= 16000000 ->
  exists y, fl (Fin x) = Fin y /\ Rabs (y - x) <= B * eps + del.
Proof.
  intros Hx HB. destruct Hfl as (Ha & _).
  destruct (Ha x 24%Z ltac:(lia)) as (y & Hy & _ & He).
  { apply Rle_trans with B; [exact Hx |]. pow2_values. lra. }
  exists y. split; [exact Hy |].
  pose proof eps_bound. pose proof del_bound. pose proof (pow2_pos (-66)).
  pose proof (pow2_pos (Z.opp 53)). pose proof (Rabs_pos x).
  assert (powerRZ 2 (Z.opp 53) * Rabs x <= eps * B) by (apply Rmult_le_compat; lra).
  lra.
Qed.

(** The rounding of a value that is neither tiny nor huge. *)
Lemma fl_rel (x : R) :
  powerRZ 2 (-1009) <= Rabs x <= powerRZ 2 1023 ->
  exists y, fl (Fin x) = Fin y /\ Rabs (y - x) <= Rabs x * eps.
Proof.
  intros [Hlo Hhi]. destruct Hfl as (Ha & _).
  destruct (Ha x 1023%Z ltac:(lia) Hhi) as (y & Hy & _ & He).
  exists y. split; [exact Hy |].
  pose proof eps_bound as Hb. pose proof (pow2_pos (-66)) as H66.
  assert (Hsmall : powerRZ 2 (-1074 - 1) <= powerRZ 2 (-66) * Rabs x).
  { replace (-1074 - 1)%Z with (-66 + -1009)%Z by reflexivity. rewrite pow2_add.
    apply Rmult_le_compat_l; lra. }
  assert (Hsum : powerRZ 2 (Z.opp 53) * Rabs x + powerRZ 2 (-66) * Rabs x <= Rabs x * eps).
  { rewrite <- Rmult_plus_distr_r, (Rmult_comm (Rabs x)).
    apply Rmult_le_compat_r; [apply Rabs_pos | exact Hb]. }
  lra.
Qed.

(** The value that [freqToMidi] rounds to an integer. *)
Lemma midi_value (f : R) :
  powerRZ 2 (-1000) <= f <= powerRZ 2 1000 ->
  exists y,
    Rounded.add fl (Rounded.mul fl (Fin 12) (Rounded.Math_log2 lg (Rounded.div fl (Fin f) A4)))
      A4_MIDI = Fin y
    /\ Rabs (y - (12 * log2 (f / 440) + 69)) <= / 100000000000.
Proof.
  intros [Hlo Hhi].
  pose proof (pow2_pos (-1000)) as Hp0. pose proof (pow2_pos (-1009)) as Hp1.
  assert (Hx : powerRZ 2 (-1009) <= f / 440 <= powerRZ 2 1000).
  { split.
    - replace (-1009)%Z with (-1000 + -9)%Z by reflexivity. rewrite pow2_add.
      assert (E : powerRZ 2 (-9) = / 512) by (pow2_values; lra).
      rewrite E. lra.
    - lra. }
  set (x := f / 440) in *.
  assert (Hxpos : 0 < x) by lra.
  unfold Rounded.div, A4. rewrite div_Fin by lra. fold x.
  destruct (fl_rel x) as (q & -> & Hq).
  { rewrite Rabs_pos_eq by lra. split; [lra |].
    apply Rle_trans with (powerRZ 2 1000); [lra | apply pow2_le; lia]. }
  rewrite (Rabs_pos_eq x) in Hq by lra. apply abs_le_inv in Hq.
  set (r := (q - x) / x).
  assert (Hr : Rabs r <= eps).
  { unfold r, Rdiv. rewrite Rabs_mult, (Rabs_pos_eq (/ x)) by (left; now apply Rinv_0_lt_compat).
    apply Rmult_le_reg_r with x; [exact Hxpos |].
    rewrite Rmult_assoc, Rinv_l, Rmult_1_r by lra.
    apply Rabs_le. lra. }
  assert (Eq : q = x * (1 + r)) by (unfold r; field; lra).
  assert (Hqpos : x / 2 <= q <= 2 * x) by lra.
  assert (Hlq : Rabs (log2 q - log2 x) <= 4 * eps).
  { rewrite Eq. apply Rle_trans with (4 * Rabs r); [| lra].
    apply log2_perturbed; [exact Hxpos | lra]. }
  pose proof (log2_between x _ _ Hx) as Hlx.
  assert (Hl : Rounded.Math_log2 lg (Fin q) = Fin (lg q)).
  { unfold Rounded.Math_log2. rewrite Rltb_false by lra. now rewrite Reqb_false by lra. }
  rewrite Hl.
  destruct Hlg as (Hacc & _).
  assert (Hqr : powerRZ 2 (-1075) <= q <= powerRZ 2 1024).
  { split.
    - apply Rle_trans with (powerRZ 2 (-1010)); [apply pow2_le; lia |].
      replace (-1010)%Z with (-1009 - 1)%Z by reflexivity. rewrite pow2_sub.
      replace (powerRZ 2 1) with 2 by (pow2_values; lra). lra.
    - apply Rle_trans with (powerRZ 2 1001); [| apply pow2_le; lia].
      replace 1001%Z with (1000 + 1)%Z by reflexivity. rewrite pow2_add.
      replace (powerRZ 2 1) with 2 by (pow2_values; lra). lra. }
  pose proof (Hacc q Hqr) as HL.
  apply abs_le_inv in Hlq.
  assert (Hlqb : Rabs (log2 q) <= 1010).
  { apply Rabs_le. simpl in Hlx. lra. }
  pose proof eps2_bound as He2. pose proof del_bound as Hd.
  assert (HL' : Rabs (lg q - log2 q) <= 2020 * eps + del).
  { assert (powerRZ 2 (-52) * Rabs (log2 q) <= 2 * eps * 1010)
      by (apply Rmult_le_compat; try lra; [left; apply pow2_pos | apply Rabs_pos]).
    change (-1075)%Z with (-1074 - 1)%Z in HL. lra. }
  apply abs_le_inv in HL'. apply abs_le_inv in Hlqb.
  unfold Rounded.mul. rewrite mul_Fin.
  destruct (fl_near (12 * lg q) 12132) as (p & -> & Hp); [apply Rabs_le; lra | lra |].
  apply abs_le_inv in Hp.
  unfold Rounded.add, A4_MIDI. rewrite add_Fin.
  destruct (fl_near (p + 69) 12300) as (y & -> & Hy); [apply Rabs_le; lra | lra |].
  apply abs_le_inv in Hy.
  exists y. split; [reflexivity |].
  simpl in Hlx. apply Rabs_le. lra.
Qed.

Lemma round_near (y v e : R) :
  Rabs (y - v) <= e -> Rabs (IZR (round y) - v) <= / 2 + e.
Proof.
  intros H. apply abs_le_inv in H. pose proof (round_bound y) as [Hlo Hhi].
  apply Rabs_le. lra.
Qed.

(** Rounding is not changed by an error smaller than the distance to the
    nearest tie. *)
Lemma round_stable (y v e d : R) :
  Rabs (y - v) <= e -> e < d ->
  (forall k : Z, d <= Rabs (v - (IZR k + / 2))) ->
  round y = round v.
Proof.
  intros H Hed Hm. apply abs_le_inv in H.
  pose proof (Zfloor_bound (v + / 2)) as [Hlo Hhi]. fold (round v) in Hlo, Hhi.
  pose proof (Hm (round v)) as H1. pose proof (Hm (round v - 1)%Z) as H2.
  rewrite minus_IZR in H2.
  unfold Rabs in H1, H2.
  destruct (Rcase_abs (v - (IZR (round v) + / 2)));
    destruct (Rcase_abs (v - (IZR (round v) - 1 + / 2))); try lra.
  unfold round at 1. apply Zfloor_eq. lra.
Qed.

(** [freqToMidi] on a frequency from [2^-1000] to [2^1000]. *)
Lemma rounded_freqToMidi (f : R) :
  powerRZ 2 (-1000) <= f <= powerRZ 2 1000 ->
  exists m,
    Rounded.freqToMidi fl lg (Fin f) = of_Z m
    /\ Rabs (IZR m - (12 * log2 (f / 440) + 69)) <= / 2 + / 100000000000
    /\ ((forall k : Z,
           / 1000000000 <= Rabs (12 * log2 (f / 440) + 69 - (IZR k + / 2))) ->
        m = round (12 * log2 (f / 440) + 69)).
Proof.
  intros Hf. destruct (midi_value f Hf) as (y & Hy & He).
  exists (round y). unfold Rounded.freqToMidi. rewrite Hy.
  split; [reflexivity | split].
  - now apply round_near.
  - intros Hm. apply (round_stable y _ (/ 100000000000) (/ 1000000000)); [exact He | lra | exact Hm].
Qed.

Lemma ln_2_le_1 : ln 2 <= 1.
Proof.
  rewrite <- (ln_exp 1). apply ln_le; [lra |].
  pose proof (exp_ineq1_le 1). lra.
Qed.

(** [2^d] for a small [d]. *)
Lemma Rpower_2_near_1 (d : R) : Rabs d <= / 2 -> Rabs (Rpower 2 d - 1) <= 2 * Rabs d.
Proof.
  intros Hd. apply abs_le_inv in Hd.
  pose proof ln_2_le_1 as H1. pose proof ln_lt_2 as H2.
  unfold Rpower. set (z := d * ln 2).
  assert (Hz : Rabs z <= Rabs d).
  { unfold z. rewrite Rabs_mult, (Rabs_pos_eq (ln 2)) by lra.
    rewrite <- (Rmult_1_r (Rabs d)) at 2.
    apply Rmult_le_compat_l; [apply Rabs_pos | exact H1]. }
  assert (Hd' : Rabs d <= / 2) by (apply Rabs_le; lra).
  apply abs_le_inv in Hz.
  pose proof (exp_ineq1_le z) as Hlo.
  pose proof (exp_ineq1_le (- z)) as Hup.
  pose proof (exp_pos z) as Hp.
  assert (Hinv : exp z * exp (- z) = 1) by (rewrite <- exp_plus, Rplus_opp_r; apply exp_0).
  assert (Hup' : exp z * (1 - z) <= 1).
  { rewrite <- Hinv. apply Rmult_le_compat_l; lra. }
  assert (Hez : exp z <= 1 + 2 * Rabs d).
  { apply Rmult_le_reg_r with (1 - z); [lra |].
    apply Rle_trans with 1; [exact Hup' |].
    pose proof (Rabs_pos d). nra. }
  apply Rabs_le. lra.
Qed.

Lemma Rpower_2_between (t : R) (a b : Z) :
  IZR a <= t <= IZR b -> powerRZ 2 a <= Rpower 2 t <= powerRZ 2 b.
Proof. intros [Ha Hb]. rewrite !pow2_Rpower. split; apply Rle_Rpower; lra. Qed.

(** [midiToFreq] on a MIDI integer: the ideal frequency, up to a relative
    error [th]. *)
Lemma rounded_midiToFreq (m : Z) :
  (Z.abs m <= 12080)%Z ->
  exists g th,
    Rounded.midiToFreq fl pw (of_Z m) = Fin g
    /\ g = 440 * Rpower 2 ((IZR m - 69) / 12) * (1 + th)
    /\ Rabs th <= / 1000000000000.
Proof.
  intros Hm.
  assert (Hmr : -12080 <= IZR m <= 12080)
    by (split; [apply (IZR_le (-12080)) | apply (IZR_le _ 12080)]; lia).
  unfold Rounded.midiToFreq, A4_MIDI, A4, of_Z.
  unfold Rounded.sub. rewrite sub_Fin.
  replace (IZR m - 69) with (IZR (m - 69)) by (rewrite minus_IZR; reflexivity).
  change (Fin (IZR (m - 69))) with (of_Z (m - 69)).
  rewrite (fl_Z fl Hfl) by lia. unfold of_Z. rewrite minus_IZR.
  unfold Rounded.div. rewrite div_Fin by lra.
  set (t0 := (IZR m - 69) / 12).
  assert (Ht0 : -1013 <= t0 <= 1013) by (unfold t0; lra).
  destruct (fl_near t0 1013) as (t & -> & Ht); [apply Rabs_le; lra | lra |].
  apply abs_le_inv in Ht. cbn [Rounded.Math_pow2].
  destruct Hpw as (Hacc & _).
  destruct (Hacc t) as (P & -> & HP); [apply Rabs_le; lra |].
  pose proof (Rpower_2_pos t) as Hpt.
  pose proof eps2_bound as He2. pose proof (pow2_pos (-52)) as Hp52.
  assert (HP' : Rabs (P - Rpower 2 t) <= 2 * eps * Rpower 2 t)
    by (apply Rle_trans with (1 := HP); apply Rmult_le_compat_r; lra).
  apply abs_le_inv in HP'.
  destruct (Rpower_2_between t (-1014) 1014) as [Hlo Hhi]; [simpl; lra |].
  unfold Rounded.mul. rewrite mul_Fin.
  assert (HPb : Rpower 2 t / 2 <= P <= 2 * Rpower 2 t) by nra.
  destruct (fl_rel (440 * P)) as (g & -> & Hg).
  { rewrite Rabs_pos_eq by nra. split.
    - apply Rle_trans with (powerRZ 2 8 * powerRZ 2 (-1014 - 1)).
      + rewrite <- pow2_add. apply pow2_le. lia.
      + rewrite pow2_sub.
        replace (powerRZ 2 1) with 2 by (pow2_values; lra).
        replace (powerRZ 2 8) with 256 by (pow2_values; lra).
        pose proof (pow2_pos (-1014)). nra.
    - replace 1023%Z with (9 + 1014)%Z by reflexivity. rewrite pow2_add.
      replace (powerRZ 2 9) with 512 by (pow2_values; lra).
      assert (Rpower 2 t * (1 + 2 * eps) <= powerRZ 2 1014 * (1 + 2 * eps))
        by (apply Rmult_le_compat_r; lra).
      pose proof (pow2_pos 1014). lra. }
  rewrite (Rabs_pos_eq (440 * P)) in Hg by nra. apply abs_le_inv in Hg.
  set (G := 440 * Rpower 2 t0).
  pose proof (Rpower_2_pos t0) as Hpt0.
  assert (HG : 0 < G) by (unfold G; lra).
  exists g, (g / G - 1). split; [reflexivity | split; [field; lra |]].
  (* the three factors *)
  set (dt := t - t0).
  assert (Hdt : Rabs dt <= 1013 * eps + del) by (apply Rabs_le; unfold dt; lra).
  assert (Et : Rpower 2 t = Rpower 2 t0 * Rpower 2 dt).
  { rewrite <- Rpower_plus. f_equal. unfold dt. lra. }
  pose proof (Rpower_2_near_1 dt ltac:(lra)) as Hd1. apply abs_le_inv in Hd1.
  set (w := Rpower 2 dt) in *.
  assert (Hw : 1 - / 4000000000000 <= w <= 1 + / 4000000000000) by lra.
  set (a := P / Rpower 2 t).
  assert (Ha : 1 - 2 * eps <= a <= 1 + 2 * eps).
  { unfold a. split.
    - apply Rmult_le_reg_r with (Rpower 2 t); [exact Hpt |].
      unfold Rdiv. rewrite Rmult_assoc, Rinv_l, Rmult_1_r by lra. lra.
    - apply Rmult_le_reg_r with (Rpower 2 t); [exact Hpt |].
      unfold Rdiv. rewrite Rmult_assoc, Rinv_l, Rmult_1_r by lra. lra. }
  set (b := g / (440 * P)).
  assert (HPpos : 0 < 440 * P) by nra.
  assert (Hb : 1 - eps <= b <= 1 + eps).
  { unfold b. split.
    - apply Rmult_le_reg_r with (440 * P); [exact HPpos |].
      unfold Rdiv. rewrite Rmult_assoc, Rinv_l, Rmult_1_r by lra. lra.
    - apply Rmult_le_reg_r with (440 * P); [exact HPpos |].
      unfold Rdiv. rewrite Rmult_assoc, Rinv_l, Rmult_1_r by lra. lra. }
  assert (Eg : g / G = w * a * b).
  { unfold G, a, b. rewrite Et. fold w. field. repeat split; lra. }
  rewrite Eg.
  assert (Hwa : 1 - / 3000000000000 <= w * a <= 1 + / 3000000000000).
  { split.
    - apply Rle_trans with ((1 - / 4000000000000) * (1 - 2 * eps)); [lra |].
      apply Rmult_le_compat; lra.
    - apply Rle_trans with ((1 + / 4000000000000) * (1 + 2 * eps)); [| lra].
      apply Rmult_le_compat; lra. }
  apply Rabs_le. split.
  - apply Rle_trans with ((1 - / 3000000000000) * (1 - eps) - 1); [lra |].
    apply Rplus_le_compat_r. apply Rmult_le_compat; lra.
  - apply Rle_trans with ((1 + / 3000000000000) * (1 + eps) - 1); [| lra].
    apply Rplus_le_compat_r. apply Rmult_le_compat; lra.
Qed.

(** [centsOff] of a frequency against a MIDI integer whose ideal frequency
    is within a factor [2^1000] of it. *)
Lemma rounded_centsOff (f : R) (m : Z) :
  (Z.abs m <= 12080)%Z -> 0 < f ->
  powerRZ 2 (-1000) <= f / (440 * Rpower 2 ((IZR m - 69) / 12)) <= powerRZ 2 1000 ->
  exists c,
    Rounded.centsOff fl lg pw (Fin f) (of_Z m) = of_Z c
    /\ Rabs (IZR c - 1200 * log2 (f / (440 * Rpower 2 ((IZR m - 69) / 12))))
       <= / 2 + / 50000000
    /\ ((forall k : Z,
           / 10000000
           <= Rabs (1200 * log2 (f / (440 * Rpower 2 ((IZR m - 69) / 12))) - (IZR k + / 2))) ->
        c = round (1200 * log2 (f / (440 * Rpower 2 ((IZR m - 69) / 12))))).
Proof.
  intros Hm Hf Hr.
  destruct (rounded_midiToFreq m Hm) as (g & th & Hg & Eg & Hth).
  set (G := 440 * Rpower 2 ((IZR m - 69) / 12)) in *.
  pose proof (Rpower_2_pos ((IZR m - 69) / 12)) as Hp.
  assert (HG : 0 < G) by (unfold G; lra).
  apply abs_le_inv in Hth.
  assert (Hgpos : 0 < g) by (rewrite Eg; apply Rmult_lt_0_compat; lra).
  set (x := f / G) in *.
  pose proof (pow2_pos (-1000)) as Hp0.
  assert (Hx : 0 < x) by lra.
  assert (Exg : f / g = x * (1 + (- th / (1 + th)))) by (unfold x; rewrite Eg; field; lra).
  set (th' := - th / (1 + th)) in *.
  assert (Hth' : - / 400000000000 <= th' <= / 400000000000).
  { unfold th'. split.
    - apply Rmult_le_reg_r with (1 + th); [lra |].
      unfold Rdiv. rewrite Rmult_assoc, Rinv_l, Rmult_1_r by lra. nra.
    - apply Rmult_le_reg_r with (1 + th); [lra |].
      unfold Rdiv. rewrite Rmult_assoc, Rinv_l, Rmult_1_r by lra. nra. }
  unfold Rounded.centsOff. rewrite Hg.
  unfold Rounded.div. rewrite div_Fin by lra.
  assert (Hfg : x / 2 <= f / g <= 2 * x) by (rewrite Exg; nra).
  destruct (fl_rel (f / g)) as (r & -> & Hrr).
  { rewrite Rabs_pos_eq by lra. split.
    - apply Rle_trans with (powerRZ 2 (-1000 - 1)); [apply pow2_le; lia |].
      rewrite pow2_sub. replace (powerRZ 2 1) with 2 by (pow2_values; lra). lra.
    - apply Rle_trans with (powerRZ 2 (1000 + 1)); [| apply pow2_le; lia].
      rewrite pow2_add. replace (powerRZ 2 1) with 2 by (pow2_values; lra). lra. }
  rewrite (Rabs_pos_eq (f / g)) in Hrr by lra. apply abs_le_inv in Hrr.
  set (c1 := (r - f / g) / (f / g)).
  assert (Hc1 : - eps <= c1 <= eps).
  { unfold c1.
    split; (apply Rmult_le_reg_r with (f / g); [lra |]);
      replace ((r - f / g) / (f / g) * (f / g)) with (r - f / g) by (field; lra); lra. }
  set (rho := th' + c1 + th' * c1).
  assert (Er : r = x * (1 + rho)).
  { unfold rho.
    replace r with (f / g * (1 + c1)) by (unfold c1; field; lra).
    rewrite Exg. ring. }
  assert (Hrho : Rabs rho <= / 300000000000).
  { apply Rabs_le. unfold rho. nra. }
  assert (Hlr : Rabs (log2 r - log2 x) <= 4 * / 300000000000).
  { rewrite Er. apply Rle_trans with (4 * Rabs rho); [| lra].
    apply log2_perturbed; [exact Hx | lra]. }
  apply abs_le_inv in Hlr.
  pose proof (log2_between x _ _ Hr) as Hlx. simpl in Hlx.
  assert (Hrpos : x / 4 <= r <= 4 * x) by lra.
  assert (Hl : Rounded.Math_log2 lg (Fin r) = Fin (lg r)).
  { unfold Rounded.Math_log2. rewrite Rltb_false by lra. now rewrite Reqb_false by lra. }
  rewrite Hl. destruct Hlg as (Hacc & _).
  assert (Hrr' : powerRZ 2 (-1075) <= r <= powerRZ 2 1024).
  { split.
    - apply Rle_trans with (powerRZ 2 (-1000 - 2)); [apply pow2_le; lia |].
      rewrite pow2_sub. replace (powerRZ 2 2) with 4 by (pow2_values; lra). lra.
    - apply Rle_trans with (powerRZ 2 (1000 + 2)); [| apply pow2_le; lia].
      rewrite pow2_add. replace (powerRZ 2 2) with 4 by (pow2_values; lra). lra. }
  pose proof (Hacc r Hrr') as HL.
  assert (Hlrb : Rabs (log2 r) <= 1001) by (apply Rabs_le; lra).
  pose proof eps2_bound as He2. pose proof del_bound as Hd.
  assert (HL' : Rabs (lg r - log2 r) <= 2002 * eps + del).
  { assert (powerRZ 2 (-52) * Rabs (log2 r) <= 2 * eps * 1001)
      by (apply Rmult_le_compat; try lra; [left; apply pow2_pos | apply Rabs_pos]).
    change (-1075)%Z with (-1074 - 1)%Z in HL. lra. }
  apply abs_le_inv in HL'. apply abs_le_inv in Hlrb.
  unfold Rounded.mul. rewrite mul_Fin.
  destruct (fl_near (1200 * lg r) 1202400) as (y & -> & Hy); [apply Rabs_le; lra | lra |].
  apply abs_le_inv in Hy.
  assert (He : Rabs (y - 1200 * log2 x) <= / 50000000) by (apply Rabs_le; lra).
  exists (round y). split; [reflexivity | split].
  - now apply round_near.
  - intros Hmar.
    apply (round_stable y _ (/ 50000000) (/ 10000000)); [exact He | lra | exact Hmar].
Qed.

Lemma fl_1 : fl (Fin 1) = Fin 1.
Proof. apply (fl_Z fl Hfl 1). simpl. lia. Qed.

Lemma rounded_log2_1 : Rounded.Math_log2 lg (Fin 1) = Fin 0.
Proof.
  unfold Rounded.Math_log2. rewrite Rltb_false by lra. rewrite Reqb_false by lra.
  destruct Hlg as (_ & ->). reflexivity.
Qed.

Lemma Math_round_Z (z : Z) : Math_round (of_Z z) = of_Z z.
Proof. unfold Math_round, of_Z. fold (round (IZR z)). now rewrite round_IZR. Qed.

Lemma rounded_freqToMidi_440 : Rounded.freqToMidi fl lg (Fin 440) = Fin 69.
Proof.
  unfold Rounded.freqToMidi, Rounded.div, A4, A4_MIDI. rewrite div_Fin by lra.
  replace (440 / 440) with 1 by lra. rewrite fl_1, rounded_log2_1.
  unfold Rounded.mul, Rounded.add. rewrite mul_Fin, Rmult_0_r, (fl_0 fl Hfl).
  rewrite add_Fin, Rplus_0_l.
  change (Fin 69) with (of_Z 69). rewrite (fl_Z fl Hfl) by (simpl; lia).
  apply Math_round_Z.
Qed.

Lemma rounded_midiToFreq_69 : Rounded.midiToFreq fl pw (Fin 69) = Fin 440.
Proof.
  unfold Rounded.midiToFreq, Rounded.sub, Rounded.div, Rounded.mul, A4, A4_MIDI.
  rewrite sub_Fin. replace (69 - 69) with 0 by lra. rewrite (fl_0 fl Hfl).
  rewrite div_Fin by lra. replace (0 / 12) with 0 by lra. rewrite (fl_0 fl Hfl).
  cbn [Rounded.Math_pow2]. destruct Hpw as (_ & ->).
  rewrite mul_Fin, Rmult_1_r.
  change (Fin 440) with (of_Z 440). apply (fl_Z fl Hfl). simpl. lia.
Qed.

(** A frequency measured against itself is 0 cents off. *)
Lemma rounded_centsOff_self (g : R) (midi : number) :
  g <> 0 -> Rounded.midiToFreq fl pw midi = Fin g ->
  Rounded.centsOff fl lg pw (Fin g) midi = of_Z 0.
Proof.
  intros Hg E. unfold Rounded.centsOff. rewrite E.
  unfold Rounded.div. rewrite div_Fin by exact Hg.
  replace (g / g) with 1 by (field; exact Hg).
  rewrite fl_1, rounded_log2_1.
  unfold Rounded.mul. rewrite mul_Fin, Rmult_0_r, (fl_0 fl Hfl).
  apply (Math_round_Z 0).
Qed.

(** The MIDI number of a frequency from [2^-1000] to [2^1000] is small. *)
Lemma rounded_midi_range (f : R) (m : Z) :
  powerRZ 2 (-1000) <= f <= powerRZ 2 1000 ->
  Rabs (IZR m - (12 * log2 (f / 440) + 69)) <= / 2 + / 100000000000 ->
  (Z.abs m <= 12080)%Z.
Proof.
  intros [Hlo Hhi] Hm. apply abs_le_inv in Hm.
  pose proof (pow2_pos (-1000)) as Hp0.
  assert (Hx : powerRZ 2 (-1009) <= f / 440 <= powerRZ 2 1000).
  { split.
    - replace (-1009)%Z with (-1000 + -9)%Z by reflexivity. rewrite pow2_add.
      assert (E : powerRZ 2 (-9) = / 512) by (pow2_values; lra).
      rewrite E. lra.
    - lra. }
  pose proof (log2_between _ _ _ Hx) as Hl. simpl in Hl.
  assert (H1 : IZR (-12081) < IZR m) by lra.
  assert (H2 : IZR m < IZR 12081) by lra.
  apply lt_IZR in H1. apply lt_IZR in H2. lia.
Qed.

(** C5, as amended.  For a frequency [f] from [2^-1000] to [2^1000] Hz the
    MIDI number is an integer within [1/2 + 10^-11] of
    [12 * log2 (f / 440) + 69], and it is [round] of that value whenever the
    value is at least [10^-9] away from every tie.  For a MIDI integer [m]
    from -1200 upwards the note name is the entry [(m + 1200) mod 12] of the
    cycle followed by the octave [floor (m / 12) - 1].  For [f > 0] and a
    MIDI integer of magnitude up to 12080 whose ideal frequency is within a
    factor [2^1000] of [f], the offset is an integer within
    [1/2 + 2 * 10^-8] of [1200 * log2 (f / (440 * 2^((m - 69) / 12)))], and
    it is [round] of that value whenever the value is at least [10^-7] away
    from every tie.  440 Hz is MIDI 69 and back, [midiToName 69 = "A4"],
    [midiToName 60 = "C4"] and [centsOff 440 69 = 0]. *)
Theorem C5_note_mapper_equations (f : R) (m : Z) :
  (powerRZ 2 (-1000) <= f <= powerRZ 2 1000 ->
   exists k,
     Rounded.freqToMidi fl lg (Fin f) = of_Z k
     /\ Rabs (IZR k - (12 * log2 (f / 440) + 69)) <= / 2 + / 100000000000
     /\ ((forall j : Z,
            / 1000000000 <= Rabs (12 * log2 (f / 440) + 69 - (IZR j + / 2))) ->
         k = round (12 * log2 (f / 440) + 69)))
  /\ midiToName (of_Z m)
     = (ToString_opt (get NOTE_NAMES (Z.rem (m + 1200) 12)) ++ string_of_Z (m / 12 - 1))%string
  /\ ((-1200 <= m)%Z -> midiToName (of_Z m) = noteName_spec m)
  /\ ((Z.abs m <= 12080)%Z -> 0 < f ->
      powerRZ 2 (-1000) <= f / (440 * Rpower 2 ((IZR m - 69) / 12)) <= powerRZ 2 1000 ->
      exists c,
        Rounded.centsOff fl lg pw (Fin f) (of_Z m) = of_Z c
        /\ Rabs (IZR c - 1200 * log2 (f / (440 * Rpower 2 ((IZR m - 69) / 12))))
           <= / 2 + / 50000000
        /\ ((forall j : Z,
               / 10000000
               <= Rabs (1200 * log2 (f / (440 * Rpower 2 ((IZR m - 69) / 12)))
                        - (IZR j + / 2))) ->
            c = round (1200 * log2 (f / (440 * Rpower 2 ((IZR m - 69) / 12))))))
  /\ Rounded.freqToMidi fl lg (Fin 440) = Fin 69
  /\ Rounded.midiToFreq fl pw (Fin 69) = Fin 440
  /\ midiToName (Fin 69) = "A4"%string
  /\ midiToName (Fin 60) = "C4"%string
  /\ Rounded.centsOff fl lg pw (Fin 440) (Fin 69) = Fin 0.
Proof.
  split; [apply rounded_freqToMidi |].
  split; [apply midiToName_of_Z |].
  split; [apply midiToName_spec |].
  split; [apply rounded_centsOff |].
  split; [apply rounded_freqToMidi_440 |].
  split; [apply rounded_midiToFreq_69 |].
  split; [change (Fin 69) with (of_Z 69); rewrite midiToName_of_Z; reflexivity |].
  split; [change (Fin 60) with (of_Z 60); rewrite midiToName_of_Z; reflexivity |].
  apply rounded_centsOff_self; [lra | apply rounded_midiToFreq_69].
Qed.

(** The round trip of a frequency from [2^-1000] to [2^1000]. *)
Lemma rounded_round_trip (f : R) :
  powerRZ 2 (-1000) <= f <= powerRZ 2 1000 ->
  exists g,
    Rounded.midiToFreq fl pw (Rounded.freqToMidi fl lg (Fin f)) = Fin g
    /\ f / semitone <= g <= f * semitone.
Proof.
  intros Hf. pose proof (pow2_pos (-1000)) as Hp0.
  assert (Hfpos : 0 < f) by lra.
  destruct (rounded_freqToMidi f Hf) as (m & -> & Hm & _).
  pose proof (rounded_midi_range f m Hf Hm) as Hmr.
  destruct (rounded_midiToFreq m Hmr) as (g & th & -> & Eg & Hth).
  exists g. split; [reflexivity |].
  apply abs_le_inv in Hm. apply abs_le_inv in Hth.
  set (y := 12 * log2 (f / 440) + 69) in *.
  set (s := (IZR m - y) / 12).
  assert (Hs : - / 20 <= s <= / 20) by (unfold s; lra).
  assert (EG : 440 * Rpower 2 ((IZR m - 69) / 12) = f * Rpower 2 s).
  { replace ((IZR m - 69) / 12) with (log2 (f / 440) + s) by (unfold s, y; field).
    rewrite Rpower_plus, Rpower_log2 by lra. field. }
  rewrite EG in Eg.
  assert (E12 : semitone = Rpower 2 (/ 20) * Rpower 2 (/ 30)).
  { unfold semitone. rewrite <- Rpower_plus. f_equal. lra. }
  pose proof (Rpower_2_pos (/ 20)) as H20. pose proof (Rpower_2_pos (/ 30)) as H30.
  pose proof (Rpower_2_pos s) as Hps.
  assert (Hup : Rpower 2 s <= Rpower 2 (/ 20)) by (apply Rle_Rpower; lra).
  assert (Hdn : / Rpower 2 (/ 20) <= Rpower 2 s).
  { rewrite <- Rpower_Ropp. apply Rle_Rpower; lra. }
  assert (H30' : 1 + / 60 <= Rpower 2 (/ 30)).
  { destruct (Rpower_2_ge (/ 30)) as [H | H]; lra. }
  assert (Hsemi : 0 < semitone) by (rewrite E12; apply Rmult_lt_0_compat; lra).
  split.
  - (* f / semitone <= g *)
    apply Rmult_le_reg_r with semitone; [exact Hsemi |].
    unfold Rdiv. rewrite Rmult_assoc, Rinv_l, Rmult_1_r by lra.
    rewrite Eg, E12.
    assert (H1 : 1 <= Rpower 2 s * Rpower 2 (/ 20)).
    { apply Rmult_le_reg_r with (/ Rpower 2 (/ 20)); [now apply Rinv_0_lt_compat |].
      rewrite Rmult_assoc, Rinv_r, Rmult_1_r, Rmult_1_l by lra. exact Hdn. }
    assert (H2 : 1 <= (1 + th) * Rpower 2 (/ 30)) by nra.
    replace (f * Rpower 2 s * (1 + th) * (Rpower 2 (/ 20) * Rpower 2 (/ 30)))
      with (f * ((Rpower 2 s * Rpower 2 (/ 20)) * ((1 + th) * Rpower 2 (/ 30)))) by ring.
    rewrite <- (Rmult_1_r f) at 1.
    apply Rmult_le_compat_l; [lra |].
    rewrite <- (Rmult_1_r 1) at 1. apply Rmult_le_compat; lra.
  - rewrite Eg, E12.
    replace (f * Rpower 2 s * (1 + th)) with (f * (Rpower 2 s * (1 + th))) by ring.
    apply Rmult_le_compat_l; [lra |].
    apply Rmult_le_compat; lra.
Qed.

(** C7, as amended: for every frequency [f] from [2^-1000] to [2^1000] Hz,
    going to the nearest MIDI number and back to its ideal frequency, every
    operation rounded, gives a finite value within a factor of one semitone,
    [2 ^ (1/12)] (less than 1.06), of [f]. *)
Theorem C7_round_trip_within_semitone (f : R) :
  powerRZ 2 (-1000) <= f <= powerRZ 2 1000 ->
  exists g,
    Rounded.midiToFreq fl pw (Rounded.freqToMidi fl lg (Fin f)) = Fin g
    /\ f / Rpower 2 (/ 12) <= g <= f * Rpower 2 (/ 12)
    /\ Rpower 2 (/ 12) < 1.06.
Proof.
  intros Hf. destruct (rounded_round_trip f Hf) as (g & Hg & Hb).
  exists g. split; [exact Hg | split; [exact Hb | exact semitone_lt_106]].
Qed.

(** X1: from a MIDI integer between -11000 and 11000 to its ideal frequency
    and back gives the same MIDI integer, and the ideal frequency is 0 cents
    off its own note, every operation rounded. *)
Theorem X1_midi_round_trip (m : Z) :
  (Z.abs m <= 11000)%Z ->
  Rounded.freqToMidi fl lg (Rounded.midiToFreq fl pw (of_Z m)) = of_Z m
  /\ Rounded.centsOff fl lg pw (Rounded.midiToFreq fl pw (of_Z m)) (of_Z m) = of_Z 0.
Proof.
  intros Hm.
  assert (Hmr : -11000 <= IZR m <= 11000)
    by (split; [apply (IZR_le (-11000)) | apply (IZR_le _ 11000)]; lia).
  destruct (rounded_midiToFreq m ltac:(lia)) as (g & th & Hg & Eg & Hth).
  pose proof (Rpower_2_pos ((IZR m - 69) / 12)) as Hp.
  apply abs_le_inv in Hth.
  assert (Hgpos : 0 < g) by (rewrite Eg; apply Rmult_lt_0_compat; lra).
  split; [| rewrite Hg at 1; apply rounded_centsOff_self; [lra | exact Hg]].
  rewrite Hg.
  destruct (Rpower_2_between ((IZR m - 69) / 12) (-923) 911) as [Hlo Hhi]; [simpl; lra |].
  pose proof (pow2_pos (-923)) as Hp923.
  assert (Hgr : powerRZ 2 (-1000) <= g <= powerRZ 2 1000).
  { rewrite Eg. split.
    - apply Rle_trans with (powerRZ 2 (-923)); [apply pow2_le; lia | nra].
    - apply Rle_trans with (powerRZ 2 10 * powerRZ 2 911);
        [| rewrite <- pow2_add; apply pow2_le; lia].
      replace (powerRZ 2 10) with 1024 by (pow2_values; lra).
      pose proof (pow2_pos 911). nra. }
  destruct (rounded_freqToMidi g Hgr) as (k & -> & Hk & _).
  f_equal.
  assert (Ey : 12 * log2 (g / 440) + 69 = IZR m + 12 * log2 (1 + th)).
  { rewrite Eg.
    replace (440 * Rpower 2 ((IZR m - 69) / 12) * (1 + th) / 440)
      with (Rpower 2 ((IZR m - 69) / 12) * (1 + th)) by (field; lra).
    rewrite log2_mult, log2_Rpower by lra. lra. }
  rewrite Ey in Hk.
  pose proof (log2_1p_bound th ltac:(apply Rabs_le; lra)) as Hl.
  assert (Hth' : Rabs th <= / 1000000000000) by (apply Rabs_le; lra).
  apply abs_le_inv in Hl. apply abs_le_inv in Hk.
  assert (H1 : IZR (m - 1) < IZR k) by (rewrite minus_IZR; lra).
  assert (H2 : IZR k < IZR (m + 1)) by (rewrite plus_IZR; lra).
  apply lt_IZR in H1. apply lt_IZR in H2. lia.
Qed.

(** X2: measured against its own nearest note, a frequency from [2^-1000]
    to [2^1000] Hz is never more than 50 cents off, every operation
    rounded. *)
Theorem X2_cents_within_half_semitone (f : R) :
  powerRZ 2 (-1000) <= f <= powerRZ 2 1000 ->
  exists c : Z,
    Rounded.centsOff fl lg pw (Fin f) (Rounded.freqToMidi fl lg (Fin f)) = of_Z c
    /\ (-50 <= c <= 50)%Z.
Proof.
  intros Hf. pose proof (pow2_pos (-1000)) as Hp0.
  assert (Hfpos : 0 < f) by lra.
  destruct (rounded_freqToMidi f Hf) as (m & -> & Hm & _).
  pose proof (rounded_midi_range f m Hf Hm) as Hmr.
  apply abs_le_inv in Hm.
  assert (E : log2 (f / (440 * Rpower 2 ((IZR m - 69) / 12)))
              = (12 * log2 (f / 440) + 69 - IZR m) / 12)
    by (apply midi_position; exact Hfpos).
  set (y := 12 * log2 (f / 440) + 69) in *.
  pose proof (Rpower_2_pos ((IZR m - 69) / 12)) as Hp.
  assert (Hratio : powerRZ 2 (-1000)
                   <= f / (440 * Rpower 2 ((IZR m - 69) / 12)) <= powerRZ 2 1000).
  { assert (Hq : 0 < f / (440 * Rpower 2 ((IZR m - 69) / 12)))
      by (apply Rdiv_lt_0_compat; lra).
    rewrite <- (Rpower_log2 _ Hq), E.
    apply Rpower_2_between. simpl. lra. }
  destruct (rounded_centsOff f m Hmr Hfpos Hratio) as (c & -> & Hc & _).
  exists c. split; [reflexivity |].
  rewrite E in Hc. apply abs_le_inv in Hc.
  assert (H1 : IZR (-51) < IZR c) by lra.
  assert (H2 : IZR c < IZR 51) by lra.
  apply lt_IZR in H1. apply lt_IZR in H2. lia.
Qed.

End NoteMapperRounded.

(** ** The correctly rounded functions are accurate *)

Section CorrectlyRounded.

Local Open Scope R_scope.

Lemma log2_64_accurate : log2_accurate log2_64.
Proof.
  split.
  - intros x Hx. pose proof (log2_between x _ _ Hx) as Hl. simpl in Hl.
    unfold log2_64.
    destruct (round_to_accurate 53 (-1074) 1024 ltac:(lia) (log2 x) 11 ltac:(lia))
      as (y & Hy & _ & He).
    { apply Rabs_le. pow2_values. lra. }
    fold IEEE.binary64 in Hy. rewrite Hy.
    change (-1075)%Z with (-1074 - 1)%Z.
    assert (powerRZ 2 (Z.opp 53) <= powerRZ 2 (-52)) by (apply pow2_le; lia).
    assert (powerRZ 2 (Z.opp 53) * Rabs (log2 x) <= powerRZ 2 (-52) * Rabs (log2 x))
      by (apply Rmult_le_compat_r; [apply Rabs_pos | assumption]).
    lra.
  - unfold log2_64. rewrite log2_1, binary64_0. reflexivity.
Qed.

Lemma pow2_64_accurate : pow2_accurate pow2_64.
Proof.
  split.
  - intros t Ht. apply abs_le_inv in Ht.
    destruct (Rpower_2_between t (-1021) 1021) as [Hlo Hhi]; [simpl; lra |].
    pose proof (Rpower_2_pos t) as Hp.
    unfold pow2_64.
    destruct (round_to_accurate 53 (-1074) 1024 ltac:(lia) (Rpower 2 t) 1021 ltac:(lia))
      as (y & Hy & _ & He).
    { rewrite Rabs_pos_eq by lra. exact Hhi. }
    exists y. split; [exact Hy |].
    rewrite (Rabs_pos_eq (Rpower 2 t)) in He by lra.
    assert (Hs : powerRZ 2 (-1074 - 1) <= powerRZ 2 (Z.opp 53) * Rpower 2 t).
    { apply Rle_trans with (powerRZ 2 (Z.opp 53) * powerRZ 2 (-1021)).
      - rewrite <- pow2_add. apply pow2_le. lia.
      - apply Rmult_le_compat_l; [left; apply pow2_pos | exact Hlo]. }
    assert (E : powerRZ 2 (-52) = 2 * powerRZ 2 (Z.opp 53)).
    { replace (-52)%Z with (1 + Z.opp 53)%Z by reflexivity. rewrite pow2_add.
      replace (powerRZ 2 1) with 2 by (pow2_values; lra). reflexivity. }
    rewrite E. lra.
  - unfold pow2_64. rewrite Rpower_2_0.
    change 1 with (powerRZ 2 0). apply binary64_pow2. lia.
Qed.

End CorrectlyRounded.

(** ** The note mapper at the ends of the double range *)

Section NoteMapperBinary64.

Local Open Scope R_scope.

Lemma moderate_in_range (x : R) :
  1 <= x <= 512 -> powerRZ 2 (-1000) <= x <= powerRZ 2 1000.
Proof.
  intros [H1 H2]. split.
  - apply Rle_trans with (powerRZ 2 0); [apply pow2_le; lia | simpl; lra].
  - apply Rle_trans with (powerRZ 2 9); [pow2_values; lra | apply pow2_le; lia].
Qed.

Lemma binary64_underflow (x : R) :
  Rabs x < powerRZ 2 (-1075) -> IEEE.binary64 x = Fin 0.
Proof. intros H. apply round_to_underflow; first [lia | exact H]. Qed.

(** The smallest positive double maps to [-Infinity], for every
    [Math.log2]. *)
Lemma freqToMidi_smallest (lg : R -> R) :
  Rounded.freqToMidi IEEE.fl64 lg (Fin (powerRZ 2 (-1074))) = Inf true.
Proof.
  pose proof (pow2_pos (-1074)) as Hp.
  unfold Rounded.freqToMidi, Rounded.div, A4, A4_MIDI. rewrite div_Fin by lra.
  cbn [IEEE.fl64]. rewrite binary64_underflow.
  2:{ rewrite Rabs_pos_eq by (apply Rlt_le, Rdiv_lt_0_compat; lra).
      replace (-1075)%Z with (-1074 - 1)%Z by reflexivity. rewrite pow2_sub.
      replace (powerRZ 2 1) with 2 by (pow2_values; lra). lra. }
  unfold Rounded.Math_log2. rewrite Rltb_false by lra. rewrite Reqb_true by reflexivity.
  unfold Rounded.mul, Rounded.add. cbn [JS.mul]. rewrite Reqb_false by lra.
  unfold sgn. rewrite Rltb_false by lra. reflexivity.
Qed.

Lemma midiToFreq_minus_infinity :
  Rounded.midiToFreq IEEE.fl64 pow2_64 (Inf true) = Fin 0.
Proof.
  unfold Rounded.midiToFreq, Rounded.sub, Rounded.div, Rounded.mul, A4, A4_MIDI.
  cbn [JS.sub JS.neg JS.add IEEE.fl64 JS.div].
  unfold sgn. rewrite Rltb_false by lra.
  cbn [xorb IEEE.fl64 Rounded.Math_pow2]. rewrite mul_Fin, Rmult_0_r.
  cbn [IEEE.fl64]. apply binary64_0.
Qed.

End NoteMapperBinary64.

Lemma C5_note_mapper_equations_witness :
  (exists k,
     Rounded.freqToMidi IEEE.fl64 log2_64 (Fin 450) = of_Z k
     /\ (Rabs (IZR k - (12 * log2 (450 / 440) + 69)) <= / 2 + / 100000000000)%R)
  /\ midiToName (of_Z 61) = noteName_spec 61.
Proof.
  destruct (C5_note_mapper_equations IEEE.fl64 log2_64 pow2_64
              fl64_rounds_to_double log2_64_accurate pow2_64_accurate 450 61)
    as (H1 & _ & H3 & _).
  split.
  - destruct H1 as (k & Hk & Hb & _); [apply moderate_in_range; lra |].
    exists k. split; assumption.
  - apply H3. lia.
Defined.

(** C5 as stated fails.  The MIDI integer -1201 has the remainder
    [(m + 1200) % 12 = -1], outside the table, and its name is
    ["undefined-102"], not the entry 11 of the cycle; and the smallest
    positive double, [2^-1074], has no MIDI integer: [f / 440] underflows to
    0 and [freqToMidi] returns [-Infinity]. *)
Lemma C5_counterexample :
  midiToName (of_Z (-1201)) = "undefined-102"
  /\ noteName_spec (-1201) = "B-102"
  /\ midiToName (of_Z (-1201)) <> noteName_spec (-1201)
  /\ (0 < powerRZ 2 (-1074))%R
  /\ Rounded.freqToMidi IEEE.fl64 log2_64 (Fin (powerRZ 2 (-1074))) = Inf true
  /\ Rounded.freqToMidi IEEE.fl64 log2_64 (Fin (powerRZ 2 (-1074)))
     <> of_Z (round (12 * log2 (powerRZ 2 (-1074) / 440) + 69)).
Proof.
  assert (E1 : midiToName (of_Z (-1201)) = "undefined-102")
    by (rewrite midiToName_of_Z; reflexivity).
  assert (E2 : noteName_spec (-1201) = "B-102") by reflexivity.
  split; [exact E1 | split; [exact E2 | split; [| split; [| split]]]].
  - rewrite E1, E2. discriminate.
  - apply pow2_pos.
  - apply freqToMidi_smallest.
  - rewrite freqToMidi_smallest. discriminate.
Qed.

Lemma C7_round_trip_within_semitone_witness :
  exists g,
    Rounded.midiToFreq IEEE.fl64 pow2_64 (Rounded.freqToMidi IEEE.fl64 log2_64 (Fin 445))
    = Fin g
    /\ (445 / Rpower 2 (/ 12) <= g <= 445 * Rpower 2 (/ 12))%R
    /\ (Rpower 2 (/ 12) < 1.06)%R.
Proof.
  apply (C7_round_trip_within_semitone IEEE.fl64 log2_64 pow2_64
           fl64_rounds_to_double log2_64_accurate pow2_64_accurate 445).
  apply moderate_in_range. lra.
Defined.

(** C7 as stated fails: the smallest positive double, [2^-1074], goes to
    [-Infinity] and comes back as 0, which is not within a semitone of
    it. *)
Lemma C7_counterexample :
  let f := powerRZ 2 (-1074) in
  (0 < f)%R
  /\ Rounded.freqToMidi IEEE.fl64 log2_64 (Fin f) = Inf true
  /\ Rounded.midiToFreq IEEE.fl64 pow2_64 (Rounded.freqToMidi IEEE.fl64 log2_64 (Fin f))
     = Fin 0
  /\ ~ (f / Rpower 2 (/ 12) <= 0)%R.
Proof.
  cbv zeta. pose proof (pow2_pos (-1074)) as Hp.
  split; [exact Hp | split; [apply freqToMidi_smallest | split]].
  - rewrite freqToMidi_smallest. apply midiToFreq_minus_infinity.
  - pose proof (Rpower_2_pos (/ 12)) as H12.
    assert (0 < powerRZ 2 (-1074) / Rpower 2 (/ 12))%R by (apply Rdiv_lt_0_compat; lra).
    lra.
Qed.

Lemma X1_midi_round_trip_witness :
  Rounded.freqToMidi IEEE.fl64 log2_64 (Rounded.midiToFreq IEEE.fl64 pow2_64 (of_Z 60))
  = of_Z 60
  /\ Rounded.centsOff IEEE.fl64 log2_64 pow2_64
       (Rounded.midiToFreq IEEE.fl64 pow2_64 (of_Z 60)) (of_Z 60) = of_Z 0.
Proof.
  apply (X1_midi_round_trip IEEE.fl64 log2_64 pow2_64
           fl64_rounds_to_double log2_64_accurate pow2_64_accurate 60).
  simpl. lia.
Defined.

Lemma X2_cents_within_half_semitone_witness :
  exists c : Z,
    Rounded.centsOff IEEE.fl64 log2_64 pow2_64 (Fin 450)
      (Rounded.freqToMidi IEEE.fl64 log2_64 (Fin 450)) = of_Z c
    /\ (-50 <= c <= 50)%Z.
Proof.
  apply (X2_cents_within_half_semitone IEEE.fl64 log2_64 pow2_64
           fl64_rounds_to_double log2_64_accurate pow2_64_accurate 450).
  apply moderate_in_range. lra.
Defined.

(** ** [freqToMidi] over the doubles *)

Section FreqToMidiDoubles.

Local Open Scope R_scope.

(** A value at or below minus the smallest positive double is rounded to a
    negative double or to [-Infinity]. *)
Lemma binary64_negative (x : R) :
  x <= - powerRZ 2 (-1074) ->
  (exists q, IEEE.binary64 x = Fin q /\ q < 0) \/ IEEE.binary64 x = Inf true.
Proof.
  intros Hx. pose proof (pow2_pos (-1074)) as Hp.
  assert (Hne : x <> 0) by lra.
  unfold IEEE.binary64. rewrite round_to_unfold. cbv zeta.
  set (e := IEEE.ulp_exp 53 (-1074) x).
  pose proof (pow2_pos e) as Hpe.
  assert (He : powerRZ 2 e <= - x).
  { unfold e, IEEE.ulp_exp.
    destruct (Z.max_spec (IEEE.binade x - (53 - 1)) (-1074)) as [[_ ->] | [_ ->]].
    - lra.
    - pose proof (binade_bounds x Hne) as [Hlo _].
      rewrite Rabs_left in Hlo by lra.
      apply Rle_trans with (powerRZ 2 (IEEE.binade x)); [apply pow2_le; lia | exact Hlo]. }
  assert (Hr : (IEEE.rne (x / powerRZ 2 e) <= -1)%Z).
  { apply rne_le. apply Rmult_le_reg_r with (powerRZ 2 e); [exact Hpe |].
    unfold Rdiv. rewrite Rmult_assoc, Rinv_l, Rmult_1_r by lra. lra. }
  assert (Hy : IZR (IEEE.rne (x / powerRZ 2 e)) * powerRZ 2 e < 0).
  { apply IZR_le in Hr. nra. }
  destruct (Rltb _ _).
  - left. eexists. split; [reflexivity | exact Hy].
  - right. unfold sgn. now rewrite Rltb_true by lra.
Qed.

Variable lg : R -> R.

Lemma freqToMidi_underflow (f : R) :
  Rabs f < 440 * powerRZ 2 (-1075) ->
  Rounded.freqToMidi IEEE.fl64 lg (Fin f) = Inf true.
Proof.
  intros Hf.
  unfold Rounded.freqToMidi, Rounded.div, A4, A4_MIDI. rewrite div_Fin by lra.
  cbn [IEEE.fl64]. rewrite binary64_underflow.
  2:{ unfold Rdiv. rewrite Rabs_mult, (Rabs_pos_eq (/ 440)) by lra. lra. }
  unfold Rounded.Math_log2. rewrite Rltb_false by lra. rewrite Reqb_true by reflexivity.
  unfold Rounded.mul, Rounded.add. cbn [JS.mul]. rewrite Reqb_false by lra.
  unfold sgn. rewrite Rltb_false by lra. reflexivity.
Qed.

Lemma freqToMidi_negative (f : R) :
  f <= - (440 * powerRZ 2 (-1074)) ->
  Rounded.freqToMidi IEEE.fl64 lg (Fin f) = NaN.
Proof.
  intros Hf.
  unfold Rounded.freqToMidi, Rounded.div, A4, A4_MIDI. rewrite div_Fin by lra.
  cbn [IEEE.fl64].
  destruct (binary64_negative (f / 440)) as [(q & -> & Hq) | ->]; [lra | |].
  - unfold Rounded.Math_log2. rewrite Rltb_true by exact Hq. reflexivity.
  - reflexivity.
Qed.

Hypothesis Hlg : log2_accurate lg.

(** X5: [freqToMidi] over the doubles.  It returns an integer on every
    frequency from [2^-1000] to [2^1000] Hz; it returns [-Infinity] on zero
    and on every frequency so small that [f / 440] underflows, the smallest
    positive doubles among them; it returns NaN on the negative frequencies
    from minus [440 * 2^-1074] down, on NaN and on [-Infinity]; and it
    returns [+Infinity] on [+Infinity]. *)
Theorem X5_freqToMidi_over_the_doubles :
  let midi := Rounded.freqToMidi IEEE.fl64 lg in
  (forall f, powerRZ 2 (-1000) <= f <= powerRZ 2 1000 -> exists m, midi (Fin f) = of_Z m)
  /\ (forall f, Rabs f < 440 * powerRZ 2 (-1075) -> midi (Fin f) = Inf true)
  /\ midi (Fin (powerRZ 2 (-1074))) = Inf true
  /\ (forall f, f <= - (440 * powerRZ 2 (-1074)) -> midi (Fin f) = NaN)
  /\ midi NaN = NaN
  /\ midi (Inf true) = NaN
  /\ midi (Inf false) = Inf false.
Proof.
  cbv zeta.
  split; [| split; [exact freqToMidi_underflow | split; [| split; [exact freqToMidi_negative |]]]].
  - intros f Hf.
    destruct (rounded_freqToMidi IEEE.fl64 lg fl64_rounds_to_double Hlg f Hf) as (m & Hm & _).
    eauto.
  - apply freqToMidi_smallest.
  - assert (H440 : Rltb 440 0 = false) by (apply Rltb_false; lra).
    assert (H12 : Reqb 12 0 = false) by (apply Reqb_false; lra).
    assert (S12 : Rltb 12 0 = false) by (apply Rltb_false; lra).
    split; [reflexivity | split].
    + unfold Rounded.freqToMidi, Rounded.div, A4, JS.div, sgn. rewrite H440. reflexivity.
    + unfold Rounded.freqToMidi, Rounded.div, A4, A4_MIDI, JS.div, sgn. rewrite H440.
      cbn [xorb IEEE.fl64 Rounded.Math_log2].
      unfold Rounded.mul, JS.mul, sgn. rewrite H12, S12. reflexivity.
Qed.

End FreqToMidiDoubles.

Lemma X5_freqToMidi_over_the_doubles_witness :
  (exists m, Rounded.freqToMidi IEEE.fl64 log2_64 (Fin 450) = of_Z m)
  /\ Rounded.freqToMidi IEEE.fl64 log2_64 (Fin (powerRZ 2 (-1074))) = Inf true.
Proof.
  destruct (X5_freqToMidi_over_the_doubles log2_64 log2_64_accurate) as (H1 & _ & H3 & _).
  split; [apply H1, moderate_in_range; lra | exact H3].
Defined.
